(** * GraphLab distributed graph runtime: local store, fragment, ghost
      synchronisation, message combiners and the queued FIFO scheduler.

    A shallow embedding of
      - [graphlab/distributed2/graph/graph_local_store.hpp]
      - [graphlab/distributed2/graph/distributed_graph.hpp]
      - [graphlab/vertex_program/messages.hpp]
      - the queued FIFO scheduler ([queued_fifo_scheduler])
    followed by the properties proved about them.

    Conventions.
      - [uint32_t], [uint64_t] and [size_t] values are numbers of type [N];
        every place where the C++ code wraps around or truncates is written
        out with [mod].
      - A [std::vector] is a [list]; an index is converted with [N.to_nat].
      - A call either returns ([Ok]), stops the process on a failed assertion
        ([Fatal]; both [assert] and the always-on [ASSERT_*] macros), indexes a
        vector outside its bounds ([Undefined]) or, for the loops that are
        modelled with fuel, runs out of fuel ([OutOfFuel]). *)

From Stdlib Require Import NArith ZArith List Bool Lia Sorted.
From Stdlib Require Import Floats.
From stdpp Require Import base option list gmap.

Local Open Scope N_scope.

(** ** Outcomes of a call *)

Inductive outcome (A : Type) : Type :=
  | Ok (a : A)
  | Fatal
  | Undefined
  | OutOfFuel.
Arguments Ok {A} a.
Arguments Fatal {A}.
Arguments Undefined {A}.
Arguments OutOfFuel {A}.

#[global] Instance outcome_ret : MRet outcome := fun _ a => Ok a.
#[global] Instance outcome_bind : MBind outcome := fun _ _ f m =>
  match m with
  | Ok a => f a
  | Fatal => Fatal
  | Undefined => Undefined
  | OutOfFuel => OutOfFuel
  end.

(** [assert(b)] *)
Definition assert (b : bool) : outcome unit :=
  if b then Ok tt else Fatal.

(** [vec[i]] as an rvalue *)
Definition vec_at {A} (vec : list A) (i : N) : outcome A :=
  match vec !! N.to_nat i with
  | Some x => Ok x
  | None => Undefined
  end.

(** [vec[i] = x] *)
Definition vec_put {A} (vec : list A) (i : N) (x : A) : outcome (list A) :=
  if i <? N.of_nat (length vec) then Ok (<[N.to_nat i := x]> vec)
  else Undefined.

(** [vec.size()] *)
Definition vec_size {A} (vec : list A) : N := N.of_nat (length vec).

(** [vec.resize(n)] with value-initialised new elements [d] *)
Definition vec_resize {A} (n : N) (d : A) (vec : list A) : list A :=
  take (N.to_nat n) vec ++ replicate (N.to_nat n - length vec)%nat d.

Definition UINT32_MOD : N := 4294967296.
Definition UINT64_MOD : N := 18446744073709551616.
(** [vertex_id_type(-1)], [edge_id_type(-1)] *)
Definition UINT32_MAX : N := 4294967295.
(** [size_t(-1)] *)
Definition SIZE_MAX : N := 18446744073709551615.
(** The width of the bit-field [uint64_t version:62]. *)
Definition VERSION_MOD : N := 4611686018427387904.

(** ** The local graph store ([graph_local_store.hpp]) *)

Module LocalStore.

(** [struct edge] *)
Record edge : Type := Edge { _source : N; _target : N }.

(** [edge() : _source(-1), _target(-1)] *)
Definition edge_default : edge := Edge UINT32_MAX UINT32_MAX.

(** [edge::operator<] *)
Definition edge_lt (a b : edge) : bool :=
  (_source a <? _source b)
  || ((_source a =? _source b) && (_target a <? _target b)).

(** [struct vdata_store], [struct edata_store]: the payload, two flag bits
    and a 62 bit version. *)
Record vdata_store (VertexData : Type) : Type := VData {
  vdata : VertexData;
  vmodified : bool;
  vsnapshot_made : bool;
  vversion : N
}.
Arguments VData {VertexData}.
Arguments vdata {VertexData}.
Arguments vmodified {VertexData}.
Arguments vsnapshot_made {VertexData}.
Arguments vversion {VertexData}.

Record edata_store (EdgeData : Type) : Type := EData {
  edata : EdgeData;
  emodified : bool;
  esnapshot_made : bool;
  eversion : N
}.
Arguments EData {EdgeData}.
Arguments edata {EdgeData}.
Arguments emodified {EdgeData}.
Arguments esnapshot_made {EdgeData}.
Arguments eversion {EdgeData}.

(** The data members of [graph_local_store].  The two file names are
    advisory and the spin locks carry no state in a sequential run; they are
    left out. *)
Record graph_local_store (VertexData EdgeData : Type) : Type := Store {
  vertices : list (vdata_store VertexData);
  edgedata : list (edata_store EdgeData);
  edges : list edge;
  in_edges : list (list N);
  out_edges : list (list N);
  vcolors : list N;
  nvertices : N;
  nedges : N;
  finalized : bool;
  changeid : N
}.
Arguments Store {VertexData EdgeData}.
Arguments vertices {VertexData EdgeData}.
Arguments edgedata {VertexData EdgeData}.
Arguments edges {VertexData EdgeData}.
Arguments in_edges {VertexData EdgeData}.
Arguments out_edges {VertexData EdgeData}.
Arguments vcolors {VertexData EdgeData}.
Arguments nvertices {VertexData EdgeData}.
Arguments nedges {VertexData EdgeData}.
Arguments finalized {VertexData EdgeData}.
Arguments changeid {VertexData EdgeData}.

Section store.
Context {VertexData EdgeData : Type}.
Local Abbreviation store := (graph_local_store VertexData EdgeData).

(** Field updates. *)
Definition set_vertices (s : store) x : store :=
  Store x (edgedata s) (edges s) (in_edges s) (out_edges s) (vcolors s)
        (nvertices s) (nedges s) (finalized s) (changeid s).
Definition set_edgedata (s : store) x : store :=
  Store (vertices s) x (edges s) (in_edges s) (out_edges s) (vcolors s)
        (nvertices s) (nedges s) (finalized s) (changeid s).
Definition set_edges (s : store) x : store :=
  Store (vertices s) (edgedata s) x (in_edges s) (out_edges s) (vcolors s)
        (nvertices s) (nedges s) (finalized s) (changeid s).
Definition set_in_edges (s : store) x : store :=
  Store (vertices s) (edgedata s) (edges s) x (out_edges s) (vcolors s)
        (nvertices s) (nedges s) (finalized s) (changeid s).
Definition set_out_edges (s : store) x : store :=
  Store (vertices s) (edgedata s) (edges s) (in_edges s) x (vcolors s)
        (nvertices s) (nedges s) (finalized s) (changeid s).
Definition set_vcolors (s : store) x : store :=
  Store (vertices s) (edgedata s) (edges s) (in_edges s) (out_edges s) x
        (nvertices s) (nedges s) (finalized s) (changeid s).
Definition set_finalized (s : store) x : store :=
  Store (vertices s) (edgedata s) (edges s) (in_edges s) (out_edges s)
        (vcolors s) (nvertices s) (nedges s) x (changeid s).

(** [graph_local_store()]: no storage, finalized, change id 0. *)
Definition new_store : store :=
  Store [] [] [] [] [] [] 0 0 true 0.

(** [allocate_graph_data]: two [malloc]ed blocks.  Their contents are
    indeterminate; [fresh_v i] and [fresh_e i] stand for whatever record
    [i] of each block holds. *)
Definition allocate_graph_data
    (fresh_v : nat -> vdata_store VertexData)
    (fresh_e : nat -> edata_store EdgeData) (s : store) : store :=
  set_edgedata
    (set_vertices s (fresh_v <$> seq 0 (N.to_nat (nvertices s))))
    (fresh_e <$> seq 0 (N.to_nat (nedges s))).

(** [create_store] *)
Definition create_store (create_num_verts create_num_edges : N)
    fresh_v fresh_e (s : store) : store :=
  allocate_graph_data fresh_v fresh_e
    (Store (vertices s) (edgedata s)
           (vec_resize create_num_edges edge_default (edges s))
           (vec_resize create_num_verts [] (in_edges s))
           (vec_resize create_num_verts [] (out_edges s))
           (vec_resize create_num_verts 0 (vcolors s))
           create_num_verts create_num_edges true 0).

(** [clear] *)
Definition clear (s : store) : store :=
  Store (vertices s) (edgedata s) [] [] [] [] (nvertices s) (nedges s)
        true ((changeid s + 1) mod UINT64_MOD).

Definition num_vertices (s : store) : N := nvertices s.
Definition num_edges (s : store) : N := nedges s.

(** [num_in_neighbors], [num_out_neighbors] *)
Definition num_in_neighbors (s : store) (v : N) : outcome N :=
  _ ← assert (v <? nvertices s);
  l ← vec_at (in_edges s) v;
  mret (vec_size l).

Definition num_out_neighbors (s : store) (v : N) : outcome N :=
  _ ← assert (v <? nvertices s);
  l ← vec_at (out_edges s) v;
  mret (vec_size l).

(** [source], [target] *)
Definition source (s : store) (edge_id : N) : outcome N :=
  _ ← assert (edge_id <? nedges s);
  e ← vec_at (edges s) edge_id;
  mret (_source e).

Definition target (s : store) (edge_id : N) : outcome N :=
  _ ← assert (edge_id <? nedges s);
  e ← vec_at (edges s) edge_id;
  mret (_target e).

(** [edge_id_less] *)
Definition edge_id_less (s : store) (a b : N) : outcome bool :=
  _ ← assert (a <? nedges s);
  _ ← assert (b <? nedges s);
  ea ← vec_at (edges s) a;
  eb ← vec_at (edges s) b;
  mret (edge_lt ea eb).

(** [std::sort(first, last, less_functor)], as an insertion sort: the
    result is the sorted arrangement, which is unique when no two
    elements are equivalent under the comparison. *)
Fixpoint sort_insert (s : store) (x : N) (sorted : list N)
    : outcome (list N) :=
  match sorted with
  | [] => mret [x]
  | y :: rest =>
      lt ← edge_id_less s x y;
      if lt : bool then mret (x :: y :: rest)
      else rest' ← sort_insert s x rest; mret (y :: rest')
  end.

Fixpoint sort_edge_ids (s : store) (l : list N) : outcome (list N) :=
  match l with
  | [] => mret []
  | x :: rest => rest' ← sort_edge_ids s rest; sort_insert s x rest'
  end.

Fixpoint sort_all (s : store) (ll : list (list N))
    : outcome (list (list N)) :=
  match ll with
  | [] => mret []
  | l :: rest =>
      l' ← sort_edge_ids s l;
      rest' ← sort_all s rest;
      mret (l' :: rest')
  end.

(** [finalize] *)
Definition finalize (s : store) : outcome store :=
  if finalized s then mret s
  else
    ins ← sort_all s (in_edges s);
    outs ← sort_all s (out_edges s);
    mret (set_finalized (set_out_edges (set_in_edges s ins) outs) true).

(** The loop of [binary_search]; [first] and [last] are its two
    variables.  Every iteration that does not return shrinks the
    interval, so one iteration per element of [vec] and one more are
    enough. *)
Fixpoint binary_search_loop (fuel : nat) (s : store) (vec : list N)
    (source target first last : N) : outcome N :=
  if first <=? last then
    match fuel with
    | O => OutOfFuel
    | S fuel' =>
        let mid := (first + last) / 2 in
        _ ← assert (mid <? vec_size vec);
        eid ← vec_at vec mid;
        e ← vec_at (edges s) eid;
        let mid_source := _source e in
        let mid_target := _target e in
        if (mid_source =? source) && (mid_target =? target) then mret mid
        else if first =? last then mret SIZE_MAX
        else if edge_lt (Edge source target) (Edge mid_source mid_target)
        then
          _ ← assert (0 <? mid);
          binary_search_loop fuel' s vec source target first (mid - 1)
        else
          binary_search_loop fuel' s vec source target (mid + 1) last
    end
  else mret SIZE_MAX.

(** [binary_search]: [last = vec.size() - 1] is computed in [size_t]. *)
Definition binary_search (s : store) (vec : list N) (source target : N)
    : outcome N :=
  _ ← assert (finalized s);
  let first := 0 in
  let last := (vec_size vec + SIZE_MAX) mod UINT64_MOD in
  binary_search_loop (S (length vec)) s vec source target first last.

(** The [foreach] loops of the linear branch of [find]. *)
Fixpoint linear_search (s : store) (vec : list N) (source target : N)
    : outcome (bool * N) :=
  match vec with
  | [] => mret (false, UINT32_MAX)
  | eid :: rest =>
      _ ← assert (eid <? nedges s);
      e ← vec_at (edges s) eid;
      if (_source e =? source) && (_target e =? target)
      then mret (true, eid)
      else linear_search s rest source target
  end.

(** [find] *)
Definition find (s : store) (source target : N) : outcome (bool * N) :=
  ins ← vec_at (in_edges s) target;
  if vec_size ins =? 0 then mret (false, UINT32_MAX)
  else
    outs ← vec_at (out_edges s) source;
    if vec_size outs =? 0 then mret (false, UINT32_MAX)
    else if finalized s then
      if vec_size ins <? vec_size outs then
        index ← binary_search s ins source target;
        if index <? vec_size ins
        then eid ← vec_at ins index; mret (true, eid)
        else mret (false, UINT32_MAX)
      else
        index ← binary_search s outs source target;
        if index <? vec_size outs
        then eid ← vec_at outs index; mret (true, eid)
        else mret (false, UINT32_MAX)
    else
      if vec_size ins <? vec_size outs
      then linear_search s ins source target
      else linear_search s outs source target.

(** [edge_id] *)
Definition edge_id (s : store) (source target : N) : outcome N :=
  res ← find s source target;
  _ ← assert (fst res);
  _ ← assert (snd res <? nedges s);
  mret (snd res).

(** [rev_edge_id] *)
Definition rev_edge_id (s : store) (eid : N) : outcome N :=
  _ ← assert (eid <? nedges s);
  e ← vec_at (edges s) eid;
  edge_id s (_target e) (_source e).

(** [add_edge] *)
Definition add_edge (s : store) (edge_id source target : N)
    : outcome store :=
  _ ← assert (negb ((nvertices s <=? source) || (nvertices s <=? target)));
  _ ← assert (negb (nedges s <=? edge_id));
  _ ← assert (negb (source =? target));
  edges' ← vec_put (edges s) edge_id (Edge source target);
  ins ← vec_at (in_edges s) target;
  in_edges' ← vec_put (in_edges s) target (ins ++ [edge_id]);
  outs ← vec_at (out_edges s) source;
  out_edges' ← vec_put (out_edges s) source (outs ++ [edge_id]);
  mret (set_finalized
          (set_out_edges (set_in_edges (set_edges s edges') in_edges')
                         out_edges')
          false).

(** [color(vertex)], as an rvalue and as the target of an assignment *)
Definition color (s : store) (vertex : N) : outcome N :=
  _ ← assert (vertex <? nvertices s);
  vec_at (vcolors s) vertex.

Definition set_color (s : store) (vertex c : N) : outcome store :=
  _ ← assert (vertex <? nvertices s);
  vcolors' ← vec_put (vcolors s) vertex c;
  mret (set_vcolors s vcolors').

(** [in_edge_ids], [out_edge_ids] *)
Definition in_edge_ids (s : store) (v : N) : outcome (list N) :=
  vec_at (in_edges s) v.
Definition out_edge_ids (s : store) (v : N) : outcome (list N) :=
  vec_at (out_edges s) v.

(** A [foreach] loop, or a [for] loop over a prepared range, threading
    the loop's state. *)
Fixpoint for_each {A S : Type} (l : list A) (body : S -> A -> outcome S)
    (st : S) : outcome S :=
  match l with
  | [] => mret st
  | x :: rest => st' ← body st x; for_each rest body st'
  end.

(** The values taken by [v] in
    [for(vertex_id_type v = 0; v < num_vertices(); ++v)].  The counter is
    32 bits wide: with more than [2^32] vertices it wraps before it
    reaches the bound and the loop does not end. *)
Definition vertex_range (s : store) : outcome (list N) :=
  if UINT32_MOD <? num_vertices s then OutOfFuel
  else mret (N.of_nat <$> seq 0 (N.to_nat (num_vertices s))).

(** [std::pair::operator<] on [(vertex_id_type, vertex_id_type)] *)
Definition pair_lt (a b : N * N) : bool :=
  (fst a <? fst b) || ((fst a =? fst b) && (snd a <? snd b)).

(** [std::sort(permutation.begin(), permutation.end())]; the second
    components are distinct, so the sorted arrangement is unique. *)
Fixpoint pair_insert (x : N * N) (sorted : list (N * N)) : list (N * N) :=
  match sorted with
  | [] => [x]
  | y :: rest =>
      if pair_lt x y then x :: y :: rest else y :: pair_insert x rest
  end.
Definition pair_sort (l : list (N * N)) : list (N * N) :=
  foldr pair_insert [] l.

(** [std::set<vertex_color_type>::insert]; the list is the set in
    iteration (ascending) order. *)
Fixpoint color_set_insert (c : N) (set : list N) : list N :=
  match set with
  | [] => [c]
  | d :: rest =>
      if c <? d then c :: d :: rest
      else if c =? d then d :: rest
      else d :: color_set_insert c rest
  end.

(** [-num_in_neighbors(v)] computed in [size_t] and stored in a
    [vertex_id_type]. *)
Definition neg_degree (n : N) : N :=
  ((UINT64_MOD - n mod UINT64_MOD) mod UINT64_MOD) mod UINT32_MOD.

(** "Get the neighbor colors" *)
Definition neighbor_colors_of (s : store) (ins : list N)
    : outcome (list N) :=
  for_each ins
    (fun set eid =>
       neighbor_vid ← source s eid;
       neighbor_color ← color s neighbor_vid;
       mret (color_set_insert neighbor_color set))
    [].

(** "Find the lowest free color": [vertex_color] is the running value of
    [color(vid)]; the loop stops at the first neighbour colour that
    differs from it.

    Modelled from the spec: [vertex_color_type] is declared in [graph.hpp],
    which is not among the sources; the spec's data model gives
    [color: uint32], so [vertex_color++] wraps at [2^32]. *)
Fixpoint lowest_free_color (vertex_color : N) (neighbor_colors : list N)
    : outcome N :=
  match neighbor_colors with
  | [] => mret vertex_color
  | neighbor_color :: rest =>
      if negb (vertex_color =? neighbor_color) then mret vertex_color
      else
        let vertex_color' := (vertex_color + 1) mod UINT32_MOD in
        _ ← assert (negb (vertex_color' =? 0));
        lowest_free_color vertex_color' rest
  end.

(** [compute_coloring]: the recoloured store and the number of colours *)
Definition compute_coloring (s : store) : outcome (store * N) :=
  vs ← vertex_range s;
  s ← for_each vs (fun s v => set_color s v 0) s;
  permutation ← for_each vs
    (fun perm v =>
       n ← num_in_neighbors s v;
       mret (perm ++ [(neg_degree n, v)]))
    [];
  let permutation := pair_sort permutation in
  '(s, max_color) ← for_each permutation
    (fun '(s, max_color) p =>
       let vid := snd p in
       ins ← in_edge_ids s vid;
       neighbor_colors ← neighbor_colors_of s ins;
       vertex_color ← color s vid;
       vertex_color ← lowest_free_color vertex_color neighbor_colors;
       s ← set_color s vid vertex_color;
       mret (s, N.max max_color vertex_color))
    (s, 0);
  mret (s, (max_color + 1) mod UINT64_MOD).

(** The inner loop of [valid_coloring]: [false] as soon as a neighbour
    has the vertex's colour. *)
Fixpoint no_neighbor_has_color (s : store) (vertex_color : N)
    (ins : list N) : outcome bool :=
  match ins with
  | [] => mret true
  | eid :: rest =>
      neighbor_vid ← source s eid;
      neighbor_color ← color s neighbor_vid;
      if vertex_color =? neighbor_color then mret false
      else no_neighbor_has_color s vertex_color rest
  end.

Fixpoint valid_coloring_loop (s : store) (vs : list N) : outcome bool :=
  match vs with
  | [] => mret true
  | vid :: rest =>
      vertex_color ← color s vid;
      ins ← in_edge_ids s vid;
      ok ← no_neighbor_has_color s vertex_color ins;
      if ok : bool then valid_coloring_loop s rest else mret false
  end.

(** [valid_coloring] *)
Definition valid_coloring (s : store) : outcome bool :=
  vs ← vertex_range s;
  valid_coloring_loop s vs.

(** [vertex_data(v)] as an rvalue and as the target of an assignment *)
Definition vertex_data (s : store) (v : N) : outcome VertexData :=
  _ ← assert (v <? nvertices s);
  r ← vec_at (vertices s) v;
  mret (vdata r).

Definition assign_vertex_data (s : store) (v : N) (d : VertexData)
    : outcome store :=
  _ ← assert (v <? nvertices s);
  r ← vec_at (vertices s) v;
  vertices' ← vec_put (vertices s) v
                (VData d (vmodified r) (vsnapshot_made r) (vversion r));
  mret (set_vertices s vertices').

(** [set_vertex_version]: the assignment to the bit-field keeps the low
    62 bits. *)
Definition set_vertex_version (s : store) (v version : N)
    : outcome store :=
  _ ← assert (v <? nvertices s);
  r ← vec_at (vertices s) v;
  vertices' ← vec_put (vertices s) v
                (VData (vdata r) (vmodified r) false
                       (version mod VERSION_MOD));
  mret (set_vertices s vertices').

(** [increment_vertex_version] *)
Definition increment_vertex_version (s : store) (v : N) : outcome store :=
  _ ← assert (v <? nvertices s);
  r ← vec_at (vertices s) v;
  vertices' ← vec_put (vertices s) v
                (VData (vdata r) (vmodified r) false
                       ((vversion r + 1) mod VERSION_MOD));
  mret (set_vertices s vertices').

(** [vertex_version] *)
Definition vertex_version (s : store) (v : N) : outcome N :=
  _ ← assert (v <? nvertices s);
  r ← vec_at (vertices s) v;
  mret (vversion r).

(** [set_vertex_modified], [vertex_modified] *)
Definition set_vertex_modified (s : store) (v : N) (modified : bool)
    : outcome store :=
  _ ← assert (v <? nvertices s);
  r ← vec_at (vertices s) v;
  vertices' ← vec_put (vertices s) v
                (VData (vdata r) modified (vsnapshot_made r) (vversion r));
  mret (set_vertices s vertices').

Definition vertex_modified (s : store) (v : N) : outcome bool :=
  _ ← assert (v <? nvertices s);
  r ← vec_at (vertices s) v;
  mret (vmodified r).

(** [edge_data(edge_id)] as an rvalue and as the target of an
    assignment *)
Definition edge_data (s : store) (edge_id : N) : outcome EdgeData :=
  _ ← assert (edge_id <? nedges s);
  r ← vec_at (edgedata s) edge_id;
  mret (edata r).

Definition assign_edge_data (s : store) (edge_id : N) (d : EdgeData)
    : outcome store :=
  _ ← assert (edge_id <? nedges s);
  r ← vec_at (edgedata s) edge_id;
  edgedata' ← vec_put (edgedata s) edge_id
                (EData d (emodified r) (esnapshot_made r) (eversion r));
  mret (set_edgedata s edgedata').

(** [edge_data(source, target)] *)
Definition edge_data_pair (s : store) (source target : N)
    : outcome EdgeData :=
  _ ← assert (source <? nvertices s);
  _ ← assert (target <? nvertices s);
  ans ← find s source target;
  _ ← assert (fst ans);
  _ ← assert (snd ans <? nedges s);
  r ← vec_at (edgedata s) (snd ans);
  mret (edata r).

Definition assign_edge_data_pair (s : store) (source target : N)
    (d : EdgeData) : outcome store :=
  _ ← assert (source <? nvertices s);
  _ ← assert (target <? nvertices s);
  ans ← find s source target;
  _ ← assert (fst ans);
  _ ← assert (snd ans <? nedges s);
  r ← vec_at (edgedata s) (snd ans);
  edgedata' ← vec_put (edgedata s) (snd ans)
                (EData d (emodified r) (esnapshot_made r) (eversion r));
  mret (set_edgedata s edgedata').

(** [set_edge_version] *)
Definition set_edge_version (s : store) (edge_id version : N)
    : outcome store :=
  _ ← assert (edge_id <? nedges s);
  r ← vec_at (edgedata s) edge_id;
  edgedata' ← vec_put (edgedata s) edge_id
                (EData (edata r) (emodified r) false
                       (version mod VERSION_MOD));
  mret (set_edgedata s edgedata').

(** [edge_version(edge_id)] *)
Definition edge_version (s : store) (edge_id : N) : outcome N :=
  _ ← assert (edge_id <? nedges s);
  r ← vec_at (edgedata s) edge_id;
  mret (eversion r).

(** [edge_modified] *)
Definition edge_modified (s : store) (edge_id : N) : outcome bool :=
  _ ← assert (edge_id <? nedges s);
  r ← vec_at (edgedata s) edge_id;
  mret (emodified r).

(** [increment_and_update_vertex] *)
Definition increment_and_update_vertex (s : store) (v : N)
    (d : VertexData) : outcome store :=
  _ ← assert (v <? nvertices s);
  r ← vec_at (vertices s) v;
  vertices' ← vec_put (vertices s) v
                (VData d (vmodified r) false
                       ((vversion r + 1) mod VERSION_MOD));
  mret (set_vertices s vertices').

(** [conditional_update_vertex]: the comparison is made with the [size_t]
    argument, the assignment to the bit-field keeps its low 62 bits. *)
Definition conditional_update_vertex (s : store) (v : N) (d : VertexData)
    (version : N) : outcome store :=
  _ ← assert (v <? nvertices s);
  r ← vec_at (vertices s) v;
  if vversion r <=? version then
    vertices' ← vec_put (vertices s) v
                  (VData d false false (version mod VERSION_MOD));
    mret (set_vertices s vertices')
  else mret s.

(** [set_vertex_snapshot_made], [vertex_snapshot_made] *)
Definition set_vertex_snapshot_made (s : store) (v : N)
    (snapshot_made : bool) : outcome store :=
  _ ← assert (v <? nvertices s);
  r ← vec_at (vertices s) v;
  vertices' ← vec_put (vertices s) v
                (VData (vdata r) (vmodified r) snapshot_made (vversion r));
  mret (set_vertices s vertices').

Definition vertex_snapshot_made (s : store) (v : N) : outcome bool :=
  _ ← assert (v <? nvertices s);
  r ← vec_at (vertices s) v;
  mret (vsnapshot_made r).

(** [locks[target(e)]]: the lock of the edge's target.  [create_store]
    resizes the vector of locks to one lock per vertex; the lock itself
    carries no state in a sequential run. *)
Definition target_lock (s : store) (e : N) : outcome unit :=
  t ← target s e;
  if t <? nvertices s then mret tt else Undefined.

(** [increment_and_update_edge] *)
Definition increment_and_update_edge (s : store) (e : N) (d : EdgeData)
    : outcome store :=
  _ ← assert (e <? nedges s);
  _ ← target_lock s e;
  r ← vec_at (edgedata s) e;
  edgedata' ← vec_put (edgedata s) e
                (EData d (emodified r) false
                       ((eversion r + 1) mod VERSION_MOD));
  mret (set_edgedata s edgedata').

(** [conditional_update_edge] *)
Definition conditional_update_edge (s : store) (e : N) (d : EdgeData)
    (version : N) : outcome store :=
  _ ← assert (e <? nedges s);
  _ ← target_lock s e;
  r ← vec_at (edgedata s) e;
  if eversion r <=? version then
    edgedata' ← vec_put (edgedata s) e
                  (EData d false false (version mod VERSION_MOD));
    mret (set_edgedata s edgedata')
  else mret s.

End store.
End LocalStore.


(** ** Archives: [graph_local_store::save] and [graph_local_store::load] *)

Module Archive.
Import LocalStore.

(** Modelled from the spec: the archive classes ([oarchive], [iarchive],
    their [<<] and [>>], [serialize] and [deserialize]) belong to the
    serialization library, which is not among the sources.  The spec
    describes the archive as [nvertices], [nedges], the edge structure
    vectors, the colouring, the finalized flag, then the raw vertex and edge
    record blocks.  Each [<<] writes one item, which the matching [>>] reads
    back unchanged; [serialize(arc, p, len)] writes the [len] bytes found at
    [p] and [deserialize(arc, p, len)] stores [len] bytes at [p]. *)
Inductive archive_item : Type :=
  | A_size (n : N)
  | A_edges (l : list edge)
  | A_adjacency (l : list (list N))
  | A_colors (l : list N)
  | A_bool (b : bool)
  | A_raw (bytes : list N).

Definition archive : Type := list archive_item.

(** A plain-old-data payload type: its size and its object
    representation. *)
Class POD (T : Type) : Type := {
  sizeof : N;
  to_bytes : T -> list N;
  of_bytes : list N -> T
}.

(** Little-endian bytes of a number, and back. *)
Definition le_bytes (n : nat) (x : N) : list N :=
  (fun i => (x / 256 ^ N.of_nat i) mod 256) <$> seq 0 n.
Definition le_value (bytes : list N) : N :=
  foldr (fun b acc => b + 256 * acc) 0 bytes.

(** A [uint64_t] payload and a [uint32_t] payload. *)
Definition uint64_pod : POD N :=
  {| sizeof := 8;
     to_bytes := le_bytes 8;
     of_bytes := fun bytes => le_value (take 8 bytes) |}.
Definition uint32_pod : POD N :=
  {| sizeof := 4;
     to_bytes := le_bytes 4;
     of_bytes := fun bytes => le_value (take 4 bytes) |}.

Section layout.
Context {T : Type} {pod : POD T}.

(** The layout of [struct { T data; bool modified:1; bool snapshot_made:1;
    uint64_t version:62; }] under the x86-64 System V ABI, for a payload
    aligned to at most 8 bytes.  The two flags are bits 0 and 1 of the byte
    that follows the payload.  The version must lie inside one aligned 8 byte
    unit: when [sizeof(T)] is a multiple of 8 it shares the flags' unit, as
    its bits 2 to 63; otherwise it is bits 0 to 61 of the next aligned unit.
    The record ends with that unit.  Padding is written as 0. *)
Definition padding : N := (8 - sizeof mod 8) mod 8.
Definition sizeof_record : N := sizeof + padding + 8.

Definition record_bytes (d : T) (modified snapshot_made : bool)
    (version : N) : list N :=
  let flags := N.b2n modified + 2 * N.b2n snapshot_made in
  if sizeof mod 8 =? 0 then
    to_bytes d ++ le_bytes 8 (flags + 4 * (version mod VERSION_MOD))
  else
    to_bytes d ++ [flags] ++ replicate (N.to_nat padding - 1) 0
      ++ le_bytes 8 (version mod VERSION_MOD).

Definition record_fields (bytes : list N) : T * bool * bool * N :=
  let d := of_bytes (take (N.to_nat sizeof) bytes) in
  let unit := le_value (take 8 (drop (N.to_nat (sizeof + padding)) bytes)) in
  if sizeof mod 8 =? 0 then (d, N.odd unit, N.odd (unit / 2), unit / 4)
  else
    let flags := nth (N.to_nat sizeof) bytes 0 in
    (d, N.odd flags, N.odd (flags / 2), unit mod VERSION_MOD).

(** Record [i] of a block of records. *)
Definition record_at (block : list N) (i : nat) : list N :=
  take (N.to_nat sizeof_record) (drop (i * N.to_nat sizeof_record) block).
End layout.
Arguments padding T {pod}.
Arguments sizeof_record T {pod}.
Arguments record_at T {pod} block i.

Section save_load.
Context {VertexData EdgeData : Type}.
Context {vpod : POD VertexData} {epod : POD EdgeData}.
Local Abbreviation store := (graph_local_store VertexData EdgeData).

(** The bytes of the blocks [vertices] and [edgedata] point to. *)
Definition vertices_block (s : store) : list N :=
  concat ((fun r => record_bytes (vdata r) (vmodified r)
                      (vsnapshot_made r) (vversion r)) <$> vertices s).
Definition edgedata_block (s : store) : list N :=
  concat ((fun r => record_bytes (edata r) (emodified r)
                      (esnapshot_made r) (eversion r)) <$> edgedata s).

Definition vertices_of_block (n : N) (block : list N)
    : list (vdata_store VertexData) :=
  (fun i => let '(d, m, sn, v) :=
              record_fields (record_at VertexData block i) in
            VData d m sn v) <$> seq 0 (N.to_nat n).
Definition edgedata_of_block (n : N) (block : list N)
    : list (edata_store EdgeData) :=
  (fun i => let '(d, m, sn, v) :=
              record_fields (record_at EdgeData block i) in
            EData d m sn v) <$> seq 0 (N.to_nat n).

(** [serialize(arc, p, len)]: the first [len] bytes of the block at [p] *)
Definition serialize (block : list N) (len : N) : archive_item :=
  A_raw (take (N.to_nat len) block).

(** [deserialize(arc, p, len)]: [len] bytes of the archive stored at the
    start of the block at [p]; the rest of the block keeps what it held.
    An item of another length fails the read. *)
Definition deserialize (item : archive_item) (block : list N) (len : N)
    : outcome (list N) :=
  match item with
  | A_raw bytes =>
      _ ← assert (vec_size bytes =? len);
      mret (bytes ++ drop (length bytes) block)
  | _ => Fatal
  end.

(** [save(oarchive&)] *)
Definition save (s : store) : archive :=
  [ A_size (nvertices s); A_size (nedges s); A_edges (edges s);
    A_adjacency (in_edges s); A_adjacency (out_edges s);
    A_colors (vcolors s); A_bool (finalized s);
    serialize (vertices_block s) (sizeof (T := VertexData) * nvertices s);
    serialize (edgedata_block s) (sizeof (T := EdgeData) * nedges s) ].

(** [load(iarchive&)]; [fresh_v] and [fresh_e] are the contents of the
    two blocks [allocate_graph_data] obtains. *)
Definition load (arc : archive) fresh_v fresh_e (s : store)
    : outcome store :=
  let s := clear s in
  match arc with
  | [ A_size nv; A_size ne; A_edges es; A_adjacency ins; A_adjacency outs;
      A_colors cs; A_bool fin; vitem; eitem ] =>
      let s := Store (vertices s) (edgedata s) es ins outs cs nv ne fin
                     (changeid s) in
      let s := allocate_graph_data fresh_v fresh_e s in
      vblock ← deserialize vitem (vertices_block s)
                 (sizeof (T := VertexData) * nvertices s);
      let s := set_vertices s (vertices_of_block (nvertices s) vblock) in
      eblock ← deserialize eitem (edgedata_block s)
                 (sizeof (T := EdgeData) * nedges s);
      mret (set_edgedata s (edgedata_of_block (nedges s) eblock))
  | _ => Fatal
  end.

(** [zero_all]: [memset] over the whole of both blocks. *)
Definition zero_all (s : store) : store :=
  set_edgedata
    (set_vertices s
       (vertices_of_block (nvertices s)
          (replicate (N.to_nat (sizeof_record VertexData * nvertices s))
                     0)))
    (edgedata_of_block (nedges s)
       (replicate (N.to_nat (sizeof_record EdgeData * nedges s)) 0)).
End save_load.
End Archive.

(** ** The distributed graph fragment ([distributed_graph.hpp]) *)

Module DistGraph.
Import LocalStore.

(** [conditional_store<std::pair<Data, uint64_t>>] *)
Record conditional_store (Data : Type) : Type := CondStore {
  hasdata : bool;
  data : Data * N
}.
Arguments CondStore {Data}.
Arguments hasdata {Data}.
Arguments data {Data}.

(** The data members of [distributed_graph] on one machine.
    [procid] is [rmi.procid()].

    Modelled from the spec: [caching_dht] is not among the sources; a
    directory is represented by the finite map of the entries its
    [get_cached] resolves, and [get_cached(id)] returns [(found, owner)]
    from it. *)
Record fragment (VertexData EdgeData : Type) : Type := Fragment {
  procid : N;
  localstore : graph_local_store VertexData EdgeData;
  global2localvid : gmap N N;
  local2globalvid : list N;
  global2localeid : gmap N N;
  local2globaleid : list N;
  globalvid2owner : gmap N N;
  globaleid2owner : gmap N N;
  edge_canonical_numbering : bool;
  localvid2owner : list N;
  numglobalverts : N;
  numglobaledges : N;
  pending_async_updates : N
}.
Arguments Fragment {VertexData EdgeData}.
Arguments procid {VertexData EdgeData}.
Arguments localstore {VertexData EdgeData}.
Arguments global2localvid {VertexData EdgeData}.
Arguments local2globalvid {VertexData EdgeData}.
Arguments global2localeid {VertexData EdgeData}.
Arguments local2globaleid {VertexData EdgeData}.
Arguments globalvid2owner {VertexData EdgeData}.
Arguments globaleid2owner {VertexData EdgeData}.
Arguments edge_canonical_numbering {VertexData EdgeData}.
Arguments localvid2owner {VertexData EdgeData}.
Arguments numglobalverts {VertexData EdgeData}.
Arguments numglobaledges {VertexData EdgeData}.
Arguments pending_async_updates {VertexData EdgeData}.

(** The member functions other machines are asked to run. *)
Inductive call (VertexData EdgeData : Type) : Type :=
  | call_num_in_neighbors (vid : N)
  | call_source (eid : N)
  | call_target (eid : N)
  | call_rev_edge_id (eid : N)
  | call_get_edge_data_from_eid (eid : N)
  | call_set_edge_data_from_eid (eid : N) (edata : EdgeData)
  | call_get_vertex_data (vid : N)
  | call_async_get_vertex_if_version_less_than
      (srcproc vid vertexversion : N)
      (vdata : conditional_store VertexData)
  | call_reply_vertex_data_and_version
      (vid : N) (vstore : conditional_store VertexData).
Arguments call_num_in_neighbors {VertexData EdgeData}.
Arguments call_source {VertexData EdgeData}.
Arguments call_target {VertexData EdgeData}.
Arguments call_rev_edge_id {VertexData EdgeData}.
Arguments call_get_edge_data_from_eid {VertexData EdgeData}.
Arguments call_set_edge_data_from_eid {VertexData EdgeData}.
Arguments call_get_vertex_data {VertexData EdgeData}.
Arguments call_async_get_vertex_if_version_less_than {VertexData EdgeData}.
Arguments call_reply_vertex_data_and_version {VertexData EdgeData}.

(** One use of the RPC layer: [remote_request] (blocking) or
    [remote_call] (one way). *)
Record rpc (VertexData EdgeData : Type) : Type := Rpc {
  rpc_from : N;
  rpc_to : N;
  rpc_oneway : bool;
  rpc_call : call VertexData EdgeData
}.
Arguments Rpc {VertexData EdgeData}.
Arguments rpc_from {VertexData EdgeData}.
Arguments rpc_to {VertexData EdgeData}.
Arguments rpc_oneway {VertexData EdgeData}.
Arguments rpc_call {VertexData EdgeData}.

Section fragment.
Context {VertexData EdgeData : Type}.
Context {vdefault : Inhabited VertexData} {edefault : Inhabited EdgeData}.
Local Abbreviation frag := (fragment VertexData EdgeData).
Local Abbreviation trace := (list (rpc VertexData EdgeData)).
(** The machines of the cluster, by [procid]. *)
Local Abbreviation cluster := (gmap N (fragment VertexData EdgeData)).

Definition set_localstore (f : frag) x : frag :=
  Fragment (procid f) x (global2localvid f) (local2globalvid f)
    (global2localeid f) (local2globaleid f) (globalvid2owner f)
    (globaleid2owner f) (edge_canonical_numbering f) (localvid2owner f)
    (numglobalverts f) (numglobaledges f) (pending_async_updates f).
Definition set_global2localvid (f : frag) x : frag :=
  Fragment (procid f) (localstore f) x (local2globalvid f)
    (global2localeid f) (local2globaleid f) (globalvid2owner f)
    (globaleid2owner f) (edge_canonical_numbering f) (localvid2owner f)
    (numglobalverts f) (numglobaledges f) (pending_async_updates f).
Definition set_global2localeid (f : frag) x : frag :=
  Fragment (procid f) (localstore f) (global2localvid f)
    (local2globalvid f) x (local2globaleid f) (globalvid2owner f)
    (globaleid2owner f) (edge_canonical_numbering f) (localvid2owner f)
    (numglobalverts f) (numglobaledges f) (pending_async_updates f).
Definition set_pending_async_updates (f : frag) x : frag :=
  Fragment (procid f) (localstore f) (global2localvid f)
    (local2globalvid f) (global2localeid f) (local2globaleid f)
    (globalvid2owner f) (globaleid2owner f) (edge_canonical_numbering f)
    (localvid2owner f) (numglobalverts f) (numglobaledges f) x.

(** [map[key]] on an [unordered_map]: a missing key is inserted with the
    value 0. *)
Definition map_index (m : gmap N N) (key : N) : N * gmap N N :=
  match m !! key with
  | Some v => (v, m)
  | None => (0, <[key := 0]> m)
  end.

(** [caching_dht::get_cached] *)
Definition get_cached (dht : gmap N N) (key : N) : bool * N :=
  match dht !! key with
  | Some owner => (true, owner)
  | None => (false, 0)
  end.

(** The machine an RPC is addressed to; a call to a machine that is not
    there is an RPC error, which is fatal. *)
Definition machine (cl : cluster) (p : N) : outcome frag :=
  match cl !! p with
  | Some f => Ok f
  | None => Fatal
  end.

(** [global_vid_in_local_fragment], [global_eid_in_local_fragment] *)
Definition global_vid_in_local_fragment (f : frag) (globalvid : N)
    : bool :=
  bool_decide (is_Some (global2localvid f !! globalvid)).
Definition global_eid_in_local_fragment (f : frag) (globaleid : N)
    : bool :=
  bool_decide (is_Some (global2localeid f !! globaleid)).

(** [is_ghost] *)
Definition is_ghost (f : frag) (vid : N) : outcome bool :=
  owner ← vec_at (localvid2owner f) (fst (map_index (global2localvid f) vid));
  mret (negb (owner =? procid f)).

(** [vertex_data(vid) const] *)
Definition vertex_data (f : frag) (vid : N) : outcome VertexData :=
  _ ← assert (global_vid_in_local_fragment f vid);
  match global2localvid f !! vid with
  | Some localvid => LocalStore.vertex_data (localstore f) localvid
  | None => Undefined
  end.

(** [edge_data(eid) const] *)
Definition edge_data (f : frag) (eid : N) : outcome EdgeData :=
  _ ← assert (global_eid_in_local_fragment f eid);
  match global2localeid f !! eid with
  | Some localeid => LocalStore.edge_data (localstore f) localeid
  | None => Undefined
  end.

(** [edge_data(eid) = edata] through the non-const [edge_data(eid)] *)
Definition assign_edge_data (f : frag) (eid : N) (d : EdgeData)
    : outcome frag :=
  _ ← assert (global_eid_in_local_fragment f eid);
  let '(localeid, m) := map_index (global2localeid f) eid in
  s ← LocalStore.assign_edge_data (localstore f) localeid d;
  mret (set_localstore (set_global2localeid f m) s).

(** [get_vertex_data].  [fuel] bounds the number of machines a request
    is passed through. *)
Fixpoint get_vertex_data (fuel : nat) (cl : cluster) (me vid : N)
    : outcome (VertexData * trace) :=
  f ← machine cl me;
  if global_vid_in_local_fragment f vid then
    d ← vertex_data f vid; mret (d, [])
  else
    let vidowner := get_cached (globalvid2owner f) vid in
    _ ← assert (fst vidowner);
    match fuel with
    | O => OutOfFuel
    | S fuel' =>
        '(d, tr) ← get_vertex_data fuel' cl (snd vidowner) vid;
        mret (d, Rpc me (snd vidowner) false (call_get_vertex_data vid)
                   :: tr)
    end.

(** [num_in_neighbors] *)
Fixpoint num_in_neighbors (fuel : nat) (cl : cluster) (me vid : N)
    : outcome (N * trace) :=
  f ← machine cl me;
  let remote :=
    let vidowner := get_cached (globalvid2owner f) vid in
    _ ← assert (fst vidowner);
    match fuel with
    | O => OutOfFuel
    | S fuel' =>
        '(n, tr) ← num_in_neighbors fuel' cl (snd vidowner) vid;
        mret (n, Rpc me (snd vidowner) false (call_num_in_neighbors vid)
                   :: tr)
    end in
  match global2localvid f !! vid with
  | Some localvid =>
      owner ← vec_at (localvid2owner f) localvid;
      if owner =? procid f then
        n ← LocalStore.num_in_neighbors (localstore f) localvid;
        mret (n, [])
      else remote
  | None => remote
  end.

(** [source] *)
Fixpoint source (fuel : nat) (cl : cluster) (me eid : N)
    : outcome (N * trace) :=
  f ← machine cl me;
  match global2localeid f !! eid with
  | Some localeid =>
      v ← LocalStore.source (localstore f) localeid;
      g ← vec_at (local2globalvid f) v;
      mret (g, [])
  | None =>
      _ ← assert (negb (edge_canonical_numbering f));
      let eidowner := get_cached (globaleid2owner f) eid in
      _ ← assert (fst eidowner);
      match fuel with
      | O => OutOfFuel
      | S fuel' =>
          '(g, tr) ← source fuel' cl (snd eidowner) eid;
          mret (g, Rpc me (snd eidowner) false (call_source eid) :: tr)
      end
  end.

(** [target] *)
Fixpoint target (fuel : nat) (cl : cluster) (me eid : N)
    : outcome (N * trace) :=
  f ← machine cl me;
  match global2localeid f !! eid with
  | Some localeid =>
      v ← LocalStore.target (localstore f) localeid;
      g ← vec_at (local2globalvid f) v;
      mret (g, [])
  | None =>
      _ ← assert (negb (edge_canonical_numbering f));
      let eidowner := get_cached (globaleid2owner f) eid in
      _ ← assert (fst eidowner);
      match fuel with
      | O => OutOfFuel
      | S fuel' =>
          '(g, tr) ← target fuel' cl (snd eidowner) eid;
          mret (g, Rpc me (snd eidowner) false (call_target eid) :: tr)
      end
  end.

(** [rev_edge_id] *)
Fixpoint rev_edge_id (fuel : nat) (cl : cluster) (me eid : N)
    : outcome (N * trace) :=
  f ← machine cl me;
  match global2localeid f !! eid with
  | Some localeid =>
      r ← LocalStore.rev_edge_id (localstore f) localeid;
      g ← vec_at (local2globaleid f) r;
      mret (g, [])
  | None =>
      _ ← assert (negb (edge_canonical_numbering f));
      let eidowner := get_cached (globaleid2owner f) eid in
      _ ← assert (fst eidowner);
      match fuel with
      | O => OutOfFuel
      | S fuel' =>
          '(g, tr) ← rev_edge_id fuel' cl (snd eidowner) eid;
          mret (g, Rpc me (snd eidowner) false (call_rev_edge_id eid)
                     :: tr)
      end
  end.

(** [get_edge_data_from_eid] *)
Fixpoint get_edge_data_from_eid (fuel : nat) (cl : cluster) (me eid : N)
    : outcome (EdgeData * trace) :=
  f ← machine cl me;
  if global_eid_in_local_fragment f eid then
    d ← edge_data f eid; mret (d, [])
  else
    _ ← assert (negb (edge_canonical_numbering f));
    let eidowner := get_cached (globaleid2owner f) eid in
    _ ← assert (fst eidowner);
    match fuel with
    | O => OutOfFuel
    | S fuel' =>
        '(d, tr) ← get_edge_data_from_eid fuel' cl (snd eidowner) eid;
        mret (d, Rpc me (snd eidowner) false
                   (call_get_edge_data_from_eid eid) :: tr)
    end.

(** [set_edge_data_from_eid].  The owner runs the same member function;
    with [async] the call is one way, otherwise the caller waits for it. *)
Fixpoint set_edge_data_from_eid (fuel : nat) (cl : cluster) (me eid : N)
    (edata : EdgeData) (async : bool) : outcome (cluster * trace) :=
  f ← machine cl me;
  let remote :=
    _ ← assert (negb (edge_canonical_numbering f));
    let eidowner := get_cached (globaleid2owner f) eid in
    _ ← assert (fst eidowner);
    match fuel with
    | O => OutOfFuel
    | S fuel' =>
        '(cl', tr) ← set_edge_data_from_eid fuel' cl (snd eidowner) eid
                       edata async;
        mret (cl', Rpc me (snd eidowner) async
                     (call_set_edge_data_from_eid eid edata) :: tr)
    end in
  match global2localeid f !! eid with
  | Some localeid =>
      t ← LocalStore.target (localstore f) localeid;
      owner ← vec_at (localvid2owner f) t;
      if owner =? procid f then
        f' ← assign_edge_data f eid edata;
        mret (<[me := f']> cl, [])
      else remote
  | None => remote
  end.

(** The value of a default-constructed [conditional_store] whose
    [hasdata] has been set to [false]. *)
Definition no_data {Data} `{Inhabited Data} : conditional_store Data :=
  CondStore false (inhabitant, 0).

(** [get_vertex_if_version_less_than], run on [f] *)
Definition get_vertex_if_version_less_than (f : frag)
    (vid vertexversion : N) (vdata : conditional_store VertexData)
    : outcome (conditional_store VertexData * frag) :=
  let '(localvid, m) := map_index (global2localvid f) vid in
  let f := set_global2localvid f m in
  local_vertex_version ← LocalStore.vertex_version (localstore f) localvid;
  if vertexversion <? local_vertex_version then
    d ← LocalStore.vertex_data (localstore f) localvid;
    mret (CondStore true (d, local_vertex_version), f)
  else if local_vertex_version <? vertexversion then
    _ ← assert (hasdata vdata);
    s ← LocalStore.assign_vertex_data (localstore f) localvid
          (fst (data vdata));
    s ← LocalStore.set_vertex_version s localvid vertexversion;
    mret (no_data, set_localstore f s)
  else mret (no_data, f).

(** [get_edge_if_version_less_than], run on [f] *)
Definition get_edge_if_version_less_than (f : frag)
    (eid edgeversion : N) (edata : conditional_store EdgeData)
    : outcome (conditional_store EdgeData * frag) :=
  let '(localeid, m) := map_index (global2localeid f) eid in
  let f := set_global2localeid f m in
  local_edge_version ← LocalStore.edge_version (localstore f) localeid;
  if edgeversion <? local_edge_version then
    d ← LocalStore.edge_data (localstore f) localeid;
    mret (CondStore true (d, local_edge_version), f)
  else if local_edge_version <? edgeversion then
    _ ← assert (hasdata edata);
    s ← LocalStore.assign_edge_data (localstore f) localeid
          (fst (data edata));
    s ← LocalStore.set_edge_version s localeid edgeversion;
    mret (no_data, set_localstore f s)
  else mret (no_data, f).

(** [get_edge_if_version_less_than2], run on [f] *)
Definition get_edge_if_version_less_than2 (f : frag)
    (source target edgeversion : N) (edata : conditional_store EdgeData)
    : outcome (conditional_store EdgeData * frag) :=
  let '(localsource, m) := map_index (global2localvid f) source in
  let '(localtarget, m) := map_index m target in
  let f := set_global2localvid f m in
  findret ← LocalStore.find (localstore f) localsource localtarget;
  _ ← assert (fst findret);
  let localeid := snd findret in
  local_edge_version ← LocalStore.edge_version (localstore f) localeid;
  if edgeversion <? local_edge_version then
    d ← LocalStore.edge_data (localstore f) localeid;
    mret (CondStore true (d, local_edge_version), f)
  else if local_edge_version <? edgeversion then
    _ ← assert (hasdata edata);
    s ← LocalStore.assign_edge_data (localstore f) localeid
          (fst (data edata));
    s ← LocalStore.set_edge_version s localeid edgeversion;
    mret (no_data, set_localstore f s)
  else mret (no_data, f).

(** The cluster together with the one-way calls that have been issued
    and not yet run, oldest first. *)
Record world : Type := World {
  machines : cluster;
  network : trace
}.

(** [localstore.vertex_version(localvid) = version], as the merge code
    writes it: the version field is stored, the flags are kept. *)
Definition assign_vertex_version
    (s : graph_local_store VertexData EdgeData) (v version : N)
    : outcome (graph_local_store VertexData EdgeData) :=
  _ ← assert (v <? nvertices s);
  r ← vec_at (vertices s) v;
  vertices' ← vec_put (vertices s) v
                (VData (vdata r) (vmodified r) (vsnapshot_made r)
                       (version mod VERSION_MOD));
  mret (set_vertices s vertices').

(** [update_vertex_data_and_version] *)
Definition update_vertex_data_and_version (f : frag) (vid : N)
    (vstore : conditional_store VertexData) : outcome frag :=
  if hasdata vstore then
    let '(localvid, m) := map_index (global2localvid f) vid in
    let f := set_global2localvid f m in
    s ← LocalStore.assign_vertex_data (localstore f) localvid
          (fst (data vstore));
    s ← assign_vertex_version s localvid (snd (data vstore));
    mret (set_localstore f s)
  else mret f.

(** [atomic<size_t>::dec] *)
Definition atomic_dec (x : N) : N := (x + SIZE_MAX) mod UINT64_MOD.

(** [reply_vertex_data_and_version] *)
Definition reply_vertex_data_and_version (f : frag) (vid : N)
    (vstore : conditional_store VertexData) : outcome frag :=
  f ← update_vertex_data_and_version f vid vstore;
  mret (set_pending_async_updates f
          (atomic_dec (pending_async_updates f))).

(** [synchronize_vertex].  With [async = false] the owner runs
    [get_vertex_if_version_less_than] and the answer is merged; with
    [async = true] the one-way call to
    [async_get_vertex_if_version_less_than] is issued and nothing is
    merged by this function. *)
Definition synchronize_vertex (w : world) (me vid : N) (async : bool)
    : outcome world :=
  f ← machine (machines w) me;
  let '(localvid, m) := map_index (global2localvid f) vid in
  let f := set_global2localvid f m in
  ghost ← is_ghost f vid;
  if ghost : bool then
    out_hasdata ← LocalStore.vertex_modified (localstore f) localvid;
    out_data ← (if out_hasdata : bool
                then LocalStore.vertex_data (localstore f) localvid
                else mret inhabitant);
    let out := CondStore out_hasdata (out_data, 0) in
    owner ← vec_at (localvid2owner f) localvid;
    version ← LocalStore.vertex_version (localstore f) localvid;
    if async then
      mret (World (<[me := f]> (machines w))
              (network w ++
                 [Rpc me owner true
                    (call_async_get_vertex_if_version_less_than
                       me vid version out)]))
    else
      let cl := <[me := f]> (machines w) in
      fo ← machine cl owner;
      '(v, fo) ← get_vertex_if_version_less_than fo vid version out;
      let cl := <[owner := fo]> cl in
      f ← machine cl me;
      f ← update_vertex_data_and_version f vid v;
      mret (World (<[me := f]> cl) (network w))
  else mret (World (<[me := f]> (machines w)) (network w)).

(** The RPC layer runs the oldest one-way call of the synchronisation
    protocol on the machine it is addressed to.
    [async_get_vertex_if_version_less_than] answers with a one-way call
    to [reply_vertex_data_and_version] on [srcproc]. *)
Definition deliver (w : world) : outcome world :=
  match network w with
  | [] => mret w
  | r :: rest =>
      f ← machine (machines w) (rpc_to r);
      match rpc_call r with
      | call_async_get_vertex_if_version_less_than srcproc vid
          vertexversion vdata =>
          '(ret, f) ← get_vertex_if_version_less_than f vid
                        vertexversion vdata;
          mret (World (<[rpc_to r := f]> (machines w))
                  (rest ++ [Rpc (rpc_to r) srcproc true
                              (call_reply_vertex_data_and_version
                                 vid ret)]))
      | call_reply_vertex_data_and_version vid vstore =>
          f ← reply_vertex_data_and_version f vid vstore;
          mret (World (<[rpc_to r := f]> (machines w)) rest)
      | _ => Fatal
      end
  end.

(** [wait_for_all_async_syncs], when no other thread runs meanwhile: it
    returns when the counter is 0 and spins for ever otherwise. *)
Definition wait_for_all_async_syncs (f : frag) : outcome unit :=
  if pending_async_updates f =? 0 then mret tt else OutOfFuel.
End fragment.
Arguments world : clear implicits.
Arguments World {VertexData EdgeData}.
Arguments machines {VertexData EdgeData}.
Arguments network {VertexData EdgeData}.

(** *** The id maps built by [construct_local_fragment] *)

(** [std::sort] on a vector of ids, as an insertion sort; the sorted
    arrangement of numbers is unique. *)
Fixpoint id_insert (x : N) (sorted : list N) : list N :=
  match sorted with
  | [] => [x]
  | y :: rest => if x <? y then x :: y :: rest else y :: id_insert x rest
  end.
Definition id_sort (l : list N) : list N := foldr id_insert [] l.

(** [std::unique] followed by the [resize] to the iterator it returns:
    every element equal to the one kept before it is dropped. *)
Fixpoint unique_after (prev : N) (l : list N) : list N :=
  match l with
  | [] => []
  | x :: rest =>
      if x =? prev then unique_after prev rest
      else x :: unique_after x rest
  end.
Definition unique (l : list N) : list N :=
  match l with
  | [] => []
  | x :: rest => x :: unique_after x rest
  end.

(** [for (size_t i = 0; i < local2global.size(); ++i)
       global2local[local2global[i]] = i;]
    from the value [i] of the counter on; the map's values are 32 bit
    ids. *)
Fixpoint index_ids (global2local : gmap N N) (i : N) (local2global : list N)
    : gmap N N :=
  match local2global with
  | [] => global2local
  | g :: rest =>
      index_ids (<[g := i mod UINT32_MOD]> global2local) (i + 1) rest
  end.

(** The part of [construct_local_fragment] that merges the vertex ids of
    the atoms ("construct the global/local vid mappings by merging the
    mappings in each atom"): [globalvids] holds the [globalvids()] vector
    of each atom file of the partition, in order. *)
Definition construct_vid_maps {VertexData EdgeData : Type}
    (f : fragment VertexData EdgeData) (globalvids : list (list N))
    : fragment VertexData EdgeData :=
  let l2g := unique (id_sort (local2globalvid f ++ concat globalvids)) in
  Fragment (procid f) (localstore f)
    (index_ids (global2localvid f) 0 l2g) l2g
    (global2localeid f) (local2globaleid f)
    (globalvid2owner f) (globaleid2owner f) (edge_canonical_numbering f)
    (vec_resize (vec_size l2g) 0 (localvid2owner f))
    (numglobalverts f) (numglobaledges f) (pending_async_updates f).

(** The same for the edge ids ("repeat for edges if globaleids are
    available"). *)
Definition construct_eid_maps {VertexData EdgeData : Type}
    (f : fragment VertexData EdgeData) (globaleids : list (list N))
    : fragment VertexData EdgeData :=
  if edge_canonical_numbering f then f
  else
    let l2g := unique (id_sort (local2globaleid f ++ concat globaleids)) in
    Fragment (procid f) (localstore f)
      (global2localvid f) (local2globalvid f)
      (index_ids (global2localeid f) 0 l2g) l2g
      (globalvid2owner f) (globaleid2owner f) (edge_canonical_numbering f)
      (localvid2owner f)
      (numglobalverts f) (numglobaledges f) (pending_async_updates f).

(** The [canonical_numbering] map: an edge [(src, dest)] that is not in the
    map yet gets the map's size as its id. *)
Definition number_edge (numbering : gmap (N * N) N) (e : N * N)
    : gmap (N * N) N :=
  match numbering !! e with
  | Some _ => numbering
  | None => <[e := N.of_nat (size numbering) mod UINT32_MOD]> numbering
  end.

(** [edge_src_dest] holds the [edge_src_dest()] vector of each atom file,
    in order. *)
Definition canonical_numbering (edge_src_dest : list (list (N * N)))
    : gmap (N * N) N :=
  foldl number_edge ∅ (concat edge_src_dest).

(** *** Edge lookup across machines *)

(** [find(source, target)]; the second component is the list of the
    machines the request is passed to, in order.  [fuel] bounds the number
    of machines a request is passed through. *)
Fixpoint find {VertexData EdgeData : Type} (fuel : nat)
    (cl : gmap N (fragment VertexData EdgeData)) (me source target : N)
    : outcome ((bool * N) * list N) :=
  f ← machine cl me;
  let remote : outcome ((bool * N) * list N) :=
    let vidowner := get_cached (globalvid2owner f) target in
    _ ← assert (fst vidowner);
    let targetowner := snd vidowner in
    if targetowner =? procid f then mret ((false, 0), [])
    else
      match fuel with
      | O => OutOfFuel
      | S fuel' =>
          '(ret, tr) ← find fuel' cl targetowner source target;
          mret (ret, targetowner :: tr)
      end in
  match global2localvid f !! source, global2localvid f !! target with
  | Some localsource, Some localtarget =>
      ret ← LocalStore.find (localstore f) localsource localtarget;
      if fst ret : bool then
        g ← vec_at (local2globaleid f) (snd ret);
        mret ((true, g), [])
      else mret (ret, [])
  | _, _ => remote
  end.

(** [edge_id(source, target)], the "unsafe version of find" *)
Definition edge_id {VertexData EdgeData : Type} (fuel : nat)
    (cl : gmap N (fragment VertexData EdgeData)) (me source target : N)
    : outcome (N * list N) :=
  '(res, tr) ← find fuel cl me source target;
  _ ← assert (fst res);
  mret (snd res, tr).

(** [in_edge_id_as_vec(v)]: the global ids of the edges arriving at [v];
    the second component is the list of the machines the request is passed
    to, in order. *)
Fixpoint in_edge_id_as_vec {VertexData EdgeData : Type} (fuel : nat)
    (cl : gmap N (fragment VertexData EdgeData)) (me v : N)
    : outcome (list N * list N) :=
  f ← machine cl me;
  let remote : outcome (list N * list N) :=
    let vidowner := get_cached (globalvid2owner f) v in
    _ ← assert (fst vidowner);
    match fuel with
    | O => OutOfFuel
    | S fuel' =>
        '(ret, tr) ← in_edge_id_as_vec fuel' cl (snd vidowner) v;
        mret (ret, snd vidowner :: tr)
    end in
  match global2localvid f !! v with
  | Some localvid =>
      owner ← vec_at (localvid2owner f) localvid;
      if owner =? procid f then
        ins ← LocalStore.in_edge_ids (localstore f) localvid;
        ret ← for_each ins
                (fun ret localeid =>
                   g ← vec_at (local2globaleid f) localeid;
                   mret (ret ++ [g]))
                [];
        mret (ret, [])
      else remote
  | None => remote
  end.

End DistGraph.

(** ** Message combiners ([messages.hpp]) *)

Module Messages.

(** [struct sum] *)
Record sum : Type := Sum { sum_prio : float }.
(** [struct max] *)
Record max : Type := Max { max_prio : float }.

(** [priority()] *)
Definition sum_priority (m : sum) : float := sum_prio m.
Definition max_priority (m : max) : float := max_prio m.

(** [sum::operator+=(const sum& other)] *)
Definition sum_plus_assign (m other : sum) : sum :=
  Sum (sum_prio m + sum_prio other)%float.

(** [std::max(a, b)]: [(a < b) ? b : a] *)
Definition std_max (a b : float) : float :=
  if PrimFloat.ltb a b then b else a.

(** [max::operator+=(const sum& other)]: the right operand is a [sum]. *)
Definition max_plus_assign (m : max) (other : sum) : max :=
  Max (std_max (max_prio m) (sum_prio other)).

End Messages.

(** ** The queued FIFO scheduler ([queued_fifo_scheduler]) *)

Module Scheduler.

(** [sched_status::status_enum], with the two output parameters of
    [get_next] carried by [NEW_TASK]. *)
Inductive sched_status (Message : Type) : Type :=
  | NEW_TASK (ret_vid : N) (ret_msg : Message)
  | EMPTY.
Arguments NEW_TASK {Message}.
Arguments EMPTY {Message}.

(** The data members of [queued_fifo_scheduler].

    Modelled from the spec: [vertex_map] and [critical_termination] are not
    among the sources.  The message map is the finite map from a scheduled
    vertex to its combined message; the terminator is represented by the
    list of the [new_job(cpuid)] notifications it has received. *)
Record queued_fifo_scheduler (Message : Type) : Type := Sched {
  messages : gmap N Message;
  master_queue : list (list N);
  sub_queue_size : N;
  in_queues : list (list N);
  out_queues : list (list N);
  term : list N
}.
Arguments Sched {Message}.
Arguments messages {Message}.
Arguments master_queue {Message}.
Arguments sub_queue_size {Message}.
Arguments in_queues {Message}.
Arguments out_queues {Message}.
Arguments term {Message}.

Section scheduler.
Context {Message : Type}.
(** The message type's [operator+=]. *)
Context (plus_assign : Message -> Message -> Message).
Local Abbreviation sched := (queued_fifo_scheduler Message).

(** [queued_fifo_scheduler(num_vertices, ncpus, opts)]; [queuesize] is
    the value of the option of that name, if it is given. *)
Definition new_scheduler (ncpus : N) (queuesize : option N) : sched :=
  Sched ∅ [] (default 100 queuesize)
        (replicate (N.to_nat ncpus) []) (replicate (N.to_nat ncpus) []) [].

(** Modelled from the spec: [vertex_map::add] combines the message into
    the vertex's slot and returns [true] iff the vertex was not already
    scheduled. *)
Definition vertex_map_add (m : gmap N Message) (vid : N) (msg : Message)
    : bool * gmap N Message :=
  match m !! vid with
  | Some old => (false, <[vid := plus_assign old msg]> m)
  | None => (true, <[vid := msg]> m)
  end.

(** Modelled from the spec: [vertex_map::test_and_get] takes the
    vertex's message out of the map if there is one. *)
Definition vertex_map_test_and_get (m : gmap N Message) (vid : N)
    : option Message * gmap N Message :=
  match m !! vid with
  | Some msg => (Some msg, delete vid m)
  | None => (None, m)
  end.

(** [start] *)
Definition start (s : sched) : sched :=
  Sched (messages s) (master_queue s ++ in_queues s) (sub_queue_size s)
        (replicate (length (in_queues s)) []) (out_queues s) [].

(** The body shared by the [schedule] functions once the worker
    [cpuid] is chosen. *)
Definition push_in_queue (s : sched) (cpuid vid : N) : outcome sched :=
  queue ← vec_at (in_queues s) cpuid;
  let queue := queue ++ [vid] in
  if sub_queue_size s <? vec_size queue then
    in_queues' ← vec_put (in_queues s) cpuid [];
    mret (Sched (messages s) (master_queue s ++ [queue])
            (sub_queue_size s) in_queues' (out_queues s)
            (term s ++ [cpuid]))
  else
    in_queues' ← vec_put (in_queues s) cpuid queue;
    mret (Sched (messages s) (master_queue s) (sub_queue_size s)
            in_queues' (out_queues s) (term s ++ [cpuid])).

(** [schedule(vid, msg)]; [rand] is the value [random::rand()]
    returns. *)
Definition schedule (rand : N) (s : sched) (vid : N) (msg : Message)
    : outcome sched :=
  let '(added, messages') := vertex_map_add (messages s) vid msg in
  let s := Sched messages' (master_queue s) (sub_queue_size s)
                 (in_queues s) (out_queues s) (term s) in
  if added then
    if vec_size (in_queues s) =? 0 then Undefined
    else push_in_queue s (rand mod vec_size (in_queues s)) vid
  else mret s.

(** [schedule_from_execution_thread(cpuid, vid, msg)] *)
Definition schedule_from_execution_thread (s : sched) (cpuid vid : N)
    (msg : Message) : outcome sched :=
  let '(added, messages') := vertex_map_add (messages s) vid msg in
  let s := Sched messages' (master_queue s) (sub_queue_size s)
                 (in_queues s) (out_queues s) (term s) in
  if added then
    _ ← assert (cpuid <? vec_size (in_queues s));
    push_in_queue s cpuid vid
  else mret s.

(** [get_next(cpuid, ret_vid, ret_msg)]; one unit of fuel per iteration
    of its [while(1)]. *)
Fixpoint get_next (fuel : nat) (s : sched) (cpuid : N)
    : outcome (sched_status Message * sched) :=
  match fuel with
  | O => OutOfFuel
  | S fuel' =>
      out ← vec_at (out_queues s) cpuid;
      (* the local queue is empty: take a queue from the master *)
      '(out, master) ←
        (match out, master_queue s with
         | [], front :: master' => mret (front, master')
         | _, _ => mret (out, master_queue s)
         end);
      (* still empty: see if there is any local work left *)
      inq ← vec_at (in_queues s) cpuid;
      '(out, inq) ←
        (match out, inq with
         | [], _ :: _ => mret (inq, [])
         | _, _ => mret (out, inq)
         end);
      in_queues' ← vec_put (in_queues s) cpuid inq;
      match out with
      | ret_vid :: queue =>
          out_queues' ← vec_put (out_queues s) cpuid queue;
          let '(got, messages') :=
            vertex_map_test_and_get (messages s) ret_vid in
          let s' := Sched messages' master (sub_queue_size s)
                          in_queues' out_queues' (term s) in
          match got with
          | Some ret_msg => mret (NEW_TASK ret_vid ret_msg, s')
          | None => get_next fuel' s' cpuid
          end
      | [] =>
          out_queues' ← vec_put (out_queues s) cpuid [];
          mret (EMPTY,
                Sched (messages s) master (sub_queue_size s)
                      in_queues' out_queues' (term s))
      end
  end.
End scheduler.
End Scheduler.

(** ** Concrete stores, clusters and schedulers used below *)

Module Inputs.
Import LocalStore.

(** The vectors of a store have the sizes [create_store] gave them. *)
Definition well_sized {VertexData EdgeData : Type}
    (s : graph_local_store VertexData EdgeData) : Prop :=
  vec_size (edges s) = nedges s
  /\ vec_size (in_edges s) = nvertices s
  /\ vec_size (out_edges s) = nvertices s.

(** Blocks of zeroed records, for stores without payload. *)
Definition zero_v : nat -> vdata_store unit :=
  fun _ => VData tt false false 0.
Definition zero_e : nat -> edata_store unit :=
  fun _ => EData tt false false 0.

(** [create_store(3, 2, ...)] on a new store. *)
Definition store_3_2 : graph_local_store unit unit :=
  create_store 3 2 zero_v zero_e new_store.

(** The path [0 -> 2 -> 1]:
    [create_store(3, 2); add_edge(0, 2, 1); add_edge(1, 0, 2)]. *)
Definition path_store : outcome (graph_local_store unit unit) :=
  s ← add_edge store_3_2 0 2 1;
  add_edge s 1 0 2.

(** Four vertices and the edges [1 -> 2], [1 -> 3], [2 -> 0], [3 -> 0]:
    [create_store(4, 4); add_edge(0, 1, 2); add_edge(1, 1, 3);
     add_edge(2, 2, 0); add_edge(3, 3, 0)]. *)
Definition fan_store : outcome (graph_local_store unit unit) :=
  s ← add_edge (create_store 4 4 zero_v zero_e new_store) 0 1 2;
  s ← add_edge s 1 1 3;
  s ← add_edge s 2 2 0;
  add_edge s 3 3 0.

(** The same store after [finalize()]. *)
Definition fan_store_finalized : outcome (graph_local_store unit unit) :=
  s ← fan_store;
  finalize s.

(** A finalized store with [uint64_t] payloads: two vertices, one edge
    [0 -> 1], every record with a version and flags of its own. *)
Definition saved_store : graph_local_store N N :=
  Store [VData 7 true true 5; VData 9 false false 3]
        [EData 11 true false 2]
        [Edge 0 1] [[]; [0]] [[0]; []] [0; 1] 2 1 true 0.

(** The same store with another record for vertex 1 and other flags and
    another version on the edge. *)
Definition saved_store' : graph_local_store N N :=
  Store [VData 7 true true 5; VData 10 true true 4]
        [EData 11 false true 8]
        [Edge 0 1] [[]; [0]] [[0]; []] [0; 1] 2 1 true 0.

(** Zero-filled blocks for [allocate_graph_data]. *)
Definition zero_vN : nat -> vdata_store N := fun _ => VData 0 false false 0.
Definition zero_eN : nat -> edata_store N := fun _ => EData 0 false false 0.

(** Two machines.  Machine 0 owns vertex 7 and holds a ghost of vertex 42;
    machine 1 owns vertices 42 and 99 and holds a ghost of vertex 7.  The
    edges are [42 -> 7] (id 10), [7 -> 42] (id 11) and [99 -> 42] (id 12,
    known to machine 1 only).  The owner's record of vertex 42 is
    [(2, version 3)]; the ghost on machine 0 is [(41, version 0)]. *)
Definition machine_0 : DistGraph.fragment N N :=
  DistGraph.Fragment 0
    (Store [VData 70 false false 0; VData 41 false false 0]
           [EData 100 false false 0; EData 200 false false 0]
           [Edge 1 0; Edge 0 1] [[0]; [1]] [[1]; [0]] [0; 1] 2 2 true 0)
    {[7 := 0; 42 := 1]} [7; 42]
    {[10 := 0; 11 := 1]} [10; 11]
    {[7 := 0; 42 := 1; 99 := 1]} {[10 := 0; 11 := 1; 12 := 1]}
    false [0; 1] 3 3 0.

Definition machine_1 : DistGraph.fragment N N :=
  DistGraph.Fragment 1
    (Store [VData 70 false false 0; VData 2 false false 3;
            VData 9 false false 0]
           [EData 100 false false 0; EData 200 false false 0;
            EData 300 false false 0]
           [Edge 1 0; Edge 0 1; Edge 2 1] [[0]; [1; 2]; []]
           [[1]; [0]; [2]] [0; 1; 0] 3 3 true 0)
    {[7 := 0; 42 := 1; 99 := 2]} [7; 42; 99]
    {[10 := 0; 11 := 1; 12 := 2]} [10; 11; 12]
    {[7 := 0; 42 := 1; 99 := 1]} {[10 := 0; 11 := 1; 12 := 1]}
    false [0; 1; 1] 3 3 0.

Definition two_machines : gmap N (DistGraph.fragment N N) :=
  {[0 := machine_0; 1 := machine_1]}.

(** Machine 0 as its loader builds it when the atoms carry no global edge
    ids: canonical numbering, the local edge ids 0 and 1 standing for
    themselves, and an empty edge directory. *)
Definition machine_0_canonical : DistGraph.fragment N N :=
  DistGraph.Fragment 0
    (Store [VData 70 false false 0; VData 41 false false 0]
           [EData 100 false false 0; EData 200 false false 0]
           [Edge 1 0; Edge 0 1] [[0]; [1]] [[1]; [0]] [0; 1] 2 2 true 0)
    {[7 := 0; 42 := 1]} [7; 42]
    {[0 := 0; 1 := 1]} [0; 1]
    {[7 := 0; 42 := 1; 99 := 1]} ∅
    true [0; 1] 3 3 0.

(** Machine 0 in canonical numbering with a store that holds the edge
    [42 -> 7] only, so that this edge has no reverse. *)
Definition machine_0_one_way : DistGraph.fragment N N :=
  DistGraph.Fragment 0
    (Store [VData 70 false false 0; VData 41 false false 0]
           [EData 100 false false 0]
           [Edge 1 0] [[0]; []] [[]; [0]] [0; 1] 2 1 true 0)
    {[7 := 0; 42 := 1]} [7; 42]
    {[0 := 0]} [0]
    {[7 := 0; 42 := 1; 99 := 1]} ∅
    true [0; 1] 3 3 0.

Definition canonical_machines : gmap N (DistGraph.fragment N N) :=
  {[0 := machine_0_canonical; 1 := machine_1]}.

Definition one_way_machines : gmap N (DistGraph.fragment N N) :=
  {[0 := machine_0_one_way; 1 := machine_1]}.

(** The two machines with no one-way call in flight. *)
Definition quiet_world : DistGraph.world N N :=
  DistGraph.World two_machines [].

(** Two workers, messages of type [sum].  Vertex 7 has been scheduled on
    worker 1 ([schedule] with [rand = 1]) and sits in worker 1's in-queue;
    worker 0 has nothing. *)
Definition one_pending : outcome (Scheduler.queued_fifo_scheduler Messages.sum)
  := Scheduler.schedule Messages.sum_plus_assign 1
       (Scheduler.new_scheduler 2 None) 7
       (Messages.Sum 0x1p+0%float).

End Inputs.

(** ** The version-comparison rule of the synchronisation primitives *)

Module Rules.
Import LocalStore DistGraph.

(** The rule in the spec's words, for a primitive [run ghost_version
    ghost_store] started on the owner [f] whose record holds [owner_data] at
    [owner_version]; [adopt d v] is [f] once that record has adopted the
    payload [d] and the version [v].  A version is a value of the 62 bit
    version field. *)
Definition version_rule {VertexData EdgeData Data : Type}
    `{Inhabited Data}
    (run : N -> conditional_store Data ->
           outcome (conditional_store Data * fragment VertexData EdgeData))
    (f : fragment VertexData EdgeData)
    (owner_data : Data) (owner_version : N)
    (adopt : Data -> N -> fragment VertexData EdgeData) : Prop :=
  forall (ghost_version : N) (ghost_store : conditional_store Data),
    ghost_version < VERSION_MOD ->
    (ghost_version < owner_version ->
     run ghost_version ghost_store
     = Ok (CondStore true (owner_data, owner_version), f))
    /\ (owner_version < ghost_version ->
        (hasdata ghost_store = true ->
         run ghost_version ghost_store
         = Ok (CondStore false (inhabitant, 0),
               adopt (fst (data ghost_store)) ghost_version))
        /\ (hasdata ghost_store = false ->
            run ghost_version ghost_store = Fatal))
    /\ (owner_version = ghost_version ->
        run ghost_version ghost_store
        = Ok (CondStore false (inhabitant, 0), f)).

End Rules.

(** ** Invariants and orders used in the statements below *)

Module Invariants.
Import LocalStore Inputs.

(** A sequence of [add_edge(eid, source, target)] calls, in order. *)
Fixpoint add_edges {VertexData EdgeData : Type}
    (s : graph_local_store VertexData EdgeData) (calls : list (N * N * N))
    : outcome (graph_local_store VertexData EdgeData) :=
  match calls with
  | [] => mret s
  | (eid, source, target) :: rest =>
      s' ← add_edge s eid source target;
      add_edges s' rest
  end.

(** Every adjacency list holds edge ids below [nedges], and the vectors
    have the sizes [create_store] gave them. *)
Definition valid_adjacency {VertexData EdgeData : Type}
    (s : graph_local_store VertexData EdgeData) : Prop :=
  well_sized s
  /\ Forall (Forall (fun eid => eid < nedges s)) (in_edges s)
  /\ Forall (Forall (fun eid => eid < nedges s)) (out_edges s).

(** The edge an id stands for ([edges[eid]]). *)
Definition key {VertexData EdgeData : Type}
    (s : graph_local_store VertexData EdgeData) (eid : N) : edge :=
  default edge_default (edges s !! N.to_nat eid).

(** [a] may stand before [b] in a list sorted with [edge_id_less]: the edge
    of [b] is not less than the edge of [a]. *)
Definition key_le {VertexData EdgeData : Type}
    (s : graph_local_store VertexData EdgeData) (a b : N) : Prop :=
  edge_lt (key s b) (key s a) = false.

(** Every adjacency list has a size a [size_t] can hold. *)
Definition sizes_fit {VertexData EdgeData : Type}
    (s : graph_local_store VertexData EdgeData) : Prop :=
  Forall (fun l : list N => vec_size l < UINT64_MOD) (in_edges s)
  /\ Forall (fun l : list N => vec_size l < UINT64_MOD) (out_edges s).

(** [vcolors[v]]. *)
Definition color_of {VertexData EdgeData : Type}
    (s : graph_local_store VertexData EdgeData) (v : N) : N :=
  default 0 (vcolors s !! N.to_nat v).

(** The colouring functions read no vector out of range and their loops
    over the vertices end: the adjacency lists are valid, there is a colour
    for every vertex, the number of vertices fits [vertex_id_type], and
    every edge in an [in_edges] list has its source among the vertices. *)
Definition colorable {VertexData EdgeData : Type}
    (s : graph_local_store VertexData EdgeData) : Prop :=
  valid_adjacency s
  /\ vec_size (vcolors s) = nvertices s
  /\ nvertices s < UINT32_MOD
  /\ Forall (Forall (fun eid => _source (key s eid) < nvertices s))
            (in_edges s).

(** No edge in an [in_edges] list joins two vertices of one colour. *)
Definition proper_coloring {VertexData EdgeData : Type}
    (s : graph_local_store VertexData EdgeData) : Prop :=
  forall vid ins eid,
    in_edges s !! N.to_nat vid = Some ins -> eid ∈ ins ->
    color_of s (_source (key s eid)) <> color_of s vid.

(** [vid] is held by a queue of the scheduler: one of the queues waiting in
    the master queue, an in-queue or an out-queue. *)
Definition queued {Message : Type}
    (s : Scheduler.queued_fifo_scheduler Message) (vid : N) : Prop :=
  (exists q, q ∈ Scheduler.master_queue s /\ vid ∈ q)
  \/ (exists j q, Scheduler.in_queues s !! j = Some q /\ vid ∈ q)
  \/ (exists j q, Scheduler.out_queues s !! j = Some q /\ vid ∈ q).

(** Every vertex with a message in the message map is held by a queue. *)
Definition no_lost_task {Message : Type}
    (s : Scheduler.queued_fifo_scheduler Message) : Prop :=
  forall vid, is_Some (Scheduler.messages s !! vid) -> queued s vid.

(** No in-queue is longer than [sub_queue_size]. *)
Definition in_queues_bounded {Message : Type}
    (s : Scheduler.queued_fifo_scheduler Message) : Prop :=
  Forall (fun q : list N => vec_size q <= Scheduler.sub_queue_size s)
         (Scheduler.in_queues s).

(** The object representation of a payload has [sizeof] bytes. *)
Definition pod_sized (T : Type) {pod : Archive.POD T} : Prop :=
  forall d : T, vec_size (Archive.to_bytes d) = Archive.sizeof (T := T).

(** The vertices the worker of a master queue, an out-queue and an in-queue
    can reach. *)
Definition pool (master : list (list N)) (outq inq : list N) (x : N)
    : Prop :=
  x ∈ outq \/ x ∈ inq \/ exists q, q ∈ master /\ x ∈ q.

(** The ids of a numbering are the numbers below its size, each given to
    one edge. *)
Definition dense (m : gmap (N * N) N) : Prop :=
  (forall e i, m !! e = Some i -> i < N.of_nat (size m))
  /\ (forall i, i < N.of_nat (size m) -> exists e, m !! e = Some i)
  /\ (forall e1 e2 i, m !! e1 = Some i -> m !! e2 = Some i -> e1 = e2).

(** Every edge of an [in_edges] list has an edge back: the list of its
    source holds an edge that comes from the list's vertex. *)
Definition symmetric_in_edges {VertexData EdgeData : Type}
    (s : graph_local_store VertexData EdgeData) : Prop :=
  forall vid ins eid,
    in_edges s !! N.to_nat vid = Some ins -> eid ∈ ins ->
    exists ins' eid',
      in_edges s !! N.to_nat (_source (key s eid)) = Some ins'
      /\ eid' ∈ ins' /\ _source (key s eid') = vid.

(** No edge of an [in_edges] list comes from the list's own vertex. *)
Definition no_self_edges {VertexData EdgeData : Type}
    (s : graph_local_store VertexData EdgeData) : Prop :=
  forall vid ins eid,
    in_edges s !! N.to_nat vid = Some ins -> eid ∈ ins ->
    _source (key s eid) <> vid.

(** The store holds the edge [eid] from [source] to [target]: it is in
    [edges], and its id is in both adjacency lists. *)
Definition recorded {VertexData EdgeData : Type}
    (s : graph_local_store VertexData EdgeData) (eid source target : N)
    : Prop :=
  edges s !! N.to_nat eid = Some (Edge source target)
  /\ (exists ins, in_edges s !! N.to_nat target = Some ins /\ eid ∈ ins)
  /\ (exists outs, out_edges s !! N.to_nat source = Some outs /\ eid ∈ outs).

End Invariants.

(** * Properties *)

(** ** Outcomes and vectors *)

Lemma vec_at_lookup {A} (vec : list A) (i : N) (x : A) :
  vec !! N.to_nat i = Some x -> vec_at vec i = Ok x.
Proof. intros H. unfold vec_at. now rewrite H. Qed.

Lemma vec_put_in_range {A} (vec : list A) (i : N) (x : A) :
  i < vec_size vec -> vec_put vec i x = Ok (<[N.to_nat i := x]> vec).
Proof.
  intros H. unfold vec_put, vec_size in *.
  destruct (N.ltb_spec i (N.of_nat (length vec))); [reflexivity | lia].
Qed.

Lemma vec_lookup_in_range {A} (vec : list A) (i : N) :
  i < vec_size vec -> exists x, vec !! N.to_nat i = Some x.
Proof.
  intros H. apply lookup_lt_is_Some_2. unfold vec_size in H. lia.
Qed.

(** ** The local store *)

Section local_store_facts.
Import LocalStore Inputs.
Context {VertexData EdgeData : Type}.
Implicit Types s : graph_local_store VertexData EdgeData.

Lemma create_store_well_sized nv ne fresh_v fresh_e :
  well_sized (create_store (VertexData := VertexData)
                (EdgeData := EdgeData) nv ne fresh_v fresh_e new_store).
Proof.
  unfold well_sized, create_store, vec_size, vec_resize; simpl.
  rewrite !take_nil, !app_nil_l, !length_replicate. lia.
Qed.

Lemma add_edge_fatal s eid source target :
  source = target \/ nvertices s <= source \/ nvertices s <= target
    \/ nedges s <= eid ->
  add_edge s eid source target = Fatal.
Proof.
  intros H. unfold add_edge.
  destruct (N.leb_spec (nvertices s) source); [reflexivity |].
  destruct (N.leb_spec (nvertices s) target); [reflexivity |].
  destruct (N.leb_spec (nedges s) eid); [reflexivity |].
  destruct (N.eqb_spec source target); [reflexivity |].
  exfalso. lia.
Qed.

Lemma add_edge_records s eid source target :
  well_sized s ->
  source <> target -> source < nvertices s -> target < nvertices s ->
  eid < nedges s ->
  exists ins outs,
    in_edges s !! N.to_nat target = Some ins
    /\ out_edges s !! N.to_nat source = Some outs
    /\ add_edge s eid source target
       = Ok (Store (vertices s) (edgedata s)
               (<[N.to_nat eid := Edge source target]> (edges s))
               (<[N.to_nat target := ins ++ [eid]]> (in_edges s))
               (<[N.to_nat source := outs ++ [eid]]> (out_edges s))
               (vcolors s) (nvertices s) (nedges s) false (changeid s)).
Proof.
  intros (He & Hi & Ho) Hne Hs Ht Hid.
  destruct (vec_lookup_in_range (in_edges s) target) as [ins Hins];
    [lia |].
  destruct (vec_lookup_in_range (out_edges s) source) as [outs Houts];
    [lia |].
  exists ins, outs. split; [assumption |]. split; [assumption |].
  unfold add_edge.
  destruct (N.leb_spec (nvertices s) source); [lia |].
  destruct (N.leb_spec (nvertices s) target); [lia |].
  destruct (N.leb_spec (nedges s) eid); [lia |].
  destruct (N.eqb_spec source target); [lia |].
  simpl.
  rewrite vec_put_in_range by lia. simpl.
  rewrite (vec_at_lookup _ _ _ Hins). simpl.
  rewrite vec_put_in_range by lia. simpl.
  rewrite (vec_at_lookup _ _ _ Houts). simpl.
  rewrite vec_put_in_range by lia. reflexivity.
Qed.

Lemma add_edge_well_sized s eid source target s' :
  well_sized s -> add_edge s eid source target = Ok s' -> well_sized s'.
Proof.
  intros Hw H.
  destruct (N.eq_dec source target) as [->|Hne];
    [rewrite add_edge_fatal in H by auto; discriminate |].
  destruct (N.lt_ge_cases source (nvertices s)) as [Hs|Hs];
    [| rewrite add_edge_fatal in H by auto; discriminate].
  destruct (N.lt_ge_cases target (nvertices s)) as [Ht|Ht];
    [| rewrite add_edge_fatal in H by auto; discriminate].
  destruct (N.lt_ge_cases eid (nedges s)) as [Hid|Hid];
    [| rewrite add_edge_fatal in H by auto; discriminate].
  destruct (add_edge_records s eid source target Hw Hne Hs Ht Hid)
    as (ins & outs & _ & _ & Heq).
  rewrite Heq in H. injection H as <-.
  destruct Hw as (He & Hi & Ho).
  unfold well_sized, vec_size in *; simpl.
  rewrite !length_insert. auto.
Qed.

(** C8: [add_edge(eid, source, target)] is fatal on a self edge, on a
    source or target that is not less than the number of vertices and on
    an edge id that is not less than the number of edges; every other call
    stores the edge in [edges[eid]], appends [eid] to [in_edges[target]]
    and to [out_edges[source]], clears [finalized] and changes nothing
    else. *)
Theorem add_edge_fatal_or_recorded s eid source target :
  well_sized s ->
  (source = target \/ nvertices s <= source \/ nvertices s <= target
     \/ nedges s <= eid ->
   add_edge s eid source target = Fatal)
  /\ (source <> target /\ source < nvertices s /\ target < nvertices s
        /\ eid < nedges s ->
      exists ins outs,
        in_edges s !! N.to_nat target = Some ins
        /\ out_edges s !! N.to_nat source = Some outs
        /\ add_edge s eid source target
           = Ok (Store (vertices s) (edgedata s)
                   (<[N.to_nat eid := Edge source target]> (edges s))
                   (<[N.to_nat target := ins ++ [eid]]> (in_edges s))
                   (<[N.to_nat source := outs ++ [eid]]> (out_edges s))
                   (vcolors s) (nvertices s) (nedges s) false
                   (changeid s))).
Proof.
  intros Hw. split.
  - apply add_edge_fatal.
  - intros (Hne & Hs & Ht & Hid). now apply add_edge_records.
Qed.

Lemma binary_search_loop_fuel fuel s vec source target first last :
  (N.to_nat (last + 1 - first) <= fuel)%nat ->
  binary_search_loop fuel s vec source target first last <> OutOfFuel.
Proof.
  revert first last.
  induction fuel as [|fuel IH]; intros first last Hfuel.
  - simpl. destruct (N.leb_spec first last); [lia | discriminate].
  - cbn [binary_search_loop].
    destruct (N.leb_spec first last) as [Hle|]; [| discriminate].
    assert (Hmid : first <= (first + last) / 2 <= last).
    { split.
      - apply N.div_le_lower_bound; lia.
      - apply N.Div0.div_le_upper_bound; lia. }
    set (mid := (first + last) / 2) in *.
    unfold mbind, outcome_bind, mret, outcome_ret, assert, vec_at.
    destruct (mid <? vec_size vec); [| discriminate].
    destruct (vec !! N.to_nat mid) as [eid|]; [| discriminate].
    destruct (edges s !! N.to_nat eid) as [e|]; [| discriminate].
    destruct ((_source e =? source) && (_target e =? target));
      [discriminate |].
    destruct (first =? last); [discriminate |].
    destruct (edge_lt (Edge source target) (Edge (_source e) (_target e))).
    + destruct (N.ltb_spec 0 mid); simpl; [| discriminate].
      apply IH. lia.
    + apply IH. lia.
Qed.

(** [binary_search] returns or stops on an assertion: the fuel its loop is
    given is never used up. *)
Theorem binary_search_terminates s vec source target :
  binary_search s vec source target <> OutOfFuel.
Proof.
  unfold binary_search. unfold mbind, outcome_bind, assert.
  destruct (finalized s); [| discriminate].
  destruct vec as [|x vec]; [vm_compute; discriminate |].
  apply binary_search_loop_fuel.
  unfold vec_size, SIZE_MAX, UINT64_MOD.
  assert (H : (N.of_nat (length (x :: vec)) + 18446744073709551615)
              mod 18446744073709551616
              <= N.of_nat (length (x :: vec)) - 1).
  { replace (N.of_nat (length (x :: vec)) + 18446744073709551615)
      with ((N.of_nat (length (x :: vec)) - 1)
            + 1 * 18446744073709551616) by (simpl length; lia).
    rewrite N.Div0.mod_add. apply N.Div0.mod_le. }
  simpl length in *. lia.
Qed.

Lemma linear_search_spec s vec source target :
  Forall (fun eid => eid < nedges s /\ is_Some (edges s !! N.to_nat eid))
         vec ->
  (exists eid,
     linear_search s vec source target = Ok (true, eid)
     /\ eid ∈ vec
     /\ edges s !! N.to_nat eid = Some (Edge source target))
  \/ (linear_search s vec source target = Ok (false, UINT32_MAX)
      /\ forall eid, eid ∈ vec ->
           edges s !! N.to_nat eid <> Some (Edge source target)).
Proof.
  induction 1 as [|eid vec [Hlt [e He]] Hvec IH].
  - right. split; [reflexivity |]. intros eid Hin.
    now apply elem_of_nil in Hin.
  - cbn [linear_search]. unfold mbind, outcome_bind.
    apply N.ltb_lt in Hlt. rewrite Hlt. simpl.
    rewrite (vec_at_lookup _ _ _ He).
    destruct ((_source e =? source) && (_target e =? target)) eqn:Hmatch.
    + left. exists eid. split; [reflexivity |].
      split; [apply list_elem_of_here |].
      apply andb_true_iff in Hmatch as [Hs Ht].
      apply N.eqb_eq in Hs, Ht. rewrite He. destruct e; simpl in *.
      now subst.
    + destruct IH as [(eid' & Hres & Hin & Hedge) | (Hres & Hnone)].
      * left. exists eid'. split; [exact Hres |].
        split; [now apply list_elem_of_further | exact Hedge].
      * right. split; [exact Hres |].
        intros eid' Hin Hedge.
        apply elem_of_cons in Hin as [-> | Hin]; [| now apply (Hnone eid')].
        rewrite He in Hedge. injection Hedge as ->. simpl in Hmatch.
        now rewrite !N.eqb_refl in Hmatch.
Qed.

(** On a store that is not finalized, [find(source, target)] searches the
    shorter of [in_edges[target]] and [out_edges[source]] (the latter on a
    tie) from front to back.  With valid edge ids in the two lists it never
    aborts: it returns [(true, e)] for an [e] of the searched list with
    [edges[e] = (source, target)], or [(false, -1)] when one of the two lists
    is empty or the searched list holds no such edge. *)
Theorem find_linear_when_not_finalized s source target ins outs :
  finalized s = false ->
  in_edges s !! N.to_nat target = Some ins ->
  out_edges s !! N.to_nat source = Some outs ->
  Forall (fun eid => eid < nedges s /\ is_Some (edges s !! N.to_nat eid))
         (ins ++ outs) ->
  (exists eid,
     find s source target = Ok (true, eid)
     /\ eid ∈ (if vec_size ins <? vec_size outs then ins else outs)
     /\ edges s !! N.to_nat eid = Some (Edge source target))
  \/ (find s source target = Ok (false, UINT32_MAX)
      /\ (ins = [] \/ outs = []
          \/ forall eid,
               eid ∈ (if vec_size ins <? vec_size outs then ins else outs) ->
               edges s !! N.to_nat eid <> Some (Edge source target))).
Proof.
  intros Hfin Hins Houts Hvalid.
  apply Forall_app in Hvalid as [Hvi Hvo].
  unfold find. unfold mbind, outcome_bind, mret, outcome_ret.
  rewrite (vec_at_lookup _ _ _ Hins).
  destruct ins as [|i ins'].
  { right. split; [reflexivity | now left]. }
  replace (vec_size (i :: ins') =? 0) with false
    by (unfold vec_size; simpl; reflexivity).
  rewrite (vec_at_lookup _ _ _ Houts).
  destruct outs as [|o outs'].
  { right. split; [reflexivity | right; now left]. }
  replace (vec_size (o :: outs') =? 0) with false
    by (unfold vec_size; simpl; reflexivity).
  rewrite Hfin.
  destruct (vec_size (i :: ins') <? vec_size (o :: outs')).
  - destruct (linear_search_spec s (i :: ins') source target Hvi)
      as [Hfound | [Hres Hnone]]; [now left | right].
    split; [exact Hres | right; right; exact Hnone].
  - destruct (linear_search_spec s (o :: outs') source target Hvo)
      as [Hfound | [Hres Hnone]]; [now left | right].
    split; [exact Hres | right; right; exact Hnone].
Qed.
End local_store_facts.

Lemma add_edge_fatal_or_recorded_witness :
  Inputs.well_sized Inputs.store_3_2
  /\ LocalStore.add_edge Inputs.store_3_2 0 1 1 = Fatal
  /\ exists ins outs,
       LocalStore.in_edges Inputs.store_3_2 !! N.to_nat 1 = Some ins
       /\ LocalStore.out_edges Inputs.store_3_2 !! N.to_nat 2 = Some outs
       /\ LocalStore.add_edge Inputs.store_3_2 0 2 1
          = Ok (LocalStore.Store
                  (LocalStore.vertices Inputs.store_3_2)
                  (LocalStore.edgedata Inputs.store_3_2)
                  (<[N.to_nat 0 := LocalStore.Edge 2 1]>
                     (LocalStore.edges Inputs.store_3_2))
                  (<[N.to_nat 1 := ins ++ [0]]>
                     (LocalStore.in_edges Inputs.store_3_2))
                  (<[N.to_nat 2 := outs ++ [0]]>
                     (LocalStore.out_edges Inputs.store_3_2))
                  (LocalStore.vcolors Inputs.store_3_2)
                  (LocalStore.nvertices Inputs.store_3_2)
                  (LocalStore.nedges Inputs.store_3_2) false
                  (LocalStore.changeid Inputs.store_3_2)).
Proof.
  assert (Hw : Inputs.well_sized Inputs.store_3_2)
    by (repeat split; reflexivity).
  split; [exact Hw |]. split.
  - apply (proj1 (add_edge_fatal_or_recorded Inputs.store_3_2 0 1 1 Hw)).
    left; reflexivity.
  - apply (proj2 (add_edge_fatal_or_recorded Inputs.store_3_2 0 2 1 Hw)).
    repeat split; try discriminate; reflexivity.
Defined.

Lemma find_linear_when_not_finalized_witness :
  exists s,
    Inputs.fan_store = Ok s
    /\ ((exists eid,
           LocalStore.find s 1 3 = Ok (true, eid)
           /\ eid ∈ (if vec_size [1] <? vec_size [0; 1] then [1] else [0; 1])
           /\ LocalStore.edges s !! N.to_nat eid
              = Some (LocalStore.Edge 1 3))
        \/ (LocalStore.find s 1 3 = Ok (false, UINT32_MAX)
            /\ ([1] = [] \/ [0; 1] = []
                \/ forall eid,
                     eid ∈ (if vec_size [1] <? vec_size [0; 1]
                            then [1] else [0; 1]) ->
                     LocalStore.edges s !! N.to_nat eid
                     <> Some (LocalStore.Edge 1 3)))).
Proof.
  eexists. split; [vm_compute; reflexivity |].
  apply find_linear_when_not_finalized.
  - reflexivity.
  - reflexivity.
  - reflexivity.
  - repeat (constructor;
            [split; [reflexivity | eexists; reflexivity] |]).
    constructor.
Defined.

(** C5: on the finalized store with the edges [1 -> 2], [1 -> 3], [2 -> 0],
    [3 -> 0] there is no edge [1 -> 0], both adjacency lists searched by
    [find(1, 0)] hold two edges, and the binary search over [out_edges[1]]
    stops on [assert(mid > 0)] instead of returning [(false, -1)]; before
    [finalize()] the linear search returns [(false, -1)] on the same store. *)
Theorem find_absent_edge_aborts_when_finalized :
  exists s0 s,
    Inputs.fan_store = Ok s0
    /\ Inputs.fan_store_finalized = Ok s
    /\ LocalStore.finalized s = true
    /\ LocalStore.edges s
       = [LocalStore.Edge 1 2; LocalStore.Edge 1 3;
          LocalStore.Edge 2 0; LocalStore.Edge 3 0]
    /\ LocalStore.in_edges s !! 0%nat = Some [2; 3]
    /\ LocalStore.out_edges s !! 1%nat = Some [0; 1]
    /\ LocalStore.find s 1 0 = Fatal
    /\ LocalStore.find s0 1 0 = Ok (false, UINT32_MAX).
Proof.
  eexists _, _. split; [vm_compute; reflexivity |].
  split; [vm_compute; reflexivity |].
  repeat split; vm_compute; reflexivity.
Qed.

(** C6: on the store built by [create_store(3, 2)], [add_edge(0, 2, 1)],
    [add_edge(1, 0, 2)] (the path [0 -> 2 -> 1], no self edge),
    [compute_coloring()] returns 2 and leaves the colours [0, 1, 1]: the
    endpoints of the edge [2 -> 1] share colour 1, and [valid_coloring()]
    returns [false]. *)
Theorem valid_coloring_false_after_compute_coloring :
  exists s colored,
    Inputs.path_store = Ok s
    /\ LocalStore.compute_coloring s = Ok (colored, 2)
    /\ LocalStore.vcolors colored = [0; 1; 1]
    /\ LocalStore.edges colored = [LocalStore.Edge 2 1; LocalStore.Edge 0 2]
    /\ LocalStore.valid_coloring colored = Ok false.
Proof.
  eexists _, _. split; [vm_compute; reflexivity |].
  split; [vm_compute; reflexivity |].
  repeat split; vm_compute; reflexivity.
Qed.

(** ** Archives *)

(** C2: [save] writes [sizeof(VertexData) * nvertices] bytes of the vertex
    block, whose records are [sizeof(vdata_store)] bytes apart (and likewise
    for the edge block).  With 8 byte payloads, two vertices and one edge the
    archive holds the record of vertex 0 and the payload of edge 0 and
    nothing else of the two blocks.  A store with another record for vertex 1
    and other flags and version on the edge is saved to the same archive, so
    no load recovers both; with zero-filled fresh blocks [load(save(S))]
    returns vertex 1 and the flags and version of edge 0 as zeros. *)
Theorem save_load_loses_records :
  Archive.save (vpod := Archive.uint64_pod) (epod := Archive.uint64_pod)
      Inputs.saved_store
  = Archive.save (vpod := Archive.uint64_pod) (epod := Archive.uint64_pod)
      Inputs.saved_store'
  /\ LocalStore.vertices Inputs.saved_store
     <> LocalStore.vertices Inputs.saved_store'
  /\ (exists loaded,
        Archive.load (vpod := Archive.uint64_pod) (epod := Archive.uint64_pod)
          (Archive.save (vpod := Archive.uint64_pod)
             (epod := Archive.uint64_pod) Inputs.saved_store)
          Inputs.zero_vN Inputs.zero_eN LocalStore.new_store = Ok loaded
        /\ LocalStore.vertices loaded
           = [LocalStore.VData 7 true true 5;
              LocalStore.VData 0 false false 0]
        /\ LocalStore.edgedata loaded = [LocalStore.EData 11 false false 0]
        /\ LocalStore.vertices Inputs.saved_store
           = [LocalStore.VData 7 true true 5;
              LocalStore.VData 9 false false 3]
        /\ LocalStore.edgedata Inputs.saved_store
           = [LocalStore.EData 11 true false 2])
  /\ (forall fresh_v fresh_e s0 loaded loaded',
        Archive.load (vpod := Archive.uint64_pod) (epod := Archive.uint64_pod)
          (Archive.save (vpod := Archive.uint64_pod)
             (epod := Archive.uint64_pod) Inputs.saved_store)
          fresh_v fresh_e s0 = Ok loaded ->
        Archive.load (vpod := Archive.uint64_pod) (epod := Archive.uint64_pod)
          (Archive.save (vpod := Archive.uint64_pod)
             (epod := Archive.uint64_pod) Inputs.saved_store')
          fresh_v fresh_e s0 = Ok loaded' ->
        ~ (LocalStore.vertices loaded = LocalStore.vertices Inputs.saved_store
           /\ LocalStore.vertices loaded'
              = LocalStore.vertices Inputs.saved_store')).
Proof.
  assert (Hsave :
    Archive.save (vpod := Archive.uint64_pod) (epod := Archive.uint64_pod)
        Inputs.saved_store
    = Archive.save (vpod := Archive.uint64_pod) (epod := Archive.uint64_pod)
        Inputs.saved_store') by (vm_compute; reflexivity).
  assert (Hne : LocalStore.vertices Inputs.saved_store
                <> LocalStore.vertices Inputs.saved_store')
    by (simpl; discriminate).
  split; [exact Hsave |]. split; [exact Hne |]. split.
  - eexists. split; [vm_compute; reflexivity |].
    repeat split; vm_compute; reflexivity.
  - intros fresh_v fresh_e s0 loaded loaded' H1 H2 [E1 E2].
    rewrite Hsave in H1. rewrite H1 in H2. injection H2 as <-.
    apply Hne. congruence.
Qed.

(** ** The distributed fragment *)

Section fragment_facts.
Import LocalStore DistGraph.
Context {VertexData EdgeData : Type}.
Context {vdefault : Inhabited VertexData} {edefault : Inhabited EdgeData}.
Implicit Types f : fragment VertexData EdgeData.
Implicit Types cl : gmap N (fragment VertexData EdgeData).

Lemma machine_lookup cl p f : cl !! p = Some f -> machine cl p = Ok f.
Proof. intros H. unfold machine. now rewrite H. Qed.

Lemma vid_in_fragment f vid localvid :
  global2localvid f !! vid = Some localvid ->
  global_vid_in_local_fragment f vid = true.
Proof.
  intros H. unfold global_vid_in_local_fragment.
  apply bool_decide_eq_true_2. rewrite H. eauto.
Qed.

Lemma vid_not_in_fragment f vid :
  global2localvid f !! vid = None ->
  global_vid_in_local_fragment f vid = false.
Proof.
  intros H. unfold global_vid_in_local_fragment.
  apply bool_decide_eq_false_2. rewrite H. intros [x Hx]. discriminate.
Qed.

Lemma eid_in_fragment f eid localeid :
  global2localeid f !! eid = Some localeid ->
  global_eid_in_local_fragment f eid = true.
Proof.
  intros H. unfold global_eid_in_local_fragment.
  apply bool_decide_eq_true_2. rewrite H. eauto.
Qed.

Lemma eid_not_in_fragment f eid :
  global2localeid f !! eid = None ->
  global_eid_in_local_fragment f eid = false.
Proof.
  intros H. unfold global_eid_in_local_fragment.
  apply bool_decide_eq_false_2. rewrite H. intros [x Hx]. discriminate.
Qed.

Lemma get_vertex_data_local fuel cl me vid f localvid d :
  cl !! me = Some f ->
  global2localvid f !! vid = Some localvid ->
  LocalStore.vertex_data (localstore f) localvid = Ok d ->
  get_vertex_data fuel cl me vid = Ok (d, []).
Proof.
  intros Hme Hloc Hd.
  destruct fuel; simpl; unfold mbind, outcome_bind, mret, outcome_ret in *;
    rewrite (machine_lookup _ _ _ Hme), (vid_in_fragment _ _ _ Hloc);
    unfold DistGraph.vertex_data;
    rewrite (vid_in_fragment _ _ _ Hloc); simpl;
    unfold mbind, outcome_bind; rewrite Hloc, Hd; reflexivity.
Qed.

(** C3, as the code has it: [get_vertex_data(v)] serves every vertex that is
    present in the local fragment from the local store with no RPC, whoever
    its recorded owner is; for a vertex that is absent from the fragment it
    resolves the owner through the directory, issues exactly one blocking
    RPC to the owner and returns the payload the owner holds. *)
Theorem get_vertex_data_routing fuel cl me vid f :
  cl !! me = Some f ->
  (forall localvid d,
     global2localvid f !! vid = Some localvid ->
     LocalStore.vertex_data (localstore f) localvid = Ok d ->
     get_vertex_data fuel cl me vid = Ok (d, []))
  /\ (forall owner fo localvid d,
        global2localvid f !! vid = None ->
        globalvid2owner f !! vid = Some owner ->
        cl !! owner = Some fo ->
        global2localvid fo !! vid = Some localvid ->
        LocalStore.vertex_data (localstore fo) localvid = Ok d ->
        get_vertex_data (S fuel) cl me vid
        = Ok (d, [Rpc me owner false (call_get_vertex_data vid)])).
Proof.
  intros Hme. split.
  - intros localvid d Hloc Hd. now apply get_vertex_data_local with f localvid.
  - intros owner fo localvid d Hnone Hdir Hfo Hloc Hd.
    cbn [get_vertex_data].
    rewrite (machine_lookup _ _ _ Hme). simpl.
    rewrite (vid_not_in_fragment _ _ Hnone).
    unfold get_cached. rewrite Hdir. simpl.
    rewrite (get_vertex_data_local fuel cl owner vid fo localvid d Hfo Hloc Hd).
    reflexivity.
Qed.

Lemma set_global2localeid_same f :
  set_global2localeid f (global2localeid f) = f.
Proof. now destruct f. Qed.

Lemma set_global2localvid_same f :
  set_global2localvid f (global2localvid f) = f.
Proof. now destruct f. Qed.

Lemma map_index_present (m : gmap N N) key v :
  m !! key = Some v -> map_index m key = (v, m).
Proof. intros H. unfold map_index. now rewrite H. Qed.

(** Unfolds one of the routed accessors at an arbitrary amount of fuel and
    runs it up to the point where the hypotheses stop deciding. *)
Ltac run_routed fuel Hme :=
  destruct fuel; simpl; unfold mbind, outcome_bind, mret, outcome_ret;
  rewrite (machine_lookup _ _ _ Hme); simpl.

Lemma remote_edge_fatal_when_canonical fuel cl me eid f :
  cl !! me = Some f ->
  edge_canonical_numbering f = true ->
  global2localeid f !! eid = None ->
  source fuel cl me eid = Fatal
  /\ target fuel cl me eid = Fatal
  /\ rev_edge_id fuel cl me eid = Fatal
  /\ get_edge_data_from_eid fuel cl me eid = Fatal
  /\ forall edata async,
       set_edge_data_from_eid fuel cl me eid edata async = Fatal.
Proof.
  intros Hme Hcan Hnone.
  repeat split; try intros edata async.
  - run_routed fuel Hme; rewrite Hnone, Hcan; reflexivity.
  - run_routed fuel Hme; rewrite Hnone, Hcan; reflexivity.
  - run_routed fuel Hme; rewrite Hnone, Hcan; reflexivity.
  - run_routed fuel Hme; rewrite (eid_not_in_fragment _ _ Hnone), Hcan;
      reflexivity.
  - run_routed fuel Hme; rewrite Hnone, Hcan; reflexivity.
Qed.

Lemma local_edge_reads fuel cl me eid f localeid :
  cl !! me = Some f ->
  global2localeid f !! eid = Some localeid ->
  (forall v g,
     LocalStore.source (localstore f) localeid = Ok v ->
     local2globalvid f !! N.to_nat v = Some g ->
     source fuel cl me eid = Ok (g, []))
  /\ (forall v g,
        LocalStore.target (localstore f) localeid = Ok v ->
        local2globalvid f !! N.to_nat v = Some g ->
        target fuel cl me eid = Ok (g, []))
  /\ (forall d,
        LocalStore.edge_data (localstore f) localeid = Ok d ->
        get_edge_data_from_eid fuel cl me eid = Ok (d, []))
  /\ (forall r g,
        LocalStore.rev_edge_id (localstore f) localeid = Ok r ->
        local2globaleid f !! N.to_nat r = Some g ->
        rev_edge_id fuel cl me eid = Ok (g, []))
  /\ (LocalStore.rev_edge_id (localstore f) localeid = Fatal ->
      rev_edge_id fuel cl me eid = Fatal).
Proof.
  intros Hme Hloc. repeat split.
  - intros v g Hv Hg. run_routed fuel Hme;
      rewrite Hloc, Hv, (vec_at_lookup _ _ _ Hg); reflexivity.
  - intros v g Hv Hg. run_routed fuel Hme;
      rewrite Hloc, Hv, (vec_at_lookup _ _ _ Hg); reflexivity.
  - intros d Hd. run_routed fuel Hme;
      rewrite (eid_in_fragment _ _ _ Hloc); unfold DistGraph.edge_data;
      rewrite (eid_in_fragment _ _ _ Hloc); simpl;
      unfold mbind, outcome_bind; rewrite Hloc, Hd; reflexivity.
  - intros r g Hr Hg. run_routed fuel Hme;
      rewrite Hloc, Hr, (vec_at_lookup _ _ _ Hg); reflexivity.
  - intros Hr. run_routed fuel Hme; rewrite Hloc, Hr; reflexivity.
Qed.

Lemma local_edge_write fuel cl me eid f localeid t owner edata async :
  cl !! me = Some f ->
  global2localeid f !! eid = Some localeid ->
  LocalStore.target (localstore f) localeid = Ok t ->
  localvid2owner f !! N.to_nat t = Some owner ->
  (owner = procid f ->
   forall s',
     LocalStore.assign_edge_data (localstore f) localeid edata = Ok s' ->
     set_edge_data_from_eid fuel cl me eid edata async
     = Ok (<[me := set_localstore f s']> cl, []))
  /\ (owner <> procid f ->
      edge_canonical_numbering f = true ->
      set_edge_data_from_eid fuel cl me eid edata async = Fatal).
Proof.
  intros Hme Hloc Ht Ho. split.
  - intros -> s' Hs'.
    run_routed fuel Hme;
      rewrite Hloc, Ht, (vec_at_lookup _ _ _ Ho), N.eqb_refl;
      unfold assign_edge_data; rewrite (eid_in_fragment _ _ _ Hloc); simpl;
      rewrite (map_index_present _ _ _ Hloc), set_global2localeid_same;
      unfold mbind, outcome_bind; rewrite Hs'; reflexivity.
  - intros Hne Hcan.
    apply N.eqb_neq in Hne.
    run_routed fuel Hme;
      rewrite Hloc, Ht, (vec_at_lookup _ _ _ Ho), Hne, Hcan; reflexivity.
Qed.

(** C7, as the code has it.  In edge-canonical-numbering mode:
    [source], [target], [rev_edge_id], [get_edge_data_from_eid] and
    [set_edge_data_from_eid] are fatal, with no RPC, on an edge id that is
    not in the local fragment.  On an edge of the local fragment [source],
    [target] and [get_edge_data_from_eid] return the local answer;
    [rev_edge_id] returns the local store's answer and is fatal when the
    local store finds no reverse edge; [set_edge_data_from_eid] writes the
    local record when this machine owns the edge's target and is fatal when
    another machine owns it, since the write is then routed to the owner. *)
Theorem canonical_numbering_routing fuel cl me eid f :
  cl !! me = Some f ->
  edge_canonical_numbering f = true ->
  (global2localeid f !! eid = None ->
   source fuel cl me eid = Fatal
   /\ target fuel cl me eid = Fatal
   /\ rev_edge_id fuel cl me eid = Fatal
   /\ get_edge_data_from_eid fuel cl me eid = Fatal
   /\ forall edata async,
        set_edge_data_from_eid fuel cl me eid edata async = Fatal)
  /\ (forall localeid,
        global2localeid f !! eid = Some localeid ->
        (forall v g,
           LocalStore.source (localstore f) localeid = Ok v ->
           local2globalvid f !! N.to_nat v = Some g ->
           source fuel cl me eid = Ok (g, []))
        /\ (forall v g,
              LocalStore.target (localstore f) localeid = Ok v ->
              local2globalvid f !! N.to_nat v = Some g ->
              target fuel cl me eid = Ok (g, []))
        /\ (forall d,
              LocalStore.edge_data (localstore f) localeid = Ok d ->
              get_edge_data_from_eid fuel cl me eid = Ok (d, []))
        /\ (forall r g,
              LocalStore.rev_edge_id (localstore f) localeid = Ok r ->
              local2globaleid f !! N.to_nat r = Some g ->
              rev_edge_id fuel cl me eid = Ok (g, []))
        /\ (LocalStore.rev_edge_id (localstore f) localeid = Fatal ->
            rev_edge_id fuel cl me eid = Fatal)
        /\ (forall t owner edata async,
              LocalStore.target (localstore f) localeid = Ok t ->
              localvid2owner f !! N.to_nat t = Some owner ->
              (owner = procid f ->
               forall s',
                 LocalStore.assign_edge_data (localstore f) localeid edata
                 = Ok s' ->
                 set_edge_data_from_eid fuel cl me eid edata async
                 = Ok (<[me := set_localstore f s']> cl, []))
              /\ (owner <> procid f ->
                  set_edge_data_from_eid fuel cl me eid edata async
                  = Fatal))).
Proof.
  intros Hme Hcan. split.
  - intros Hnone. now apply remote_edge_fatal_when_canonical with f.
  - intros localeid Hloc.
    destruct (local_edge_reads fuel cl me eid f localeid Hme Hloc)
      as (H1 & H2 & H3 & H4 & H5).
    repeat (split; [assumption |]).
    intros t owner edata async Ht Ho.
    destruct (local_edge_write fuel cl me eid f localeid t owner edata async
                Hme Hloc Ht Ho) as [Hown Hother].
    split; [exact Hown | intros Hne; now apply Hother].
Qed.
End fragment_facts.

(** ** The synchronisation primitives *)

Section primitive_facts.
Import LocalStore DistGraph Rules.
Context {VertexData EdgeData : Type}.
Context {vdefault : Inhabited VertexData} {edefault : Inhabited EdgeData}.
Implicit Types f : fragment VertexData EdgeData.

(** What the three comparisons of a primitive decide. *)
Lemma version_cases (owner_version ghost_version : N) :
  (ghost_version < owner_version ->
   (ghost_version <? owner_version) = true)
  /\ (owner_version < ghost_version ->
      (ghost_version <? owner_version) = false
      /\ (owner_version <? ghost_version) = true)
  /\ (owner_version = ghost_version ->
      (ghost_version <? owner_version) = false
      /\ (owner_version <? ghost_version) = false).
Proof.
  repeat split; intros; try apply N.ltb_lt; try apply N.ltb_ge; lia.
Qed.

Lemma vertex_primitive_rule f vid localvid r :
  global2localvid f !! vid = Some localvid ->
  localvid < nvertices (localstore f) ->
  vertices (localstore f) !! N.to_nat localvid = Some r ->
  version_rule (get_vertex_if_version_less_than f vid) f
    (vdata r) (vversion r)
    (fun d v =>
       set_localstore f
         (set_vertices (localstore f)
            (<[N.to_nat localvid := VData d (vmodified r) false v]>
               (vertices (localstore f))))).
Proof.
  intros Hloc Hlt Hr ghost_version ghost_store Hgv.
  assert (Hlen : localvid < vec_size (vertices (localstore f))).
  { apply lookup_lt_Some in Hr. unfold vec_size. lia. }
  destruct (version_cases (vversion r) ghost_version) as (Hgt & Hless & Heq).
  unfold get_vertex_if_version_less_than.
  rewrite (map_index_present _ _ _ Hloc), set_global2localvid_same.
  unfold LocalStore.vertex_version, LocalStore.vertex_data,
    LocalStore.assign_vertex_data, LocalStore.set_vertex_version.
  apply N.ltb_lt in Hlt as Hltb. rewrite Hltb. simpl.
  rewrite (vec_at_lookup _ _ _ Hr). simpl.
  split; [| split].
  - intros H. rewrite (Hgt H). reflexivity.
  - intros H. destruct (Hless H) as [-> ->]. split.
    + intros ->. simpl.
      rewrite vec_put_in_range by assumption. simpl. rewrite Hltb. simpl.
      rewrite (vec_at_lookup _ _ (VData (fst (data ghost_store))
                 (vmodified r) (vsnapshot_made r) (vversion r)))
        by (apply list_lookup_insert_eq; unfold vec_size in Hlen; lia).
      simpl.
      rewrite vec_put_in_range
        by (unfold vec_size in *; rewrite length_insert; assumption).
      simpl. rewrite list_insert_insert_eq.
      rewrite N.mod_small by assumption. reflexivity.
    + intros ->. reflexivity.
  - intros H. destruct (Heq H) as [-> ->]. reflexivity.
Qed.

(** The part the two edge primitives share, from the read of the local
    version on. *)
Lemma edge_primitive_body_rule f localeid r :
  localeid < nedges (localstore f) ->
  edgedata (localstore f) !! N.to_nat localeid = Some r ->
  version_rule
    (fun edgeversion edata =>
       local_edge_version ← LocalStore.edge_version (localstore f) localeid;
       if edgeversion <? local_edge_version then
         d ← LocalStore.edge_data (localstore f) localeid;
         mret (CondStore true (d, local_edge_version), f)
       else if local_edge_version <? edgeversion then
         _ ← assert (hasdata edata);
         s ← LocalStore.assign_edge_data (localstore f) localeid
               (fst (data edata));
         s ← LocalStore.set_edge_version s localeid edgeversion;
         mret (no_data, set_localstore f s)
       else mret (no_data, f))
    f (edata r) (eversion r)
    (fun d v =>
       set_localstore f
         (set_edgedata (localstore f)
            (<[N.to_nat localeid := EData d (emodified r) false v]>
               (edgedata (localstore f))))).
Proof.
  intros Hlt Hr ghost_version ghost_store Hgv.
  assert (Hlen : localeid < vec_size (edgedata (localstore f))).
  { apply lookup_lt_Some in Hr. unfold vec_size. lia. }
  destruct (version_cases (eversion r) ghost_version) as (Hgt & Hless & Heq).
  unfold LocalStore.edge_version, LocalStore.edge_data,
    LocalStore.assign_edge_data, LocalStore.set_edge_version.
  apply N.ltb_lt in Hlt as Hltb. rewrite Hltb. simpl.
  rewrite (vec_at_lookup _ _ _ Hr). simpl.
  split; [| split].
  - intros H. rewrite (Hgt H). reflexivity.
  - intros H. destruct (Hless H) as [-> ->]. split.
    + intros ->. simpl.
      rewrite vec_put_in_range by assumption. simpl. rewrite Hltb. simpl.
      rewrite (vec_at_lookup _ _ (EData (fst (data ghost_store))
                 (emodified r) (esnapshot_made r) (eversion r)))
        by (apply list_lookup_insert_eq; unfold vec_size in Hlen; lia).
      simpl.
      rewrite vec_put_in_range
        by (unfold vec_size in *; rewrite length_insert; assumption).
      simpl. rewrite list_insert_insert_eq.
      rewrite N.mod_small by assumption. reflexivity.
    + intros ->. reflexivity.
  - intros H. destruct (Heq H) as [-> ->]. reflexivity.
Qed.

Lemma edge_primitive_rule f eid localeid r :
  global2localeid f !! eid = Some localeid ->
  localeid < nedges (localstore f) ->
  edgedata (localstore f) !! N.to_nat localeid = Some r ->
  version_rule (get_edge_if_version_less_than f eid) f
    (edata r) (eversion r)
    (fun d v =>
       set_localstore f
         (set_edgedata (localstore f)
            (<[N.to_nat localeid := EData d (emodified r) false v]>
               (edgedata (localstore f))))).
Proof.
  intros Hloc Hlt Hr ghost_version ghost_store Hgv.
  unfold get_edge_if_version_less_than.
  rewrite (map_index_present _ _ _ Hloc), set_global2localeid_same.
  exact (edge_primitive_body_rule f localeid r Hlt Hr
           ghost_version ghost_store Hgv).
Qed.

Lemma edge_primitive2_rule f source target localsource localtarget localeid r :
  global2localvid f !! source = Some localsource ->
  global2localvid f !! target = Some localtarget ->
  LocalStore.find (localstore f) localsource localtarget
  = Ok (true, localeid) ->
  localeid < nedges (localstore f) ->
  edgedata (localstore f) !! N.to_nat localeid = Some r ->
  version_rule (get_edge_if_version_less_than2 f source target) f
    (edata r) (eversion r)
    (fun d v =>
       set_localstore f
         (set_edgedata (localstore f)
            (<[N.to_nat localeid := EData d (emodified r) false v]>
               (edgedata (localstore f))))).
Proof.
  intros Hs Ht Hfind Hlt Hr ghost_version ghost_store Hgv.
  unfold get_edge_if_version_less_than2.
  rewrite (map_index_present _ _ _ Hs), (map_index_present _ _ _ Ht),
    set_global2localvid_same, Hfind.
  exact (edge_primitive_body_rule f localeid r Hlt Hr
           ghost_version ghost_store Hgv).
Qed.

(** C1: on the owner, each of [get_vertex_if_version_less_than],
    [get_edge_if_version_less_than] and [get_edge_if_version_less_than2]
    follows the version rule.  If the owner's stored version is greater than
    the ghost's version it returns [hasdata = true] with the owner's data and
    version and leaves the owner unchanged; if it is less it requires
    [ghost_store.hasdata] (fatal otherwise), stores the ghost's payload,
    raises the owner's version to the ghost's version, clears
    [snapshot_made] and returns no data; if the two are equal it returns no
    data and leaves the owner unchanged.  The ghost's version is a value of
    the 62 bit version field. *)
Theorem version_primitives_follow_rule f :
  (forall vid localvid r,
     global2localvid f !! vid = Some localvid ->
     localvid < nvertices (localstore f) ->
     vertices (localstore f) !! N.to_nat localvid = Some r ->
     version_rule (get_vertex_if_version_less_than f vid) f
       (vdata r) (vversion r)
       (fun d v =>
          set_localstore f
            (set_vertices (localstore f)
               (<[N.to_nat localvid := VData d (vmodified r) false v]>
                  (vertices (localstore f))))))
  /\ (forall eid localeid r,
        global2localeid f !! eid = Some localeid ->
        localeid < nedges (localstore f) ->
        edgedata (localstore f) !! N.to_nat localeid = Some r ->
        version_rule (get_edge_if_version_less_than f eid) f
          (edata r) (eversion r)
          (fun d v =>
             set_localstore f
               (set_edgedata (localstore f)
                  (<[N.to_nat localeid := EData d (emodified r) false v]>
                     (edgedata (localstore f))))))
  /\ (forall source target localsource localtarget localeid r,
        global2localvid f !! source = Some localsource ->
        global2localvid f !! target = Some localtarget ->
        LocalStore.find (localstore f) localsource localtarget
        = Ok (true, localeid) ->
        localeid < nedges (localstore f) ->
        edgedata (localstore f) !! N.to_nat localeid = Some r ->
        version_rule (get_edge_if_version_less_than2 f source target) f
          (edata r) (eversion r)
          (fun d v =>
             set_localstore f
               (set_edgedata (localstore f)
                  (<[N.to_nat localeid := EData d (emodified r) false v]>
                     (edgedata (localstore f)))))).
Proof.
  split; [| split].
  - intros. now apply vertex_primitive_rule.
  - intros. now apply edge_primitive_rule.
  - intros. now apply edge_primitive2_rule with localsource localtarget.
Qed.
End primitive_facts.

Lemma version_primitives_follow_rule_witness :
  DistGraph.get_vertex_if_version_less_than Inputs.machine_1 42 0
    (DistGraph.CondStore false (0, 0))
  = Ok (DistGraph.CondStore true (2, 3), Inputs.machine_1)
  /\ DistGraph.get_vertex_if_version_less_than Inputs.machine_1 42 6
       (DistGraph.CondStore true (8, 0))
     = Ok (DistGraph.CondStore false (inhabitant, 0),
           DistGraph.set_localstore Inputs.machine_1
             (LocalStore.set_vertices (DistGraph.localstore Inputs.machine_1)
                (<[N.to_nat 1 := LocalStore.VData 8 false false 6]>
                   (LocalStore.vertices
                      (DistGraph.localstore Inputs.machine_1)))))
  /\ DistGraph.get_vertex_if_version_less_than Inputs.machine_1 42 3
       (DistGraph.CondStore false (0, 0))
     = Ok (DistGraph.CondStore false (inhabitant, 0), Inputs.machine_1)
  /\ DistGraph.get_edge_if_version_less_than Inputs.machine_1 12 4
       (DistGraph.CondStore true (301, 0))
     = Ok (DistGraph.CondStore false (inhabitant, 0),
           DistGraph.set_localstore Inputs.machine_1
             (LocalStore.set_edgedata (DistGraph.localstore Inputs.machine_1)
                (<[N.to_nat 2 := LocalStore.EData 301 false false 4]>
                   (LocalStore.edgedata
                      (DistGraph.localstore Inputs.machine_1)))))
  /\ DistGraph.get_edge_if_version_less_than2 Inputs.machine_1 99 42 4
       (DistGraph.CondStore true (301, 0))
     = Ok (DistGraph.CondStore false (inhabitant, 0),
           DistGraph.set_localstore Inputs.machine_1
             (LocalStore.set_edgedata (DistGraph.localstore Inputs.machine_1)
                (<[N.to_nat 2 := LocalStore.EData 301 false false 4]>
                   (LocalStore.edgedata
                      (DistGraph.localstore Inputs.machine_1))))).
Proof.
  destruct (version_primitives_follow_rule Inputs.machine_1)
    as (Hv & He & He2).
  assert (Hvid : DistGraph.global2localvid Inputs.machine_1 !! 42 = Some 1)
    by (vm_compute; reflexivity).
  assert (Hsrc : DistGraph.global2localvid Inputs.machine_1 !! 99 = Some 2)
    by (vm_compute; reflexivity).
  assert (Heid : DistGraph.global2localeid Inputs.machine_1 !! 12 = Some 2)
    by (vm_compute; reflexivity).
  assert (Hfind : LocalStore.find (DistGraph.localstore Inputs.machine_1) 2 1
                  = Ok (true, 2)) by (vm_compute; reflexivity).
  pose proof (Hv 42 1 (LocalStore.VData 2 false false 3) Hvid
                eq_refl eq_refl) as Rv.
  pose proof (He 12 2 (LocalStore.EData 300 false false 0) Heid
                eq_refl eq_refl) as Re.
  pose proof (He2 99 42 2 1 2 (LocalStore.EData 300 false false 0) Hsrc Hvid
                Hfind eq_refl eq_refl) as Re2.
  split; [apply (Rv 0 (DistGraph.CondStore false (0, 0)) eq_refl);
          reflexivity |].
  split; [apply (Rv 6 (DistGraph.CondStore true (8, 0)) eq_refl);
          reflexivity |].
  split; [apply (Rv 3 (DistGraph.CondStore false (0, 0)) eq_refl);
          reflexivity |].
  split; [apply (Re 4 (DistGraph.CondStore true (301, 0)) eq_refl);
          reflexivity |].
  apply (Re2 4 (DistGraph.CondStore true (301, 0)) eq_refl); reflexivity.
Defined.

(** C3 fails as stated: machine 0 holds vertex 42 as a ghost (its recorded
    owner is machine 1, which holds the payload 2), and [get_vertex_data(42)]
    on machine 0 returns the local replica's payload 41 without any RPC. *)
Lemma ghost_vertex_read_from_local_replica :
  DistGraph.is_ghost Inputs.machine_0 42 = Ok true
  /\ DistGraph.globalvid2owner Inputs.machine_0 !! 42 = Some 1
  /\ DistGraph.get_vertex_data 1 Inputs.two_machines 1 42 = Ok (2, [])
  /\ DistGraph.get_vertex_data 1 Inputs.two_machines 0 42 = Ok (41, [])
  /\ DistGraph.get_vertex_data 1 Inputs.two_machines 0 42
     <> Ok (2, [DistGraph.Rpc 0 1 false (DistGraph.call_get_vertex_data 42)]).
Proof.
  repeat split; try (vm_compute; reflexivity).
  vm_compute. discriminate.
Qed.

Lemma get_vertex_data_routing_witness :
  DistGraph.get_vertex_data 1 Inputs.two_machines 0 42 = Ok (41, [])
  /\ DistGraph.get_vertex_data 1 Inputs.two_machines 0 99
     = Ok (9, [DistGraph.Rpc 0 1 false (DistGraph.call_get_vertex_data 99)]).
Proof.
  assert (H0 : Inputs.two_machines !! 0 = Some Inputs.machine_0)
    by (vm_compute; reflexivity).
  assert (H1 : Inputs.two_machines !! 1 = Some Inputs.machine_1)
    by (vm_compute; reflexivity).
  split.
  - apply (proj1 (get_vertex_data_routing 1 Inputs.two_machines 0 42
                    Inputs.machine_0 H0) 1 41);
      vm_compute; reflexivity.
  - apply (proj2 (get_vertex_data_routing 0 Inputs.two_machines 0 99
                    Inputs.machine_0 H0) 1 Inputs.machine_1 2 9);
      solve [exact H1 | vm_compute; reflexivity].
Defined.

(** C7 fails as stated: in canonical numbering, edge 1 ([7 -> 42]) is in
    machine 0's fragment but its target is owned by machine 1, and
    [set_edge_data_from_eid(1, ...)] is fatal; edge 0 ([42 -> 7]) of the
    one-way fragment is local but has no reverse edge, and
    [rev_edge_id(0)] is fatal. *)
Lemma local_edge_operations_can_be_fatal :
  DistGraph.edge_canonical_numbering Inputs.machine_0_canonical = true
  /\ DistGraph.global2localeid Inputs.machine_0_canonical !! 1 = Some 1
  /\ DistGraph.set_edge_data_from_eid 1 Inputs.canonical_machines 0 1 5 false
     = Fatal
  /\ DistGraph.edge_canonical_numbering Inputs.machine_0_one_way = true
  /\ DistGraph.global2localeid Inputs.machine_0_one_way !! 0 = Some 0
  /\ DistGraph.rev_edge_id 1 Inputs.one_way_machines 0 0 = Fatal.
Proof. repeat split; vm_compute; reflexivity. Qed.

Lemma canonical_numbering_routing_witness :
  DistGraph.source 1 Inputs.canonical_machines 0 7 = Fatal
  /\ DistGraph.source 1 Inputs.canonical_machines 0 1 = Ok (7, [])
  /\ DistGraph.set_edge_data_from_eid 1 Inputs.canonical_machines 0 1 5 false
     = Fatal.
Proof.
  assert (H0 : Inputs.canonical_machines !! 0
               = Some Inputs.machine_0_canonical)
    by (vm_compute; reflexivity).
  destruct (canonical_numbering_routing 1 Inputs.canonical_machines 0 7
              Inputs.machine_0_canonical H0 eq_refl) as [Hremote _].
  destruct (canonical_numbering_routing 1 Inputs.canonical_machines 0 1
              Inputs.machine_0_canonical H0 eq_refl) as [_ Hlocal].
  destruct (Hlocal 1 ltac:(vm_compute; reflexivity))
    as (Hsrc & _ & _ & _ & _ & Hset).
  split; [apply Hremote; vm_compute; reflexivity |].
  split; [apply (Hsrc 0 7); vm_compute; reflexivity |].
  apply (Hset 1 1 5 false); [vm_compute; reflexivity.. | discriminate].
Defined.

(** C4: [synchronize_vertex(42, async = true)] on machine 0 issues its
    one-way call and leaves [pending_async_updates] at 0, so
    [wait_for_all_async_syncs()] returns while the request is in flight and
    the replica is still the stale [41]; once the request and the reply have
    been run the reply is merged and the counter, decremented from 0, is
    [2^64 - 1], so a later [wait_for_all_async_syncs()] does not return. *)
Theorem async_synchronize_leaves_counter_unincremented :
  exists w1 w2 w3 a1 a3,
    DistGraph.synchronize_vertex Inputs.quiet_world 0 42 true = Ok w1
    /\ DistGraph.machines w1 !! 0 = Some a1
    /\ DistGraph.pending_async_updates a1 = 0
    /\ DistGraph.network w1
       = [DistGraph.Rpc 0 1 true
            (DistGraph.call_async_get_vertex_if_version_less_than 0 42 0
               (DistGraph.CondStore false (inhabitant, 0)))]
    /\ DistGraph.wait_for_all_async_syncs a1 = Ok tt
    /\ LocalStore.vertex_data (DistGraph.localstore a1) 1 = Ok 41
    /\ DistGraph.deliver w1 = Ok w2
    /\ DistGraph.network w2
       = [DistGraph.Rpc 1 0 true
            (DistGraph.call_reply_vertex_data_and_version 42
               (DistGraph.CondStore true (2, 3)))]
    /\ DistGraph.deliver w2 = Ok w3
    /\ DistGraph.network w3 = []
    /\ DistGraph.machines w3 !! 0 = Some a3
    /\ LocalStore.vertex_data (DistGraph.localstore a3) 1 = Ok 2
    /\ DistGraph.pending_async_updates a3 = SIZE_MAX
    /\ DistGraph.wait_for_all_async_syncs a3 = OutOfFuel.
Proof.
  eexists _, _, _, _, _.
  split; [vm_compute; reflexivity |].
  split; [vm_compute; reflexivity |].
  do 4 (split; [vm_compute; reflexivity |]).
  split; [vm_compute; reflexivity |].
  split; [vm_compute; reflexivity |].
  split; [vm_compute; reflexivity |].
  split; [vm_compute; reflexivity |].
  split; [vm_compute; reflexivity |].
  repeat split; vm_compute; reflexivity.
Qed.

(** ** Message combiners *)

(** C9 fails as stated: with the priorities [2^53], [1] and [1], which are
    exact doubles, [(m1 += m2) += m3] has priority [2^53] and
    [m1 += (m2 += m3)] has priority [2^53 + 2]; [+=] on [sum] is not
    associative. *)
Lemma sum_plus_assign_not_associative :
  Messages.sum_plus_assign
    (Messages.sum_plus_assign (Messages.Sum 0x1p+53) (Messages.Sum 0x1p+0))
    (Messages.Sum 0x1p+0)
  = Messages.Sum 0x1p+53
  /\ Messages.sum_plus_assign (Messages.Sum 0x1p+53)
       (Messages.sum_plus_assign (Messages.Sum 0x1p+0) (Messages.Sum 0x1p+0))
     = Messages.Sum 0x1.0000000000001p+53
  /\ Messages.sum_plus_assign
       (Messages.sum_plus_assign (Messages.Sum 0x1p+53) (Messages.Sum 0x1p+0))
       (Messages.Sum 0x1p+0)
     <> Messages.sum_plus_assign (Messages.Sum 0x1p+53)
          (Messages.sum_plus_assign (Messages.Sum 0x1p+0)
             (Messages.Sum 0x1p+0)).
Proof.
  split; [vm_compute; reflexivity |].
  split; [vm_compute; reflexivity |].
  intros H.
  apply (f_equal (fun m => PrimFloat.ltb 0x1p+53 (Messages.sum_prio m))) in H.
  vm_compute in H. discriminate.
Qed.

(** C9, as the code has it: for [messages::sum], [m1 += m2] makes [m1]'s
    priority the double-precision sum of the two priorities, so combining
    three messages gives [(p1 + p2) + p3] or [p1 + (p2 + p3)] in double
    arithmetic according to the grouping, and the two groupings give the same
    message exactly when double addition gives the same number. *)
Theorem sum_plus_assign_adds_priorities (m1 m2 m3 : Messages.sum) :
  Messages.sum_priority (Messages.sum_plus_assign m1 m2)
  = (Messages.sum_priority m1 + Messages.sum_priority m2)%float
  /\ Messages.sum_priority
       (Messages.sum_plus_assign (Messages.sum_plus_assign m1 m2) m3)
     = ((Messages.sum_priority m1 + Messages.sum_priority m2)
        + Messages.sum_priority m3)%float
  /\ Messages.sum_priority
       (Messages.sum_plus_assign m1 (Messages.sum_plus_assign m2 m3))
     = (Messages.sum_priority m1
        + (Messages.sum_priority m2 + Messages.sum_priority m3))%float
  /\ (Messages.sum_plus_assign (Messages.sum_plus_assign m1 m2) m3
      = Messages.sum_plus_assign m1 (Messages.sum_plus_assign m2 m3)
      <-> ((Messages.sum_priority m1 + Messages.sum_priority m2)
           + Messages.sum_priority m3)%float
          = (Messages.sum_priority m1
             + (Messages.sum_priority m2 + Messages.sum_priority m3))%float).
Proof.
  destruct m1 as [p1], m2 as [p2], m3 as [p3].
  unfold Messages.sum_plus_assign, Messages.sum_priority. simpl.
  repeat split; try reflexivity.
  - intros H. now injection H.
  - intros H. now rewrite H.
Qed.

(** ** The scheduler *)

Section scheduler_facts.
Import Scheduler.
Context {Message : Type}.
Implicit Types s : queued_fifo_scheduler Message.

Lemma test_and_get_stale (m : gmap N Message) vid :
  m !! vid = None -> vertex_map_test_and_get m vid = (None, m).
Proof. intros H. unfold vertex_map_test_and_get. now rewrite H. Qed.

(** C10: when every vertex held by the master queue, by [out_queues[cpuid]]
    and by [in_queues[cpuid]] has no message left in the message map (in
    particular when the three are empty), [get_next(cpuid)] returns [EMPTY]
    after at most one iteration per such entry and one more.  Nothing is
    assumed of the in-queues of the other workers, which may hold scheduled
    vertices; they and the message map are left as they were. *)
Theorem get_next_empty_despite_other_in_queues fuel s cpuid outq inq :
  out_queues s !! N.to_nat cpuid = Some outq ->
  in_queues s !! N.to_nat cpuid = Some inq ->
  Forall (fun vid => messages s !! vid = None)
         (concat (master_queue s) ++ outq ++ inq) ->
  (length (concat (master_queue s) ++ outq ++ inq) < fuel)%nat ->
  exists s',
    get_next fuel s cpuid = Ok (EMPTY, s')
    /\ messages s' = messages s
    /\ forall j, j <> N.to_nat cpuid -> in_queues s' !! j = in_queues s !! j.
Proof.
  revert s outq inq.
  induction fuel as [|fuel IH]; intros s outq inq Hout Hin Hstale Hfuel;
    [lia |].
  destruct s as [msgs master sqs inqs outqs tm]; simpl in *.
  assert (Hlo : cpuid < vec_size outqs).
  { apply lookup_lt_Some in Hout. unfold vec_size. lia. }
  assert (Hli : cpuid < vec_size inqs).
  { apply lookup_lt_Some in Hin. unfold vec_size. lia. }
  unfold mbind, outcome_bind, mret, outcome_ret.
  rewrite (vec_at_lookup _ _ _ Hout), (vec_at_lookup _ _ _ Hin).
  assert (Hlo' : (N.to_nat cpuid < length outqs)%nat)
    by (unfold vec_size in Hlo; lia).
  assert (Hli' : (N.to_nat cpuid < length inqs)%nat)
    by (unfold vec_size in Hli; lia).
  (* an iteration that pops the stale [ret_vid] and goes round again *)
  assert (Hpop : forall queue master0 inq0,
    Forall (fun vid => msgs !! vid = None)
           (concat master0 ++ queue ++ inq0) ->
    (length (concat master0 ++ queue ++ inq0) < fuel)%nat ->
    exists s',
      get_next fuel
        (Sched msgs master0 sqs (<[N.to_nat cpuid := inq0]> inqs)
               (<[N.to_nat cpuid := queue]> outqs) tm) cpuid
      = Ok (EMPTY, s')
      /\ messages s' = msgs
      /\ forall j, j <> N.to_nat cpuid -> in_queues s' !! j = inqs !! j).
  { intros queue master0 inq0 Hst Hlen.
    destruct (IH (Sched msgs master0 sqs (<[N.to_nat cpuid := inq0]> inqs)
                    (<[N.to_nat cpuid := queue]> outqs) tm) queue inq0)
      as (s' & Hs' & Hm & Hj); simpl;
      try (apply list_lookup_insert_eq; assumption); try assumption.
    exists s'. split; [exact Hs' |]. split; [exact Hm |].
    intros j Hne. rewrite (Hj j Hne). simpl.
    apply list_lookup_insert_ne. congruence. }
  (* an iteration that finds nothing to pop *)
  assert (Hnone : forall master0,
    exists s',
      Ok (EMPTY,
          Sched msgs master0 sqs (<[N.to_nat cpuid := []]> inqs)
                (<[N.to_nat cpuid := []]> outqs) tm)
      = Ok (EMPTY (Message := Message), s')
      /\ messages s' = msgs
      /\ forall j, j <> N.to_nat cpuid -> in_queues s' !! j = inqs !! j).
  { intros master0. eexists. split; [reflexivity |]. split; [reflexivity |].
    intros j Hne. simpl. apply list_lookup_insert_ne. congruence. }
  destruct outq as [|v rest].
  - destruct master as [|front master'].
    + destruct inq as [|v rest]; simpl.
      * rewrite !vec_put_in_range by assumption. apply Hnone.
      * rewrite !vec_put_in_range by assumption.
        rewrite test_and_get_stale
          by (simpl in Hstale; now apply Forall_cons in Hstale).
        apply Hpop.
        -- simpl in *. rewrite app_nil_r.
           now apply Forall_cons in Hstale.
        -- simpl in *. rewrite app_nil_r. lia.
    + destruct front as [|v fr].
      * destruct inq as [|v rest]; simpl.
        -- rewrite !vec_put_in_range by assumption. apply Hnone.
        -- rewrite !vec_put_in_range by assumption.
           simpl in Hstale. rewrite Forall_app, Forall_cons in Hstale.
           destruct Hstale as (Hma & Hv & Hrest).
           rewrite test_and_get_stale by assumption.
           apply Hpop.
           ++ rewrite app_nil_r. now apply Forall_app.
           ++ simpl in Hfuel. rewrite !length_app in *. simpl in *. lia.
      * simpl.
        rewrite !vec_put_in_range by assumption.
        simpl in Hstale. rewrite Forall_cons in Hstale.
        destruct Hstale as (Hv & Hrest).
        rewrite test_and_get_stale by assumption.
        apply Hpop.
        -- rewrite !Forall_app in *. tauto.
        -- simpl in Hfuel. rewrite ?length_app in *. simpl in *.
           rewrite ?length_app in *. lia.
  - simpl.
    assert (Hv : msgs !! v = None /\
                 Forall (fun vid => msgs !! vid = None)
                        (concat master ++ rest ++ inq)).
    { rewrite !Forall_app, Forall_cons in *. tauto. }
    destruct Hv as [Hv Hrest].
    assert (Hlen : (length (concat master ++ rest ++ inq) < fuel)%nat).
    { rewrite !length_app in *. simpl in *. lia. }
    destruct master as [|front master']; simpl;
      rewrite !vec_put_in_range by assumption;
      rewrite test_and_get_stale by assumption;
      apply Hpop; assumption.
Qed.
End scheduler_facts.

Lemma get_next_empty_despite_other_in_queues_witness :
  exists s s',
    Inputs.one_pending = Ok s
    /\ Scheduler.in_queues s !! 1%nat = Some [7]
    /\ Scheduler.messages s !! 7 = Some (Messages.Sum 0x1p+0)
    /\ Scheduler.get_next 1 s 0 = Ok (Scheduler.EMPTY, s')
    /\ Scheduler.messages s' = Scheduler.messages s
    /\ Scheduler.in_queues s' !! 1%nat = Some [7].
Proof.
  assert (Hs : exists s, Inputs.one_pending = Ok s
                 /\ Scheduler.out_queues s !! N.to_nat 0 = Some []
                 /\ Scheduler.in_queues s !! N.to_nat 0 = Some []
                 /\ Scheduler.master_queue s = []
                 /\ Scheduler.in_queues s !! 1%nat = Some [7]
                 /\ Scheduler.messages s !! 7 = Some (Messages.Sum 0x1p+0)).
  { eexists. split; [vm_compute; reflexivity |].
    repeat split; vm_compute; reflexivity. }
  destruct Hs as (s & Hs & Hout & Hin & Hmaster & Hother & Hmsg).
  destruct (get_next_empty_despite_other_in_queues 1 s 0 [] [] Hout Hin)
    as (s' & Hnext & Hmsgs & Hins).
  - rewrite Hmaster. constructor.
  - rewrite Hmaster. simpl. lia.
  - exists s, s'. repeat split; try assumption.
    rewrite (Hins 1%nat) by discriminate. exact Hother.
Defined.

(** ** The local store: sorting, searching and the adjacency lists *)

Section adjacency_facts.
Import LocalStore Inputs Invariants.
Context {VertexData EdgeData : Type}.
Implicit Types s : graph_local_store VertexData EdgeData.

(** [edge::operator<] is a strict total order on edges. *)
Ltac edge_order :=
  unfold edge_lt in *; simpl in *;
  repeat match goal with
         | |- context [?a <? ?b] => destruct (N.ltb_spec a b)
         | |- context [?a =? ?b] => destruct (N.eqb_spec a b)
         | H : context [?a <? ?b] |- _ => destruct (N.ltb_spec a b)
         | H : context [?a =? ?b] |- _ => destruct (N.eqb_spec a b)
         end;
  simpl in *; try discriminate; try reflexivity; try lia.

Lemma edge_lt_asym (a b : edge) : edge_lt a b = true -> edge_lt b a = false.
Proof. destruct a, b. intros H. edge_order. Qed.

Lemma edge_le_trans (a b c : edge) :
  edge_lt b a = false -> edge_lt c b = false -> edge_lt c a = false.
Proof. destruct a, b, c. intros H1 H2. edge_order. Qed.

Lemma edge_lt_le_trans (a b c : edge) :
  edge_lt a b = true -> edge_lt c b = false -> edge_lt c a = false.
Proof. destruct a, b, c. intros H1 H2. edge_order. Qed.

Lemma edge_lt_total (a b : edge) :
  edge_lt a b = false -> edge_lt b a = false -> a = b.
Proof.
  destruct a as [a1 a2], b as [b1 b2]. intros H1 H2.
  assert (a1 = b1 /\ a2 = b2) as [-> ->]; [| reflexivity].
  edge_order.
Qed.

Lemma edge_match_eq (e : edge) source target :
  (_source e =? source) && (_target e =? target) = true
  <-> e = Edge source target.
Proof.
  destruct e as [a b]. simpl. rewrite andb_true_iff, !N.eqb_eq.
  split; [intros [-> ->]; reflexivity | intros H; injection H; auto].
Qed.

Lemma key_lookup s eid e :
  edges s !! N.to_nat eid = Some e -> key s eid = e.
Proof. intros H. unfold key. now rewrite H. Qed.

Lemma valid_id_lookup s eid :
  well_sized s -> eid < nedges s ->
  edges s !! N.to_nat eid = Some (key s eid).
Proof.
  intros (He & _) Hlt.
  destruct (vec_lookup_in_range (edges s) eid) as [e Hl]; [lia |].
  now rewrite (key_lookup _ _ _ Hl).
Qed.

Lemma edge_id_less_valid s a b :
  well_sized s -> a < nedges s -> b < nedges s ->
  edge_id_less s a b = Ok (edge_lt (key s a) (key s b)).
Proof.
  intros Hw Ha Hb. unfold edge_id_less.
  apply N.ltb_lt in Ha as Ha', Hb as Hb'. rewrite Ha', Hb'. simpl.
  rewrite (vec_at_lookup _ _ _ (valid_id_lookup s a Hw Ha)). simpl.
  rewrite (vec_at_lookup _ _ _ (valid_id_lookup s b Hw Hb)). reflexivity.
Qed.

Lemma sort_insert_sorts s x sorted :
  well_sized s -> x < nedges s -> Forall (fun eid => eid < nedges s) sorted ->
  exists l,
    sort_insert s x sorted = Ok l
    /\ l ≡ₚ x :: sorted
    /\ (StronglySorted (key_le s) sorted -> StronglySorted (key_le s) l).
Proof.
  intros Hw Hx Hvalid.
  induction Hvalid as [|y rest Hy Hrest IH].
  - exists [x]. split; [reflexivity |]. split; [reflexivity |].
    intros _. repeat constructor.
  - cbn [sort_insert]. rewrite (edge_id_less_valid s x y Hw Hx Hy). simpl.
    destruct (edge_lt (key s x) (key s y)) eqn:Hlt.
    + exists (x :: y :: rest). split; [reflexivity |].
      split; [reflexivity |].
      intros Hs. constructor; [exact Hs |].
      apply StronglySorted_inv in Hs as [_ Hall].
      constructor.
      * unfold key_le. now apply edge_lt_asym.
      * eapply Forall_impl; [exact Hall |]. intros z Hyz. unfold key_le in *.
        now apply edge_lt_le_trans with (key s y).
    + destruct IH as (l & Hl & Hperm & Hsorted). rewrite Hl. simpl.
      exists (y :: l). split; [reflexivity |].
      split; [rewrite Hperm; apply Permutation_swap |].
      intros Hs. apply StronglySorted_inv in Hs as [Hs Hall].
      constructor; [now apply Hsorted |].
      rewrite Hperm. constructor; [exact Hlt | exact Hall].
Qed.

Lemma sort_edge_ids_sorts s l :
  well_sized s -> Forall (fun eid => eid < nedges s) l ->
  exists l',
    sort_edge_ids s l = Ok l' /\ l' ≡ₚ l /\ StronglySorted (key_le s) l'.
Proof.
  intros Hw Hvalid.
  induction Hvalid as [|x rest Hx Hrest IH].
  - exists []. repeat split; constructor.
  - destruct IH as (rest' & Hr & Hperm & Hsorted).
    cbn [sort_edge_ids]. rewrite Hr. simpl.
    destruct (sort_insert_sorts s x rest' Hw Hx) as (l & Hl & Hp & Hs).
    { now rewrite Hperm. }
    exists l. split; [exact Hl |]. split; [| now apply Hs].
    rewrite Hp. now constructor.
Qed.

Lemma sort_all_sorts s ll :
  well_sized s -> Forall (Forall (fun eid => eid < nedges s)) ll ->
  exists ll',
    sort_all s ll = Ok ll'
    /\ Forall2 (fun l l' => l' ≡ₚ l /\ StronglySorted (key_le s) l') ll ll'.
Proof.
  intros Hw Hvalid.
  induction Hvalid as [|l rest Hl Hrest IH].
  - exists []. split; [reflexivity | constructor].
  - destruct IH as (rest' & Hr & Hall).
    destruct (sort_edge_ids_sorts s l Hw Hl) as (l' & Hl' & Hp & Hs).
    cbn [sort_all]. rewrite Hl'. simpl. rewrite Hr. simpl.
    exists (l' :: rest'). split; [reflexivity |].
    constructor; [split; assumption | exact Hall].
Qed.

(** [finalize()] on a store whose adjacency lists hold valid edge ids
    returns; a store that is already finalized is returned as it is, and
    otherwise every [in_edges[v]] and [out_edges[v]] is replaced by a
    rearrangement of itself in which no edge is less, in [(source, target)]
    order, than an edge before it, [finalized] is set, and nothing else
    changes. *)
Theorem finalize_sorts_adjacency s :
  valid_adjacency s ->
  (finalized s = true -> finalize s = Ok s)
  /\ (finalized s = false ->
      exists ins outs,
        finalize s
        = Ok (Store (vertices s) (edgedata s) (edges s) ins outs (vcolors s)
                (nvertices s) (nedges s) true (changeid s))
        /\ Forall2 (fun l l' => l' ≡ₚ l /\ StronglySorted (key_le s) l')
                   (in_edges s) ins
        /\ Forall2 (fun l l' => l' ≡ₚ l /\ StronglySorted (key_le s) l')
                   (out_edges s) outs).
Proof.
  intros (Hw & Hin & Hout). unfold finalize. split.
  - intros ->. reflexivity.
  - intros ->.
    destruct (sort_all_sorts s (in_edges s) Hw Hin) as (ins & Hi & Hins).
    destruct (sort_all_sorts s (out_edges s) Hw Hout) as (outs & Ho & Houts).
    exists ins, outs. rewrite Hi. simpl. rewrite Ho. simpl.
    repeat split; assumption.
Qed.

Lemma bind_Ok {A B} (m : outcome A) (f : A -> outcome B) (b : B) :
  (x ← m; f x) = Ok b -> exists a, m = Ok a /\ f a = Ok b.
Proof. destruct m; try discriminate. intros H. now exists a. Qed.

Lemma assert_Ok (c : bool) (u : unit) : assert c = Ok u -> c = true.
Proof. now destruct c. Qed.

Lemma vec_at_Ok {A} (vec : list A) (i : N) (x : A) :
  vec_at vec i = Ok x -> vec !! N.to_nat i = Some x.
Proof.
  unfold vec_at. destruct (vec !! N.to_nat i); [| discriminate].
  now intros [= ->].
Qed.

Lemma create_store_valid nv ne fresh_v fresh_e :
  valid_adjacency (create_store (VertexData := VertexData)
                     (EdgeData := EdgeData) nv ne fresh_v fresh_e new_store).
Proof.
  split; [apply create_store_well_sized |].
  unfold create_store, vec_resize; simpl.
  rewrite !take_nil, !app_nil_l.
  split; apply Forall_replicate; constructor.
Qed.

Lemma add_edge_valid s eid source target s' :
  valid_adjacency s -> add_edge s eid source target = Ok s' ->
  valid_adjacency s'
  /\ nvertices s' = nvertices s /\ nedges s' = nedges s.
Proof.
  intros (Hw & Hin & Hout) H.
  destruct (N.eq_dec source target) as [->|Hne];
    [rewrite add_edge_fatal in H by auto; discriminate |].
  destruct (N.lt_ge_cases source (nvertices s)) as [Hs|Hs];
    [| rewrite add_edge_fatal in H by auto; discriminate].
  destruct (N.lt_ge_cases target (nvertices s)) as [Ht|Ht];
    [| rewrite add_edge_fatal in H by auto; discriminate].
  destruct (N.lt_ge_cases eid (nedges s)) as [Hid|Hid];
    [| rewrite add_edge_fatal in H by auto; discriminate].
  pose proof (add_edge_well_sized s eid source target s' Hw H) as Hw'.
  destruct (add_edge_records s eid source target Hw Hne Hs Ht Hid)
    as (ins & outs & Hins & Houts & Heq).
  rewrite Heq in H. injection H as <-. simpl.
  split; [| split; reflexivity].
  split; [exact Hw' |]. simpl. split.
  - apply Forall_insert; [exact Hin |].
    apply Forall_app. split; [| repeat constructor; exact Hid].
    exact (Forall_lookup_1 _ _ _ _ Hin Hins).
  - apply Forall_insert; [exact Hout |].
    apply Forall_app. split; [| repeat constructor; exact Hid].
    exact (Forall_lookup_1 _ _ _ _ Hout Houts).
Qed.

Lemma add_edges_valid s calls s' :
  valid_adjacency s -> add_edges s calls = Ok s' ->
  valid_adjacency s'
  /\ nvertices s' = nvertices s /\ nedges s' = nedges s.
Proof.
  revert s. induction calls as [|[[eid source] target] rest IH];
    intros s Hv H.
  - injection H as <-. auto.
  - cbn [add_edges] in H. apply bind_Ok in H as (s1 & H1 & Hrest).
    destruct (add_edge_valid _ _ _ _ _ Hv H1) as (Hv1 & Hnv & Hne).
    destruct (IH s1 Hv1 Hrest) as (Hv' & Hnv' & Hne').
    split; [exact Hv' |]. split; congruence.
Qed.

(** A store built by [create_store] on a new store and any sequence of
    [add_edge] calls that all return keeps the vertex and edge counts it was
    created with, keeps [edges], [in_edges] and [out_edges] at those sizes,
    and holds only edge ids below [nedges] in its adjacency lists. *)
Theorem built_store_has_valid_adjacency nv ne fresh_v fresh_e calls s :
  add_edges (create_store (VertexData := VertexData) (EdgeData := EdgeData)
               nv ne fresh_v fresh_e new_store) calls = Ok s ->
  valid_adjacency s /\ nvertices s = nv /\ nedges s = ne.
Proof.
  intros H.
  exact (add_edges_valid _ _ _ (create_store_valid nv ne fresh_v fresh_e) H).
Qed.

Lemma linear_search_sound s vec source target e :
  linear_search s vec source target = Ok (true, e) ->
  e ∈ vec /\ edges s !! N.to_nat e = Some (Edge source target).
Proof.
  induction vec as [|eid rest IH]; [discriminate |].
  cbn [linear_search]. intros H.
  apply bind_Ok in H as (u & _ & H).
  apply bind_Ok in H as (ed & Hed & H). apply vec_at_Ok in Hed.
  destruct ((_source ed =? source) && (_target ed =? target)) eqn:Hm.
  - injection H as <-. split; [apply list_elem_of_here |].
    apply edge_match_eq in Hm. now subst.
  - destruct (IH H) as [Hin He].
    split; [now apply list_elem_of_further | exact He].
Qed.

Lemma binary_search_loop_sound fuel s vec source target first last idx :
  binary_search_loop fuel s vec source target first last = Ok idx ->
  idx = SIZE_MAX
  \/ exists eid,
       vec !! N.to_nat idx = Some eid
       /\ edges s !! N.to_nat eid = Some (Edge source target).
Proof.
  revert first last.
  induction fuel as [|fuel IH]; intros first last; cbn [binary_search_loop].
  - destruct (first <=? last); [discriminate | intros [= <-]; now left].
  - destruct (first <=? last); [| intros [= <-]; now left].
    intros H.
    apply bind_Ok in H as (u & _ & H).
    apply bind_Ok in H as (eid & Heid & H). apply vec_at_Ok in Heid.
    apply bind_Ok in H as (ed & Hed & H). apply vec_at_Ok in Hed.
    destruct ((_source ed =? source) && (_target ed =? target)) eqn:Hm.
    + injection H as <-. right. exists eid. split; [exact Heid |].
      apply edge_match_eq in Hm. now subst.
    + destruct (first =? last); [injection H as <-; now left |].
      destruct (edge_lt (Edge source target) (Edge (_source ed) (_target ed))).
      * apply bind_Ok in H as (u' & _ & H). exact (IH _ _ H).
      * exact (IH _ _ H).
Qed.

Lemma find_sound_in s source target ins outs e :
  in_edges s !! N.to_nat target = Some ins ->
  out_edges s !! N.to_nat source = Some outs ->
  vec_size ins < UINT64_MOD -> vec_size outs < UINT64_MOD ->
  find s source target = Ok (true, e) ->
  e ∈ (if vec_size ins <? vec_size outs then ins else outs)
  /\ edges s !! N.to_nat e = Some (Edge source target).
Proof.
  intros Hins Houts Hbi Hbo. unfold find.
  unfold mbind at 1, outcome_bind at 1.
  rewrite (vec_at_lookup _ _ _ Hins).
  destruct (vec_size ins =? 0); [discriminate |].
  unfold mbind at 1, outcome_bind at 1.
  rewrite (vec_at_lookup _ _ _ Houts).
  destruct (vec_size outs =? 0); [discriminate |].
  assert (Hbin : forall vec,
    vec_size vec < UINT64_MOD ->
    (index ← binary_search s vec source target;
     if index <? vec_size vec
     then eid ← vec_at vec index; mret (true, eid)
     else mret (false, UINT32_MAX)) = Ok (true, e) ->
    e ∈ vec /\ edges s !! N.to_nat e = Some (Edge source target)).
  { intros vec Hb H. apply bind_Ok in H as (index & Hidx & H).
    unfold binary_search in Hidx. apply bind_Ok in Hidx as (u & _ & Hidx).
    destruct (N.ltb_spec index (vec_size vec)) as [Hlt|]; [| discriminate].
    apply bind_Ok in H as (eid & Heid & H). apply vec_at_Ok in Heid.
    injection H as ->.
    destruct (binary_search_loop_sound _ _ _ _ _ _ _ _ Hidx)
      as [-> | (eid' & Heid' & He)].
    - unfold SIZE_MAX, UINT64_MOD in *. lia.
    - rewrite Heid in Heid'. injection Heid' as <-.
      split; [| exact He]. now apply list_elem_of_lookup_2 in Heid. }
  destruct (finalized s).
  - destruct (vec_size ins <? vec_size outs); now apply Hbin.
  - destruct (vec_size ins <? vec_size outs); apply linear_search_sound.
Qed.

(** [find(source, target)] never reports a wrong edge: whether the store is
    finalized or not, a result [(true, e)] names an edge id [e] taken from
    the searched list (the shorter of [in_edges[target]] and
    [out_edges[source]]) with [edges[e] = (source, target)].  The two lists
    have sizes a [size_t] can hold. *)
Theorem find_reports_only_matching_edges s source target ins outs e :
  in_edges s !! N.to_nat target = Some ins ->
  out_edges s !! N.to_nat source = Some outs ->
  vec_size ins < UINT64_MOD -> vec_size outs < UINT64_MOD ->
  find s source target = Ok (true, e) ->
  e ∈ (if vec_size ins <? vec_size outs then ins else outs)
  /\ edges s !! N.to_nat e = Some (Edge source target).
Proof. apply find_sound_in. Qed.

Lemma find_Ok_lists s source target r :
  find s source target = Ok r ->
  exists ins, in_edges s !! N.to_nat target = Some ins
    /\ (ins = [] \/ exists outs, out_edges s !! N.to_nat source = Some outs).
Proof.
  unfold find. intros H.
  apply bind_Ok in H as (ins & Hins & H). apply vec_at_Ok in Hins.
  exists ins. split; [exact Hins |].
  destruct ins as [|i ins']; [now left | right].
  change (vec_size (i :: ins') =? 0) with false in H.
  apply bind_Ok in H as (outs & Houts & _). apply vec_at_Ok in Houts.
  now exists outs.
Qed.

Lemma edge_id_sound s source target e :
  sizes_fit s ->
  edge_id s source target = Ok e ->
  edges s !! N.to_nat e = Some (Edge source target).
Proof.
  intros [Hfi Hfo] H. unfold edge_id in H.
  apply bind_Ok in H as ([found e'] & Hfind & H). simpl in H.
  apply bind_Ok in H as (u & Hfound & H). apply assert_Ok in Hfound.
  apply bind_Ok in H as (u' & _ & H). injection H as <-. subst found.
  destruct (find_Ok_lists _ _ _ _ Hfind) as (ins & Hins & Hcase).
  destruct Hcase as [-> | (outs & Houts)].
  - unfold find in Hfind. rewrite (vec_at_lookup _ _ _ Hins) in Hfind.
    discriminate.
  - refine (proj2 (find_sound_in s source target ins outs e' Hins Houts
                     _ _ Hfind)).
    + exact (Forall_lookup_1 _ _ _ _ Hfi Hins).
    + exact (Forall_lookup_1 _ _ _ _ Hfo Houts).
Qed.

(** [rev_edge_id(eid)] never returns anything but a reverse edge: when it
    returns [r], [edges[r]] is the edge from the target of [eid] to the
    source of [eid] (so [rev_edge_id(r)], when it returns, names an edge
    with the endpoints of [eid]). *)
Theorem rev_edge_id_returns_reverse s eid r :
  sizes_fit s ->
  rev_edge_id s eid = Ok r ->
  exists e,
    edges s !! N.to_nat eid = Some e
    /\ edges s !! N.to_nat r = Some (Edge (_target e) (_source e))
    /\ forall r',
         rev_edge_id s r = Ok r' ->
         edges s !! N.to_nat r' = Some (Edge (_source e) (_target e)).
Proof.
  intros Hfit H. unfold rev_edge_id in H.
  apply bind_Ok in H as (u & _ & H).
  apply bind_Ok in H as (e & He & H). apply vec_at_Ok in He.
  exists e. split; [exact He |].
  pose proof (edge_id_sound _ _ _ _ Hfit H) as Hr.
  split; [exact Hr |].
  intros r' H'. unfold rev_edge_id in H'.
  apply bind_Ok in H' as (u' & _ & H').
  apply bind_Ok in H' as (e' & He' & H'). apply vec_at_Ok in He'.
  rewrite Hr in He'. injection He' as <-. simpl in H'.
  exact (edge_id_sound _ _ _ _ Hfit H').
Qed.

Lemma StronglySorted_lookup_le s (l : list N) i j a b :
  StronglySorted (key_le s) l -> (i < j)%nat ->
  l !! i = Some a -> l !! j = Some b -> key_le s a b.
Proof.
  intros Hs. revert i j.
  induction Hs as [|x l Hs IH Hall]; intros i j Hij Ha Hb; [discriminate |].
  destruct j as [|j]; [lia |].
  destruct i as [|i].
  - injection Ha as <-. simpl in Hb.
    exact (Forall_lookup_1 _ _ _ _ Hall Hb).
  - simpl in Ha, Hb. apply (IH i j); [lia | assumption..].
Qed.

Lemma edge_eta (e : edge) : Edge (_source e) (_target e) = e.
Proof. now destruct e. Qed.

Lemma binary_search_loop_finds fuel s vec source target first last k eidk :
  well_sized s ->
  Forall (fun eid => eid < nedges s) vec ->
  StronglySorted (key_le s) vec ->
  first <= k <= last -> last < vec_size vec ->
  vec !! N.to_nat k = Some eidk ->
  key s eidk = Edge source target ->
  (N.to_nat (last + 1 - first) <= fuel)%nat ->
  exists idx eid,
    binary_search_loop fuel s vec source target first last = Ok idx
    /\ idx < vec_size vec
    /\ vec !! N.to_nat idx = Some eid
    /\ key s eid = Edge source target.
Proof.
  intros Hw Hvalid Hsorted. revert first last.
  induction fuel as [|fuel IH]; intros first last Hk Hlast Hvk Hkey Hfuel;
    [lia |].
  cbn [binary_search_loop].
  destruct (N.leb_spec first last) as [Hle|]; [| lia].
  assert (Hmid : first <= (first + last) / 2 <= last).
  { split.
    - apply N.div_le_lower_bound; lia.
    - apply N.Div0.div_le_upper_bound; lia. }
  set (mid := (first + last) / 2) in *.
  assert (Hmlt : mid < vec_size vec) by lia.
  apply N.ltb_lt in Hmlt as Hmltb. rewrite Hmltb. simpl.
  destruct (vec_lookup_in_range vec mid Hmlt) as [em Hem].
  rewrite (vec_at_lookup _ _ _ Hem). simpl.
  pose proof (Forall_lookup_1 _ _ _ _ Hvalid Hem) as Hemv. simpl in Hemv.
  rewrite (vec_at_lookup _ _ _ (valid_id_lookup s em Hw Hemv)). simpl.
  destruct ((_source (key s em) =? source) && (_target (key s em) =? target))
    eqn:Hm.
  { exists mid, em. repeat split; try assumption.
    now apply edge_match_eq in Hm. }
  assert (Hnm : key s em <> Edge source target).
  { intros Heq. apply edge_match_eq in Heq. congruence. }
  assert (Hkm : k <> mid).
  { intros ->. rewrite Hvk in Hem. injection Hem as <-. contradiction. }
  destruct (N.eqb_spec first last) as [Heq|Hfl]; [lia |].
  rewrite edge_eta.
  destruct (edge_lt (Edge source target) (key s em)) eqn:Hlt.
  - assert (Hlow : k < mid).
    { destruct (N.lt_ge_cases k mid) as [|Hge]; [assumption | exfalso].
      assert (Hord : key_le s em eidk).
      { apply (StronglySorted_lookup_le s vec (N.to_nat mid) (N.to_nat k));
          [assumption | lia | assumption..]. }
      unfold key_le in Hord. rewrite Hkey in Hord. congruence. }
    destruct (N.ltb_spec 0 mid) as [Hpos|]; [| lia]. simpl.
    apply IH; [lia | lia | assumption.. | lia].
  - assert (Hhigh : mid < k).
    { destruct (N.lt_ge_cases mid k) as [|Hge]; [assumption | exfalso].
      assert (Hord : key_le s eidk em).
      { apply (StronglySorted_lookup_le s vec (N.to_nat k) (N.to_nat mid));
          [assumption | lia | assumption..]. }
      unfold key_le in Hord. rewrite Hkey in Hord.
      apply Hnm. symmetry. now apply edge_lt_total. }
    apply IH; [lia | lia | assumption.. | lia].
Qed.

Lemma binary_search_finds s vec source target e :
  well_sized s -> finalized s = true ->
  Forall (fun eid => eid < nedges s) vec ->
  StronglySorted (key_le s) vec ->
  vec_size vec < UINT64_MOD ->
  e ∈ vec -> edges s !! N.to_nat e = Some (Edge source target) ->
  exists e',
    (index ← binary_search s vec source target;
     if index <? vec_size vec
     then eid ← vec_at vec index; mret (true, eid)
     else mret (false, UINT32_MAX)) = Ok (true, e')
    /\ edges s !! N.to_nat e' = Some (Edge source target).
Proof.
  intros Hw Hfin Hvalid Hsorted Hfit Hin He.
  apply list_elem_of_lookup_1 in Hin as [k Hk].
  assert (Hklt : (k < length vec)%nat) by now apply lookup_lt_Some in Hk.
  assert (Hbs : binary_search s vec source target
                = binary_search_loop (S (length vec)) s vec source target 0
                    ((vec_size vec + SIZE_MAX) mod UINT64_MOD)).
  { unfold binary_search. now rewrite Hfin. }
  rewrite Hbs. clear Hbs.
  assert (Hlast : (vec_size vec + SIZE_MAX) mod UINT64_MOD = vec_size vec - 1).
  { unfold vec_size, SIZE_MAX, UINT64_MOD in *.
    replace (N.of_nat (length vec) + 18446744073709551615)
      with ((N.of_nat (length vec) - 1) + 1 * 18446744073709551616) by lia.
    rewrite N.Div0.mod_add. apply N.mod_small. lia. }
  rewrite Hlast.
  destruct (binary_search_loop_finds (S (length vec)) s vec source target
              0 (vec_size vec - 1) (N.of_nat k) e)
    as (idx & eid & Hloop & Hidx & Heid & Hkey);
    try assumption; unfold vec_size in *;
    [lia | lia | now rewrite Nat2N.id | now apply key_lookup | lia |].
  rewrite Hloop. simpl. apply N.ltb_lt in Hidx as Hidxb. rewrite Hidxb.
  rewrite (vec_at_lookup _ _ _ Heid). simpl.
  exists eid. split; [reflexivity |].
  pose proof (Forall_lookup_1 _ _ _ _ Hvalid Heid) as Hv. simpl in Hv.
  rewrite (valid_id_lookup s eid Hw Hv). now rewrite Hkey.
Qed.

Lemma find_present_finalized s source target ins outs e :
  valid_adjacency s -> finalized s = true ->
  in_edges s !! N.to_nat target = Some ins ->
  out_edges s !! N.to_nat source = Some outs ->
  StronglySorted (key_le s) ins -> StronglySorted (key_le s) outs ->
  vec_size ins < UINT64_MOD -> vec_size outs < UINT64_MOD ->
  e ∈ ins -> e ∈ outs ->
  edges s !! N.to_nat e = Some (Edge source target) ->
  exists e',
    find s source target = Ok (true, e')
    /\ edges s !! N.to_nat e' = Some (Edge source target).
Proof.
  intros (Hw & Hvi & Hvo) Hfin Hins Houts Hsi Hso Hbi Hbo Hei Heo He.
  unfold find. unfold mbind at 1, outcome_bind at 1.
  rewrite (vec_at_lookup _ _ _ Hins).
  destruct ins as [|i ins']; [now apply elem_of_nil in Hei |].
  change (vec_size (i :: ins') =? 0) with false. cbv iota.
  unfold mbind at 1, outcome_bind at 1.
  rewrite (vec_at_lookup _ _ _ Houts).
  destruct outs as [|o outs']; [now apply elem_of_nil in Heo |].
  change (vec_size (o :: outs') =? 0) with false. cbv iota.
  rewrite Hfin.
  destruct (vec_size (i :: ins') <? vec_size (o :: outs')).
  - apply (binary_search_finds _ _ _ _ e); try assumption.
    exact (Forall_lookup_1 _ _ _ _ Hvi Hins).
  - apply (binary_search_finds _ _ _ _ e); try assumption.
    exact (Forall_lookup_1 _ _ _ _ Hvo Houts).
Qed.

(** On a finalized store whose adjacency lists hold valid edge ids, when
    [in_edges[target]] and [out_edges[source]] are in the order [finalize()]
    leaves them in and both hold the id of an edge from [source] to
    [target], [find(source, target)] returns [(true, e)] with
    [edges[e] = (source, target)]: the binary search reaches no failing
    assertion when the edge is there. *)
Theorem find_finds_present_edge_when_finalized s source target ins outs e :
  valid_adjacency s -> finalized s = true ->
  in_edges s !! N.to_nat target = Some ins ->
  out_edges s !! N.to_nat source = Some outs ->
  StronglySorted (key_le s) ins -> StronglySorted (key_le s) outs ->
  vec_size ins < UINT64_MOD -> vec_size outs < UINT64_MOD ->
  e ∈ ins -> e ∈ outs ->
  edges s !! N.to_nat e = Some (Edge source target) ->
  exists e',
    find s source target = Ok (true, e')
    /\ edges s !! N.to_nat e' = Some (Edge source target).
Proof.
  intros Hvalid Hfin Hins Houts Hsi Hso Hbi Hbo Hei Heo He.
  exact (find_present_finalized s source target ins outs e
           Hvalid Hfin Hins Houts Hsi Hso Hbi Hbo Hei Heo He).
Qed.
End adjacency_facts.

Ltac valid_store :=
  repeat split; try reflexivity;
  repeat (constructor; try reflexivity).

Lemma finalize_sorts_adjacency_witness :
  exists s,
    Inputs.fan_store = Ok s
    /\ Invariants.valid_adjacency s
    /\ exists ins outs,
         LocalStore.finalize s
         = Ok (LocalStore.Store (LocalStore.vertices s)
                 (LocalStore.edgedata s) (LocalStore.edges s) ins outs
                 (LocalStore.vcolors s) (LocalStore.nvertices s)
                 (LocalStore.nedges s) true (LocalStore.changeid s))
         /\ Forall2 (fun l l' =>
                       l' ≡ₚ l /\ StronglySorted (Invariants.key_le s) l')
                    (LocalStore.in_edges s) ins
         /\ Forall2 (fun l l' =>
                       l' ≡ₚ l /\ StronglySorted (Invariants.key_le s) l')
                    (LocalStore.out_edges s) outs.
Proof.
  eexists. split; [vm_compute; reflexivity |].
  match goal with |- Invariants.valid_adjacency ?s /\ _ =>
    assert (Hv : Invariants.valid_adjacency s) by valid_store
  end.
  split; [exact Hv |].
  exact (proj2 (finalize_sorts_adjacency _ Hv) eq_refl).
Defined.

Lemma built_store_has_valid_adjacency_witness :
  exists s,
    Invariants.add_edges
      (LocalStore.create_store 4 4 Inputs.zero_v Inputs.zero_e
         LocalStore.new_store)
      [(0, 1, 2); (1, 1, 3); (2, 2, 0); (3, 3, 0)] = Ok s
    /\ Invariants.valid_adjacency s
    /\ LocalStore.nvertices s = 4 /\ LocalStore.nedges s = 4.
Proof.
  eexists. split; [vm_compute; reflexivity |].
  apply (built_store_has_valid_adjacency 4 4 Inputs.zero_v Inputs.zero_e
           [(0, 1, 2); (1, 1, 3); (2, 2, 0); (3, 3, 0)]).
  vm_compute. reflexivity.
Defined.

Lemma find_reports_only_matching_edges_witness :
  exists s,
    Inputs.fan_store_finalized = Ok s
    /\ LocalStore.find s 1 3 = Ok (true, 1)
    /\ 1 ∈ (if vec_size [1] <? vec_size [0; 1] then [1] else [0; 1])
    /\ LocalStore.edges s !! N.to_nat 1 = Some (LocalStore.Edge 1 3).
Proof.
  eexists. split; [vm_compute; reflexivity |].
  split; [vm_compute; reflexivity |].
  apply (find_reports_only_matching_edges _ 1 3 [1] [0; 1] 1);
    vm_compute; reflexivity.
Defined.

Lemma rev_edge_id_returns_reverse_witness :
  Invariants.sizes_fit (DistGraph.localstore Inputs.machine_0)
  /\ LocalStore.rev_edge_id (DistGraph.localstore Inputs.machine_0) 0 = Ok 1
  /\ exists e,
       LocalStore.edges (DistGraph.localstore Inputs.machine_0) !! N.to_nat 0
       = Some e
       /\ LocalStore.edges (DistGraph.localstore Inputs.machine_0)
            !! N.to_nat 1
          = Some (LocalStore.Edge (LocalStore._target e)
                    (LocalStore._source e))
       /\ forall r',
            LocalStore.rev_edge_id (DistGraph.localstore Inputs.machine_0) 1
            = Ok r' ->
            LocalStore.edges (DistGraph.localstore Inputs.machine_0)
              !! N.to_nat r'
            = Some (LocalStore.Edge (LocalStore._source e)
                      (LocalStore._target e)).
Proof.
  assert (Hfit : Invariants.sizes_fit (DistGraph.localstore Inputs.machine_0))
    by valid_store.
  split; [exact Hfit |].
  split; [vm_compute; reflexivity |].
  apply (rev_edge_id_returns_reverse _ 0 1 Hfit).
  vm_compute. reflexivity.
Defined.

Lemma find_finds_present_edge_when_finalized_witness :
  exists s,
    Inputs.fan_store_finalized = Ok s
    /\ Invariants.valid_adjacency s
    /\ exists e',
         LocalStore.find s 1 3 = Ok (true, e')
         /\ LocalStore.edges s !! N.to_nat e' = Some (LocalStore.Edge 1 3).
Proof.
  eexists. split; [vm_compute; reflexivity |].
  match goal with |- Invariants.valid_adjacency ?s /\ _ =>
    assert (Hv : Invariants.valid_adjacency s) by valid_store
  end.
  split; [exact Hv |].
  apply (find_finds_present_edge_when_finalized _ 1 3 [1] [0; 1] 1 Hv);
    try (vm_compute; reflexivity);
    repeat (constructor; try reflexivity).
Defined.

(** ** Colouring *)

Section coloring_facts.
Import LocalStore Inputs Invariants.
Context {VertexData EdgeData : Type}.
Implicit Types s : graph_local_store VertexData EdgeData.

Lemma source_key s eid :
  well_sized s -> eid < nedges s ->
  source s eid = Ok (_source (key s eid)).
Proof.
  intros Hw Hlt. unfold source.
  apply N.ltb_lt in Hlt as Hb. rewrite Hb. simpl.
  rewrite (vec_at_lookup _ _ _ (valid_id_lookup s eid Hw Hlt)).
  reflexivity.
Qed.

Lemma color_color_of s v :
  vec_size (vcolors s) = nvertices s -> v < nvertices s ->
  color s v = Ok (color_of s v).
Proof.
  intros Hc Hlt. unfold color, color_of.
  apply N.ltb_lt in Hlt as Hb. rewrite Hb. simpl.
  destruct (vec_lookup_in_range (vcolors s) v) as [c Hv]; [lia |].
  rewrite (vec_at_lookup _ _ _ Hv), Hv. reflexivity.
Qed.

Lemma no_neighbor_has_color_spec s c ins :
  well_sized s -> vec_size (vcolors s) = nvertices s ->
  Forall (fun eid => eid < nedges s) ins ->
  Forall (fun eid => _source (key s eid) < nvertices s) ins ->
  exists b,
    no_neighbor_has_color s c ins = Ok b
    /\ (b = true <->
        Forall (fun eid => color_of s (_source (key s eid)) <> c) ins).
Proof.
  intros Hw Hc Hv Hs.
  induction ins as [|eid rest IH].
  - exists true. split; [reflexivity |]. split; [constructor | reflexivity].
  - apply Forall_cons in Hv as [Hv1 Hv2]. apply Forall_cons in Hs as [Hs1 Hs2].
    destruct (IH Hv2 Hs2) as (b & Hb & Hiff).
    cbn [no_neighbor_has_color].
    rewrite (source_key s eid Hw Hv1). simpl.
    rewrite (color_color_of s _ Hc Hs1). simpl.
    destruct (N.eqb_spec c (color_of s (_source (key s eid)))) as [Heq|Hne].
    + exists false. split; [reflexivity |].
      split; [discriminate |].
      intros H. apply Forall_cons in H as [H _]. congruence.
    + exists b. split; [exact Hb |]. rewrite Hiff, Forall_cons.
      split; [intros H; split; [congruence | exact H] | tauto].
Qed.

Lemma valid_coloring_loop_spec s vs :
  colorable s ->
  Forall (fun vid => vid < nvertices s) vs ->
  exists b,
    valid_coloring_loop s vs = Ok b
    /\ (b = true <->
        Forall (fun vid =>
                  forall ins eid,
                    in_edges s !! N.to_nat vid = Some ins -> eid ∈ ins ->
                    color_of s (_source (key s eid)) <> color_of s vid) vs).
Proof.
  intros ((Hw & Hvi & Hvo) & Hc & Hn & Hsrc) Hvs.
  induction vs as [|vid rest IH].
  - exists true. split; [reflexivity |]. split; [constructor | reflexivity].
  - apply Forall_cons in Hvs as [Hv1 Hv2].
    destruct (IH Hv2) as (b & Hb & Hiff).
    cbn [valid_coloring_loop].
    rewrite (color_color_of s vid Hc Hv1). simpl.
    destruct (vec_lookup_in_range (in_edges s) vid) as [ins Hins];
      [destruct Hw as (_ & Hwi & _); lia |].
    unfold in_edge_ids. rewrite (vec_at_lookup _ _ _ Hins). simpl.
    destruct (no_neighbor_has_color_spec s (color_of s vid) ins Hw Hc
                (Forall_lookup_1 _ _ _ _ Hvi Hins)
                (Forall_lookup_1 _ _ _ _ Hsrc Hins)) as (ok & Hok & Hokiff).
    rewrite Hok. simpl.
    destruct ok.
    + exists b. split; [exact Hb |]. rewrite Hiff, Forall_cons.
      split; [| tauto].
      intros H. split; [| exact H].
      intros ins' eid Hins' Hin. rewrite Hins in Hins'.
      injection Hins' as <-.
      assert (Hall := proj1 Hokiff eq_refl).
      rewrite Forall_forall in Hall. exact (Hall eid Hin).
    + exists false. split; [reflexivity |].
      split; [discriminate |].
      intros H. apply Forall_cons in H as [H _].
      assert (Hall : Forall (fun eid =>
                color_of s (_source (key s eid)) <> color_of s vid) ins).
      { apply Forall_forall. intros eid Hin. exact (H ins eid Hins Hin). }
      apply Hokiff in Hall. discriminate.
Qed.

Lemma vertex_range_spec s :
  nvertices s <= UINT32_MOD ->
  exists vs,
    vertex_range s = Ok vs
    /\ forall vid, vid ∈ vs <-> vid < nvertices s.
Proof.
  intros Hn. unfold vertex_range, num_vertices.
  destruct (N.ltb_spec UINT32_MOD (nvertices s)); [lia |].
  eexists. split; [reflexivity |].
  intros vid. rewrite list_elem_of_fmap. split.
  - intros (n & -> & Hin). apply elem_of_seq in Hin. lia.
  - intros Hlt. exists (N.to_nat vid). split; [lia |].
    apply elem_of_seq. lia.
Qed.

(** [valid_coloring()] decides whether the colouring is proper: on a store
    whose adjacency lists, colours and edge sources are in range it
    returns, and it returns [true] exactly when no edge of an [in_edges]
    list has a source with the colour of the list's vertex. *)
Theorem valid_coloring_decides_proper_coloring s :
  colorable s ->
  exists b, valid_coloring s = Ok b /\ (b = true <-> proper_coloring s).
Proof.
  intros Hcol.
  destruct (vertex_range_spec s) as (vs & Hvs & Hrange);
    [exact (N.lt_le_incl _ _ (proj1 (proj2 (proj2 Hcol)))) |].
  destruct (valid_coloring_loop_spec s vs Hcol) as (b & Hb & Hiff).
  { apply Forall_forall. intros vid Hin. now apply Hrange. }
  exists b. unfold valid_coloring. rewrite Hvs. simpl.
  split; [exact Hb |]. rewrite Hiff, Forall_forall. unfold proper_coloring.
  split.
  - intros H vid ins eid Hins Hin.
    refine (H vid _ ins eid Hins Hin).
    apply Hrange. apply lookup_lt_Some in Hins.
    destruct Hcol as ((Hw & _) & _). destruct Hw as (_ & Hwi & _).
    unfold vec_size in Hwi. lia.
  - intros H vid _ ins eid. apply (H vid ins eid).
Qed.

End coloring_facts.

Lemma valid_coloring_decides_proper_coloring_witness :
  exists s,
    Inputs.path_store = Ok s
    /\ Invariants.colorable s
    /\ exists b,
         LocalStore.valid_coloring s = Ok b
         /\ (b = true <-> Invariants.proper_coloring s).
Proof.
  eexists. split; [vm_compute; reflexivity |].
  match goal with |- Invariants.colorable ?s /\ _ =>
    assert (Hc : Invariants.colorable s)
  end.
  { split; [valid_store |].
    split; [reflexivity |]. split; [reflexivity |].
    repeat (constructor; try reflexivity). }
  split; [exact Hc |].
  exact (valid_coloring_decides_proper_coloring _ Hc).
Defined.

(** ** Versioned updates *)

Section update_facts.
Import LocalStore Inputs Invariants.
Context {VertexData EdgeData : Type}.
Implicit Types s : graph_local_store VertexData EdgeData.

Lemma vec_put_lookup {A} (vec : list A) (i : N) (x y : A) :
  vec !! N.to_nat i = Some x ->
  vec_put vec i y = Ok (<[N.to_nat i := y]> vec).
Proof.
  intros H. apply vec_put_in_range. apply lookup_lt_Some in H.
  unfold vec_size. lia.
Qed.

Lemma conditional_update_vertex_at s v d n r :
  v < nvertices s -> vertices s !! N.to_nat v = Some r ->
  conditional_update_vertex s v d n
  = Ok (if vversion r <=? n
        then set_vertices s
               (<[N.to_nat v := VData d false false (n mod VERSION_MOD)]>
                  (vertices s))
        else s).
Proof.
  intros Hv Hr. unfold conditional_update_vertex.
  apply N.ltb_lt in Hv. rewrite Hv. simpl.
  rewrite (vec_at_lookup _ _ _ Hr). simpl.
  destruct (vversion r <=? n); [| reflexivity].
  rewrite (vec_put_lookup _ _ _ _ Hr). reflexivity.
Qed.

Lemma lookup_insert_same {A} (l : list A) (i : nat) (x y : A) :
  l !! i = Some x -> <[i := y]> l !! i = Some y.
Proof.
  intros H. apply list_lookup_insert_eq. now apply lookup_lt_Some in H.
Qed.

(** [conditional_update_vertex] merges by version, whatever the order of
    arrival: two updates of one vertex that carry different versions below
    [2^62] leave the same store (or the same failure) in either order. *)
Theorem conditional_update_vertex_order_independent s v d1 n1 d2 n2 :
  n1 < VERSION_MOD -> n2 < VERSION_MOD -> n1 <> n2 ->
  (s1 ← conditional_update_vertex s v d1 n1;
   conditional_update_vertex s1 v d2 n2)
  = (s2 ← conditional_update_vertex s v d2 n2;
     conditional_update_vertex s2 v d1 n1).
Proof.
  intros H1 H2 Hne.
  destruct (N.ltb_spec v (nvertices s)) as [Hv|Hv].
  2:{ unfold conditional_update_vertex.
      destruct (N.ltb_spec v (nvertices s)); [lia | reflexivity]. }
  destruct (vertices s !! N.to_nat v) as [r|] eqn:Hr.
  2:{ unfold conditional_update_vertex, vec_at.
      destruct (N.ltb_spec v (nvertices s)); [| lia]. simpl.
      rewrite Hr. reflexivity. }
  rewrite (conditional_update_vertex_at s v d1 n1 r Hv Hr),
          (conditional_update_vertex_at s v d2 n2 r Hv Hr).
  simpl.
  rewrite (N.mod_small n1), (N.mod_small n2) by assumption.
  destruct (N.leb_spec (vversion r) n1) as [Hr1|Hr1];
    destruct (N.leb_spec (vversion r) n2) as [Hr2|Hr2].
  - erewrite !conditional_update_vertex_at;
      [| exact Hv | simpl; exact (lookup_insert_same _ _ _ _ Hr)
       | exact Hv | simpl; exact (lookup_insert_same _ _ _ _ Hr)].
    simpl. rewrite (N.mod_small n1), (N.mod_small n2) by assumption.
    destruct (N.leb_spec n1 n2); destruct (N.leb_spec n2 n1); try lia;
      unfold set_vertices; simpl; now rewrite list_insert_insert_eq.
  - erewrite !conditional_update_vertex_at;
      [| exact Hv | exact Hr
       | exact Hv | simpl; exact (lookup_insert_same _ _ _ _ Hr)].
    simpl.
    destruct (N.leb_spec (vversion r) n1); [| lia].
    destruct (N.leb_spec n1 n2); [lia |].
    now rewrite (N.mod_small n1) by assumption.
  - erewrite !conditional_update_vertex_at;
      [| exact Hv | simpl; exact (lookup_insert_same _ _ _ _ Hr)
       | exact Hv | exact Hr].
    simpl.
    destruct (N.leb_spec (vversion r) n2); [| lia].
    destruct (N.leb_spec n2 n1); [lia |].
    now rewrite (N.mod_small n2) by assumption.
  - erewrite !conditional_update_vertex_at;
      [| exact Hv | exact Hr | exact Hv | exact Hr].
    destruct (N.leb_spec (vversion r) n1); [lia |].
    destruct (N.leb_spec (vversion r) n2); [lia |].
    reflexivity.
Qed.

Lemma conditional_update_edge_at s e d n r :
  e < nedges s -> target_lock s e = Ok tt ->
  edgedata s !! N.to_nat e = Some r ->
  conditional_update_edge s e d n
  = Ok (if eversion r <=? n
        then set_edgedata s
               (<[N.to_nat e := EData d false false (n mod VERSION_MOD)]>
                  (edgedata s))
        else s).
Proof.
  intros He Hl Hr. unfold conditional_update_edge.
  apply N.ltb_lt in He. rewrite He. simpl. rewrite Hl. simpl.
  rewrite (vec_at_lookup _ _ _ Hr). simpl.
  destruct (eversion r <=? n); [| reflexivity].
  rewrite (vec_put_lookup _ _ _ _ Hr). reflexivity.
Qed.

(** [conditional_update_edge] merges by version in the same way: two
    updates of one edge that carry different versions below [2^62] leave
    the same store (or the same failure) in either order. *)
Theorem conditional_update_edge_order_independent s e d1 n1 d2 n2 :
  n1 < VERSION_MOD -> n2 < VERSION_MOD -> n1 <> n2 ->
  (s1 ← conditional_update_edge s e d1 n1;
   conditional_update_edge s1 e d2 n2)
  = (s2 ← conditional_update_edge s e d2 n2;
     conditional_update_edge s2 e d1 n1).
Proof.
  intros H1 H2 Hne.
  destruct (N.ltb_spec e (nedges s)) as [He|He].
  2:{ unfold conditional_update_edge.
      destruct (N.ltb_spec e (nedges s)); [lia | reflexivity]. }
  destruct (target_lock s e) as [[]| | |] eqn:Hl.
  2,3,4: unfold conditional_update_edge;
         destruct (N.ltb_spec e (nedges s)); [| lia]; simpl;
         rewrite Hl; reflexivity.
  destruct (edgedata s !! N.to_nat e) as [r|] eqn:Hr.
  2:{ unfold conditional_update_edge, vec_at.
      destruct (N.ltb_spec e (nedges s)); [| lia]. simpl.
      rewrite Hl. simpl. rewrite Hr. reflexivity. }
  rewrite (conditional_update_edge_at s e d1 n1 r He Hl Hr),
          (conditional_update_edge_at s e d2 n2 r He Hl Hr).
  simpl.
  rewrite (N.mod_small n1), (N.mod_small n2) by assumption.
  destruct (N.leb_spec (eversion r) n1) as [Hr1|Hr1];
    destruct (N.leb_spec (eversion r) n2) as [Hr2|Hr2].
  - erewrite !conditional_update_edge_at;
      [| exact He | exact Hl | simpl; exact (lookup_insert_same _ _ _ _ Hr)
       | exact He | exact Hl | simpl; exact (lookup_insert_same _ _ _ _ Hr)].
    simpl. rewrite (N.mod_small n1), (N.mod_small n2) by assumption.
    destruct (N.leb_spec n1 n2); destruct (N.leb_spec n2 n1); try lia;
      unfold set_edgedata; simpl; now rewrite list_insert_insert_eq.
  - erewrite !conditional_update_edge_at;
      [| exact He | exact Hl | exact Hr
       | exact He | exact Hl | simpl; exact (lookup_insert_same _ _ _ _ Hr)].
    simpl.
    destruct (N.leb_spec (eversion r) n1); [| lia].
    destruct (N.leb_spec n1 n2); [lia |].
    now rewrite (N.mod_small n1) by assumption.
  - erewrite !conditional_update_edge_at;
      [| exact He | exact Hl | simpl; exact (lookup_insert_same _ _ _ _ Hr)
       | exact He | exact Hl | exact Hr].
    simpl.
    destruct (N.leb_spec (eversion r) n2); [| lia].
    destruct (N.leb_spec n2 n1); [lia |].
    now rewrite (N.mod_small n2) by assumption.
  - erewrite !conditional_update_edge_at;
      [| exact He | exact Hl | exact Hr | exact He | exact Hl | exact Hr].
    destruct (N.leb_spec (eversion r) n1); [lia |].
    destruct (N.leb_spec (eversion r) n2); [lia |].
    reflexivity.
Qed.

End update_facts.

Lemma conditional_update_vertex_order_independent_witness :
  (s1 ← LocalStore.conditional_update_vertex Inputs.saved_store 1 20 4;
   LocalStore.conditional_update_vertex s1 1 30 6)
  = (s2 ← LocalStore.conditional_update_vertex Inputs.saved_store 1 30 6;
     LocalStore.conditional_update_vertex s2 1 20 4).
Proof.
  apply (conditional_update_vertex_order_independent
           Inputs.saved_store 1 20 4 30 6);
    [reflexivity | reflexivity | discriminate].
Defined.

Lemma conditional_update_edge_order_independent_witness :
  (s1 ← LocalStore.conditional_update_edge Inputs.saved_store 0 20 1;
   LocalStore.conditional_update_edge s1 0 30 6)
  = (s2 ← LocalStore.conditional_update_edge Inputs.saved_store 0 30 6;
     LocalStore.conditional_update_edge s2 0 20 1).
Proof.
  apply (conditional_update_edge_order_independent
           Inputs.saved_store 0 20 1 30 6);
    [reflexivity | reflexivity | discriminate].
Defined.

(** ** The scheduler's queues *)

Section queue_facts.
Import Scheduler Invariants.
Context {Message : Type}.
Context (plus_assign : Message -> Message -> Message).
Implicit Types s : queued_fifo_scheduler Message.

Lemma in_master_cons (front : list N) (master : list (list N)) (x : N) :
  (exists q, q ∈ front :: master /\ x ∈ q)
  <-> x ∈ front \/ exists q, q ∈ master /\ x ∈ q.
Proof.
  split.
  - intros (q & Hq & Hx). apply elem_of_cons in Hq as [-> | Hq].
    + now left.
    + right. now exists q.
  - intros [Hx | (q & Hq & Hx)].
    + exists front. split; [apply list_elem_of_here | exact Hx].
    + exists q. split; [now apply list_elem_of_further | exact Hx].
Qed.

(** One iteration of the loop of [get_next]: the worker's queues and the
    master queue exchange their contents, then the front of the out-queue
    is popped. *)
Lemma get_next_iteration fuel s cpuid outq inq :
  out_queues s !! N.to_nat cpuid = Some outq ->
  in_queues s !! N.to_nat cpuid = Some inq ->
  exists master' out' inq',
    (forall x, pool master' out' inq' x <-> pool (master_queue s) outq inq x)
    /\ (out' = [] -> inq' = [])
    /\ (forall x, x ∈ outq \/ x ∈ inq -> x ∈ out' \/ x ∈ inq')
    /\ length (concat master' ++ out' ++ inq')
       = length (concat (master_queue s) ++ outq ++ inq)
    /\ get_next (S fuel) s cpuid
       = match out' with
         | ret_vid :: queue =>
             let '(got, messages') :=
               vertex_map_test_and_get (messages s) ret_vid in
             let s' := Sched messages' master' (sub_queue_size s)
                         (<[N.to_nat cpuid := inq']> (in_queues s))
                         (<[N.to_nat cpuid := queue]> (out_queues s))
                         (term s) in
             match got with
             | Some ret_msg => Ok (NEW_TASK ret_vid ret_msg, s')
             | None => get_next fuel s' cpuid
             end
         | [] =>
             Ok (EMPTY,
                 Sched (messages s) master' (sub_queue_size s)
                   (<[N.to_nat cpuid := inq']> (in_queues s))
                   (<[N.to_nat cpuid := []]> (out_queues s)) (term s))
         end.
Proof.
  intros Hout Hin.
  destruct s as [msgs master sqs inqs outqs tm]; simpl in *.
  assert (Hlo : cpuid < vec_size outqs).
  { apply lookup_lt_Some in Hout. unfold vec_size. lia. }
  assert (Hli : cpuid < vec_size inqs).
  { apply lookup_lt_Some in Hin. unfold vec_size. lia. }
  unfold mbind, outcome_bind, mret, outcome_ret.
  rewrite (vec_at_lookup _ _ _ Hout), (vec_at_lookup _ _ _ Hin).
  assert (Hgoal : forall master' out' inq' (r : outcome _),
            (forall x, pool master' out' inq' x <-> pool master outq inq x) ->
            (out' = [] -> inq' = []) ->
            (forall x, x ∈ outq \/ x ∈ inq -> x ∈ out' \/ x ∈ inq') ->
            length (concat master' ++ out' ++ inq')
            = length (concat master ++ outq ++ inq) ->
            r = match out' with
                | ret_vid :: queue =>
                    let '(got, messages') :=
                      vertex_map_test_and_get msgs ret_vid in
                    let s' := Sched messages' master' sqs
                                (<[N.to_nat cpuid := inq']> inqs)
                                (<[N.to_nat cpuid := queue]> outqs) tm in
                    match got with
                    | Some ret_msg => Ok (NEW_TASK ret_vid ret_msg, s')
                    | None => get_next fuel s' cpuid
                    end
                | [] =>
                    Ok (EMPTY,
                        Sched msgs master' sqs
                          (<[N.to_nat cpuid := inq']> inqs)
                          (<[N.to_nat cpuid := []]> outqs) tm)
                end ->
            exists master' out' inq',
              (forall x, pool master' out' inq' x <-> pool master outq inq x)
              /\ (out' = [] -> inq' = [])
              /\ (forall x, x ∈ outq \/ x ∈ inq -> x ∈ out' \/ x ∈ inq')
              /\ length (concat master' ++ out' ++ inq')
                 = length (concat master ++ outq ++ inq)
              /\ r = match out' with
                     | ret_vid :: queue =>
                         let '(got, messages') :=
                           vertex_map_test_and_get msgs ret_vid in
                         let s' := Sched messages' master' sqs
                                     (<[N.to_nat cpuid := inq']> inqs)
                                     (<[N.to_nat cpuid := queue]> outqs)
                                     tm in
                         match got with
                         | Some ret_msg => Ok (NEW_TASK ret_vid ret_msg, s')
                         | None => get_next fuel s' cpuid
                         end
                     | [] =>
                         Ok (EMPTY,
                             Sched msgs master' sqs
                               (<[N.to_nat cpuid := inq']> inqs)
                               (<[N.to_nat cpuid := []]> outqs) tm)
                     end).
  { intros master' out' inq' r H1 H2 H3 H4 H5.
    exists master', out', inq'. auto. }
  destruct outq as [|v rest].
  - destruct master as [|front master'].
    + destruct inq as [|v rest]; simpl;
        rewrite !vec_put_in_range by assumption.
      * apply (Hgoal [] [] []); try reflexivity; try tauto.
      * apply (Hgoal [] (v :: rest) []); try reflexivity;
          try discriminate.
        -- unfold pool. intros x. tauto.
        -- intros x. tauto.
        -- simpl. now rewrite app_nil_r.
    + destruct front as [|v fr].
      * destruct inq as [|v rest]; simpl;
          rewrite !vec_put_in_range by assumption.
        -- apply (Hgoal master' [] []); try reflexivity; try tauto.
           unfold pool. intros x.
           rewrite in_master_cons, ?elem_of_nil. tauto.
        -- apply (Hgoal master' (v :: rest) []); try reflexivity;
             try discriminate.
           ++ unfold pool. intros x.
              rewrite in_master_cons, ?elem_of_nil. tauto.
           ++ intros x. tauto.
           ++ simpl. now rewrite app_nil_r.
      * simpl. rewrite !vec_put_in_range by assumption.
        apply (Hgoal master' (v :: fr) inq); try reflexivity;
          try discriminate.
        -- unfold pool. intros x.
           rewrite in_master_cons, ?elem_of_nil. tauto.
        -- intros x. rewrite elem_of_nil. tauto.
        -- cbn [concat]. repeat rewrite length_app. cbn [length]. lia.
  - destruct master as [|front master']; simpl;
      rewrite !vec_put_in_range by assumption.
    + apply (Hgoal [] (v :: rest) inq); try reflexivity; try discriminate;
        try tauto.
    + apply (Hgoal (front :: master') (v :: rest) inq); try reflexivity;
        try discriminate; try tauto.
Qed.

Lemma get_next_Ok_lookups fuel s cpuid r :
  get_next fuel s cpuid = Ok r ->
  exists outq inq,
    out_queues s !! N.to_nat cpuid = Some outq
    /\ in_queues s !! N.to_nat cpuid = Some inq.
Proof.
  destruct fuel as [|fuel]; [discriminate |].
  cbn [get_next]. unfold mbind, outcome_bind, vec_at.
  destruct (out_queues s !! N.to_nat cpuid) as [outq|]; [| discriminate].
  intros H. exists outq.
  destruct (in_queues s !! N.to_nat cpuid) as [inq|].
  - now exists inq.
  - destruct outq, (master_queue s); discriminate.
Qed.

(** What a queue held before the iteration, the queues hold after it,
    the popped vertex apart. *)
Lemma queued_transfer s cpuid outq inq master' out' inq'
    (msgs' : gmap N Message) (P : N -> Prop) :
  out_queues s !! N.to_nat cpuid = Some outq ->
  in_queues s !! N.to_nat cpuid = Some inq ->
  (forall x, P x -> pool (master_queue s) outq inq x ->
             pool master' out' inq' x) ->
  forall x, P x -> queued s x ->
    queued (Sched msgs' master' (sub_queue_size s)
              (<[N.to_nat cpuid := inq']> (in_queues s))
              (<[N.to_nat cpuid := out']> (out_queues s)) (term s)) x.
Proof.
  intros Hout Hin Hpool x HP Hq.
  assert (Hlo : (N.to_nat cpuid < length (out_queues s))%nat)
    by now apply lookup_lt_Some in Hout.
  assert (Hli : (N.to_nat cpuid < length (in_queues s))%nat)
    by now apply lookup_lt_Some in Hin.
  assert (Hcase : pool (master_queue s) outq inq x
                  \/ (exists j q, j <> N.to_nat cpuid
                        /\ in_queues s !! j = Some q /\ x ∈ q)
                  \/ (exists j q, j <> N.to_nat cpuid
                        /\ out_queues s !! j = Some q /\ x ∈ q)).
  { unfold pool. destruct Hq as [Hm | [(j & q & Hj & Hx) | (j & q & Hj & Hx)]].
    - left. right. right. exact Hm.
    - destruct (decide (j = N.to_nat cpuid)) as [-> | Hne].
      + left. right. left. congruence.
      + right. left. now exists j, q.
    - destruct (decide (j = N.to_nat cpuid)) as [-> | Hne].
      + left. left. congruence.
      + right. right. now exists j, q. }
  unfold queued. simpl.
  destruct Hcase as [Hp | [(j & q & Hne & Hj & Hx) | (j & q & Hne & Hj & Hx)]].
  - destruct (Hpool x HP Hp) as [Ho | [Hi | Hm]].
    + right. right. exists (N.to_nat cpuid), out'.
      split; [now apply list_lookup_insert_eq | exact Ho].
    + right. left. exists (N.to_nat cpuid), inq'.
      split; [now apply list_lookup_insert_eq | exact Hi].
    + left. exact Hm.
  - right. left. exists j, q.
    split; [now rewrite list_lookup_insert_ne | exact Hx].
  - right. right. exists j, q.
    split; [now rewrite list_lookup_insert_ne | exact Hx].
Qed.

Lemma pool_queued s cpuid outq inq x :
  out_queues s !! N.to_nat cpuid = Some outq ->
  in_queues s !! N.to_nat cpuid = Some inq ->
  pool (master_queue s) outq inq x -> queued s x.
Proof.
  intros Hout Hin [Ho | [Hi | Hm]]; unfold queued.
  - right. right. now exists (N.to_nat cpuid), outq.
  - right. left. now exists (N.to_nat cpuid), inq.
  - now left.
Qed.

(** [get_next] hands out what was scheduled, once: when it returns
    [NEW_TASK] with [ret_vid] and [ret_msg], the vertex was held by a queue
    the worker reads, [ret_msg] is the message the map held for it, that
    entry is removed from the map and no other entry is changed. *)
Theorem get_next_takes_message_from_map fuel s cpuid ret_vid ret_msg s' :
  get_next fuel s cpuid = Ok (NEW_TASK ret_vid ret_msg, s') ->
  messages s !! ret_vid = Some ret_msg
  /\ messages s' = delete ret_vid (messages s)
  /\ queued s ret_vid.
Proof.
  revert s. induction fuel as [|fuel IH]; intros s H; [discriminate |].
  destruct (get_next_Ok_lookups _ _ _ _ H) as (outq & inq & Hout & Hin).
  destruct (get_next_iteration fuel s cpuid outq inq Hout Hin)
    as (master' & out' & inq' & Hpool & Hempty & _ & _ & Heq).
  rewrite Heq in H. clear Heq.
  destruct out' as [|v queue]; [discriminate |].
  assert (Hv : queued s v).
  { apply (pool_queued s cpuid outq inq v Hout Hin).
    apply Hpool. left. apply list_elem_of_here. }
  unfold vertex_map_test_and_get in H.
  destruct (messages s !! v) as [msg|] eqn:Hmsg.
  - injection H as -> -> <-. simpl. repeat split; assumption.
  - destruct (IH _ H) as (Hm & Hd & Hq). simpl in Hm, Hd.
    repeat split; try assumption.
    destruct (decide (ret_vid = v)) as [-> | Hne]; [exact Hv |].
    assert (Hback : forall x,
              pool master' queue inq' x -> pool (master_queue s) outq inq x).
    { intros x Hx. apply Hpool. unfold pool in *.
      destruct Hx as [Hx | Hx]; [left; now apply list_elem_of_further |].
      now right. }
    clear IH H Hm Hd.
    assert (Hlo : (N.to_nat cpuid < length (out_queues s))%nat)
      by now apply lookup_lt_Some in Hout.
    assert (Hli : (N.to_nat cpuid < length (in_queues s))%nat)
      by now apply lookup_lt_Some in Hin.
    unfold queued in Hq. simpl in Hq.
    destruct Hq as [Hq | [(j & q & Hj & Hx) | (j & q & Hj & Hx)]].
    + apply (pool_queued s cpuid outq inq _ Hout Hin).
      apply Hback. right. right. exact Hq.
    + destruct (decide (j = N.to_nat cpuid)) as [-> | Hne'].
      * rewrite list_lookup_insert_eq in Hj by assumption.
        injection Hj as <-.
        apply (pool_queued s cpuid outq inq _ Hout Hin).
        apply Hback. right. left. exact Hx.
      * rewrite list_lookup_insert_ne in Hj by congruence.
        right. left. now exists j, q.
    + destruct (decide (j = N.to_nat cpuid)) as [-> | Hne'].
      * rewrite list_lookup_insert_eq in Hj by assumption.
        injection Hj as <-.
        apply (pool_queued s cpuid outq inq _ Hout Hin).
        apply Hback. left. exact Hx.
      * rewrite list_lookup_insert_ne in Hj by congruence.
        right. right. now exists j, q.
Qed.

Lemma get_next_no_lost_task fuel s cpuid r :
  no_lost_task s -> get_next fuel s cpuid = Ok r -> no_lost_task (snd r).
Proof.
  revert s. induction fuel as [|fuel IH]; intros s Hinv H; [discriminate |].
  destruct (get_next_Ok_lookups _ _ _ _ H) as (outq & inq & Hout & Hin).
  destruct (get_next_iteration fuel s cpuid outq inq Hout Hin)
    as (master' & out' & inq' & Hpool & Hempty & _ & _ & Heq).
  rewrite Heq in H. clear Heq.
  destruct out' as [|v queue].
  - injection H as <-. simpl. intros x Hx. simpl in Hx.
    apply (queued_transfer s cpuid outq inq master' [] inq' (messages s)
             (fun _ => True) Hout Hin); [| exact I | now apply Hinv].
    intros y _ Hy. now apply Hpool.
  - assert (Hpop : forall x, x <> v ->
              pool (master_queue s) outq inq x -> pool master' queue inq' x).
    { intros x Hne Hx. apply Hpool in Hx. unfold pool in *.
      destruct Hx as [Hx | Hx]; [| now right].
      apply elem_of_cons in Hx as [-> | Hx]; [congruence | now left]. }
    unfold vertex_map_test_and_get in H.
    destruct (messages s !! v) as [msg|] eqn:Hmsg.
    + injection H as <-. simpl. intros x Hx. simpl in Hx.
      destruct (decide (x = v)) as [-> | Hne].
      { rewrite lookup_delete_eq in Hx. now destruct Hx. }
      rewrite lookup_delete_ne in Hx by congruence.
      apply (queued_transfer s cpuid outq inq master' queue inq' _
               (fun x => x <> v) Hout Hin Hpop); [exact Hne | now apply Hinv].
    + refine (IH _ _ H). intros x Hx. simpl in Hx.
      assert (Hne : x <> v) by (intros ->; rewrite Hmsg in Hx; now destruct Hx).
      apply (queued_transfer s cpuid outq inq master' queue inq' _
               (fun x => x <> v) Hout Hin Hpop); [exact Hne | now apply Hinv].
Qed.

Lemma push_in_queue_queued s cpuid vid s' :
  push_in_queue s cpuid vid = Ok s' ->
  messages s' = messages s
  /\ queued s' vid
  /\ forall x, queued s x -> queued s' x.
Proof.
  unfold push_in_queue, vec_at, vec_put. intros H.
  destruct (in_queues s !! N.to_nat cpuid) as [queue|] eqn:Hq;
    [| discriminate].
  simpl in H.
  assert (Hl : (N.to_nat cpuid < length (in_queues s))%nat)
    by now apply lookup_lt_Some in Hq.
  destruct (N.ltb_spec cpuid (N.of_nat (length (in_queues s)))); [| lia].
  assert (Hin : vid ∈ queue ++ [vid]).
  { apply elem_of_app. right. apply list_elem_of_here. }
  assert (Hold : forall x j q, in_queues s !! j = Some q -> x ∈ q ->
            j <> N.to_nat cpuid \/ x ∈ queue ++ [vid]).
  { intros x j q Hj Hx. destruct (decide (j = N.to_nat cpuid)) as [-> | Hne].
    - right. apply elem_of_app. left. congruence.
    - now left. }
  destruct (sub_queue_size s <? vec_size (queue ++ [vid]));
    simpl in H; injection H as <-; unfold queued; simpl.
  - split; [reflexivity |]. split.
    + left. exists (queue ++ [vid]). split; [| exact Hin].
      apply elem_of_app. right. apply list_elem_of_here.
    + intros x [(q & Hqm & Hx) | [(j & q & Hj & Hx) | Ho]].
      * left. exists q. split; [| exact Hx]. apply elem_of_app. now left.
      * destruct (Hold x j q Hj Hx) as [Hne | Hx'].
        -- right. left. exists j, q.
           split; [now rewrite list_lookup_insert_ne | exact Hx].
        -- left. exists (queue ++ [vid]). split; [| exact Hx'].
           apply elem_of_app. right. apply list_elem_of_here.
      * right. right. exact Ho.
  - split; [reflexivity |]. split.
    + right. left. exists (N.to_nat cpuid), (queue ++ [vid]).
      split; [now apply list_lookup_insert_eq | exact Hin].
    + intros x [Hm | [(j & q & Hj & Hx) | Ho]].
      * now left.
      * right. left. destruct (Hold x j q Hj Hx) as [Hne | Hx'].
        -- exists j, q.
           split; [now rewrite list_lookup_insert_ne | exact Hx].
        -- exists (N.to_nat cpuid), (queue ++ [vid]).
           split; [now apply list_lookup_insert_eq | exact Hx'].
      * right. right. exact Ho.
Qed.

Lemma added_no_lost_task s vid msg s0 s' :
  no_lost_task s ->
  s0 = Sched (vertex_map_add plus_assign (messages s) vid msg).2
         (master_queue s) (sub_queue_size s) (in_queues s) (out_queues s)
         (term s) ->
  ((vertex_map_add plus_assign (messages s) vid msg).1 = false -> s' = s0) ->
  ((vertex_map_add plus_assign (messages s) vid msg).1 = true ->
   messages s' = messages s0 /\ queued s' vid
   /\ forall x, queued s0 x -> queued s' x) ->
  no_lost_task s' /\ is_Some (messages s' !! vid).
Proof.
  intros Hinv -> Hsame Hpush. unfold vertex_map_add in *.
  destruct (messages s !! vid) as [old|] eqn:Hold; simpl in *.
  - rewrite (Hsame eq_refl). simpl. split.
    + intros x Hx. simpl in Hx.
      destruct (decide (x = vid)) as [-> | Hne].
      * apply (Hinv vid). now rewrite Hold.
      * rewrite lookup_insert_ne in Hx by congruence. exact (Hinv x Hx).
    + now rewrite lookup_insert_eq.
  - destruct (Hpush eq_refl) as (Hm & Hq & Hall). split.
    + intros x Hx. rewrite Hm in Hx.
      destruct (decide (x = vid)) as [-> | Hne]; [exact Hq |].
      rewrite lookup_insert_ne in Hx by congruence.
      apply Hall. exact (Hinv x Hx).
    + rewrite Hm. now rewrite lookup_insert_eq.
Qed.

Lemma schedule_no_lost_task s rand vid msg s' :
  no_lost_task s ->
  schedule plus_assign rand s vid msg = Ok s' ->
  no_lost_task s' /\ is_Some (messages s' !! vid).
Proof.
  intros Hinv. unfold schedule.
  destruct (vertex_map_add plus_assign (messages s) vid msg)
    as [added messages'] eqn:Hadd.
  intros H.
  refine (added_no_lost_task s vid msg _ s' Hinv eq_refl _ _);
    rewrite Hadd; simpl.
  - intros ->. now inversion H.
  - intros ->. simpl in H.
    destruct (vec_size (in_queues s) =? 0); [discriminate |].
    now apply push_in_queue_queued in H.
Qed.

Lemma schedule_from_execution_thread_no_lost_task s cpuid vid msg s' :
  no_lost_task s ->
  schedule_from_execution_thread plus_assign s cpuid vid msg = Ok s' ->
  no_lost_task s' /\ is_Some (messages s' !! vid).
Proof.
  intros Hinv. unfold schedule_from_execution_thread.
  destruct (vertex_map_add plus_assign (messages s) vid msg)
    as [added messages'] eqn:Hadd.
  intros H.
  refine (added_no_lost_task s vid msg _ s' Hinv eq_refl _ _);
    rewrite Hadd; simpl.
  - intros ->. now inversion H.
  - intros ->. simpl in H.
    destruct (cpuid <? vec_size (in_queues s)); [| discriminate].
    now apply push_in_queue_queued in H.
Qed.

Lemma start_no_lost_task s : no_lost_task s -> no_lost_task (start s).
Proof.
  intros Hinv x Hx. simpl in Hx.
  destruct (Hinv x Hx) as [(q & Hq & Hxq) | [(j & q & Hj & Hxq) | Ho]];
    unfold queued; simpl.
  - left. exists q. split; [| exact Hxq]. apply elem_of_app. now left.
  - left. exists q. split; [| exact Hxq]. apply elem_of_app. right.
    now apply (list_elem_of_lookup_2 _ j).
  - right. right. exact Ho.
Qed.

(** No task is lost: [start], [schedule], [schedule_from_execution_thread]
    and [get_next] keep every vertex that has a message in the map in one
    of the queues, and after either [schedule] function the scheduled
    vertex has a message. *)
Theorem queue_operations_lose_no_task s :
  no_lost_task s ->
  no_lost_task (start s)
  /\ (forall rand vid msg s',
        schedule plus_assign rand s vid msg = Ok s' ->
        no_lost_task s' /\ is_Some (messages s' !! vid))
  /\ (forall cpuid vid msg s',
        schedule_from_execution_thread plus_assign s cpuid vid msg = Ok s' ->
        no_lost_task s' /\ is_Some (messages s' !! vid))
  /\ (forall fuel cpuid status s',
        get_next fuel s cpuid = Ok (status, s') -> no_lost_task s').
Proof.
  intros Hinv.
  split; [now apply start_no_lost_task |].
  split; [intros rand vid msg s'; now apply schedule_no_lost_task |].
  split; [intros cpuid vid msg s';
          now apply schedule_from_execution_thread_no_lost_task |].
  intros fuel cpuid status s' H.
  exact (get_next_no_lost_task _ _ _ _ Hinv H).
Qed.

(** [start()] moves every in-queue to the master queue, the empty ones
    too, and a worker that draws an empty queue from the master does not
    look further: when the master queue is empty and the first in-queue is
    empty before [start()], the next [get_next(cpuid)] of a worker with an
    empty out-queue returns [EMPTY], although the master queue still holds
    the other in-queues with whatever was scheduled in them. *)
Theorem get_next_after_start_draws_empty_queue fuel s cpuid rest :
  master_queue s = [] ->
  in_queues s = [] :: rest ->
  (N.to_nat cpuid < S (length rest))%nat ->
  out_queues s !! N.to_nat cpuid = Some [] ->
  exists s',
    get_next (S fuel) (start s) cpuid = Ok (EMPTY, s')
    /\ master_queue s' = rest
    /\ messages s' = messages s.
Proof.
  intros Hm Hi Hc Hout.
  destruct s as [msgs master sqs inqs outqs tm]; simpl in *. subst.
  unfold start. simpl.
  assert (Hin : replicate (S (length rest)) ([] : list N) !! N.to_nat cpuid
                = Some []).
  { apply lookup_replicate. split; [reflexivity | exact Hc]. }
  unfold mbind, outcome_bind, mret, outcome_ret.
  rewrite (vec_at_lookup _ _ _ Hout).
  change (replicate (length rest) [])
    with (replicate (length rest) ([] : list N)).
  change ([] :: replicate (length rest) ([] : list N))
    with (replicate (S (length rest)) ([] : list N)).
  rewrite (vec_at_lookup _ _ _ Hin).
  rewrite (vec_put_lookup _ _ _ _ Hin), (vec_put_lookup _ _ _ _ Hout).
  eexists. split; [reflexivity |]. split; reflexivity.
Qed.

Lemma push_in_queue_bounded s cpuid vid s' :
  in_queues_bounded s -> push_in_queue s cpuid vid = Ok s' ->
  in_queues_bounded s'
  /\ sub_queue_size s' = sub_queue_size s
  /\ forall q, q ∈ master_queue s' ->
       q ∈ master_queue s \/ vec_size q = sub_queue_size s + 1.
Proof.
  unfold in_queues_bounded, push_in_queue, vec_at, vec_put. intros Hb H.
  destruct (in_queues s !! N.to_nat cpuid) as [queue|] eqn:Hq;
    [| discriminate].
  simpl in H.
  pose proof (Forall_lookup_1 _ _ _ _ Hb Hq) as Hlen. simpl in Hlen.
  assert (Hl : (N.to_nat cpuid < length (in_queues s))%nat)
    by now apply lookup_lt_Some in Hq.
  destruct (N.ltb_spec cpuid (N.of_nat (length (in_queues s)))); [| lia].
  destruct (N.ltb_spec (sub_queue_size s) (vec_size (queue ++ [vid])))
    as [Hbig|Hsmall];
    simpl in H; injection H as <-; simpl.
  - split; [| split; [reflexivity |]].
    + apply Forall_insert; [exact Hb |]. unfold vec_size. simpl. lia.
    + intros q Hqin. apply elem_of_app in Hqin as [Hold | Hnew];
        [now left | right].
      apply list_elem_of_singleton in Hnew as ->.
      unfold vec_size in *. rewrite length_app in *. simpl in *. lia.
  - split; [| split; [reflexivity |]].
    + apply Forall_insert; [exact Hb | exact Hsmall].
    + intros q Hqin. now left.
Qed.

(** "Once a processor's in_queue gets too large, the entire queue is placed
    at the end of the shared master queue": when no in-queue is longer than
    [sub_queue_size], [schedule] and [schedule_from_execution_thread] leave
    it so, and a queue they add to the master queue holds exactly
    [sub_queue_size + 1] vertices. *)
Theorem schedule_bounds_in_queues s :
  in_queues_bounded s ->
  (forall rand vid msg s',
     schedule plus_assign rand s vid msg = Ok s' ->
     in_queues_bounded s'
     /\ forall q, q ∈ master_queue s' ->
          q ∈ master_queue s \/ vec_size q = sub_queue_size s + 1)
  /\ (forall cpuid vid msg s',
        schedule_from_execution_thread plus_assign s cpuid vid msg = Ok s' ->
        in_queues_bounded s'
        /\ forall q, q ∈ master_queue s' ->
             q ∈ master_queue s \/ vec_size q = sub_queue_size s + 1).
Proof.
  intros Hb. split.
  - intros rand vid msg s'. unfold schedule.
    destruct (vertex_map_add plus_assign (messages s) vid msg)
      as [[] messages']; simpl; intros H.
    + destruct (vec_size (in_queues s) =? 0); [discriminate |].
      apply push_in_queue_bounded in H; [| exact Hb]. simpl in H. tauto.
    + inversion H; subst. split; [exact Hb | now left].
  - intros cpuid vid msg s'. unfold schedule_from_execution_thread.
    destruct (vertex_map_add plus_assign (messages s) vid msg)
      as [[] messages']; simpl; intros H.
    + destruct (cpuid <? vec_size (in_queues s)); [| discriminate].
      apply push_in_queue_bounded in H; [| exact Hb]. simpl in H. tauto.
    + inversion H; subst. split; [exact Hb | now left].
Qed.

End queue_facts.

Lemma get_next_takes_message_from_map_witness :
  exists s s',
    Inputs.one_pending = Ok s
    /\ Scheduler.get_next 1 s 1
       = Ok (Scheduler.NEW_TASK 7 (Messages.Sum 0x1p+0), s')
    /\ Scheduler.messages s !! 7 = Some (Messages.Sum 0x1p+0)
    /\ Scheduler.messages s' = delete 7 (Scheduler.messages s)
    /\ Invariants.queued s 7.
Proof.
  eexists _, _. split; [vm_compute; reflexivity |].
  match goal with |- ?G /\ _ =>
    assert (H : G) by (vm_compute; reflexivity)
  end.
  split; [exact H |].
  exact (get_next_takes_message_from_map _ _ _ _ _ _ H).
Defined.

Lemma queue_operations_lose_no_task_witness :
  exists s',
    Inputs.one_pending = Ok s'
    /\ Invariants.no_lost_task s'
    /\ is_Some (Scheduler.messages s' !! 7).
Proof.
  assert (Hinv : Invariants.no_lost_task
                   (Scheduler.new_scheduler (Message := Messages.sum) 2 None)).
  { intros vid [m Hm]. simpl in Hm. rewrite lookup_empty in Hm.
    discriminate. }
  eexists. split; [vm_compute; reflexivity |].
  apply (proj1 (proj2 (queue_operations_lose_no_task
                         Messages.sum_plus_assign _ Hinv))
           1 7 (Messages.Sum 0x1p+0)).
  vm_compute. reflexivity.
Defined.

Lemma get_next_after_start_draws_empty_queue_witness :
  exists s s',
    Inputs.one_pending = Ok s
    /\ Scheduler.get_next 1 (Scheduler.start s) 0 = Ok (Scheduler.EMPTY, s')
    /\ Scheduler.master_queue s' = [[7]]
    /\ Scheduler.messages s' = Scheduler.messages s.
Proof.
  eexists.
  match goal with |- exists s', ?G /\ _ =>
    assert (Hs : G) by (vm_compute; reflexivity)
  end.
  match type of Hs with _ = Ok ?s =>
    destruct (get_next_after_start_draws_empty_queue 0 s 0 [[7]]
                eq_refl eq_refl ltac:(simpl; lia) eq_refl)
      as (s' & Hget & Hmaster & Hmsg)
  end.
  exists s'. split; [exact Hs |]. split; [exact Hget |].
  split; [exact Hmaster | exact Hmsg].
Defined.

Lemma schedule_bounds_in_queues_witness :
  exists s',
    Inputs.one_pending = Ok s'
    /\ Invariants.in_queues_bounded s'
    /\ forall q, q ∈ Scheduler.master_queue s' ->
         q ∈ Scheduler.master_queue
               (Scheduler.new_scheduler (Message := Messages.sum) 2 None)
         \/ vec_size q = 100 + 1.
Proof.
  assert (Hb : Invariants.in_queues_bounded
                 (Scheduler.new_scheduler (Message := Messages.sum) 2 None)).
  { repeat constructor; vm_compute; discriminate. }
  eexists. split; [vm_compute; reflexivity |].
  apply (proj1 (schedule_bounds_in_queues Messages.sum_plus_assign _ Hb)
           1 7 (Messages.Sum 0x1p+0)).
  vm_compute. reflexivity.
Defined.

(** ** The archive round trip *)

Section archive_facts.
Import LocalStore Archive Invariants.
Context {VertexData EdgeData : Type}.
Context {vpod : POD VertexData} {epod : POD EdgeData}.
Implicit Types s : graph_local_store VertexData EdgeData.

Lemma length_le_bytes n x : length (le_bytes n x) = n.
Proof. unfold le_bytes. now rewrite length_fmap, length_seq. Qed.

Lemma length_record_bytes {T} {pod : POD T} (d : T) m sn v :
  pod_sized T ->
  length (record_bytes d m sn v) = N.to_nat (sizeof_record T).
Proof.
  intros Hpod. specialize (Hpod d). unfold vec_size in Hpod.
  unfold record_bytes, sizeof_record, padding.
  assert (Hmod : sizeof (T := T) mod 8 < 8) by (apply N.mod_lt; lia).
  destruct (N.eqb_spec (sizeof (T := T) mod 8) 0) as [Hz|Hnz].
  - rewrite length_app, length_le_bytes, Hz.
    change ((8 - 0) mod 8) with 0. lia.
  - rewrite !length_app, length_replicate, length_le_bytes. simpl.
    remember (sizeof (T := T) mod 8) as k eqn:Hk. clear Hk.
    rewrite (N.mod_small (8 - k) 8) by lia.
    remember (sizeof (T := T)) as size eqn:Hsize. clear Hsize. lia.
Qed.

Lemma length_concat_records {A} (f : A -> list N) (l : list A) (k : nat) :
  (forall x, length (f x) = k) ->
  length (concat (f <$> l)) = (k * length l)%nat.
Proof.
  intros Hk. induction l as [|x l IH]; [simpl; lia |].
  rewrite fmap_cons. cbn [concat length].
  rewrite length_app, Hk, IH. lia.
Qed.

Lemma serialized_size (block : list N) (size record n : N) :
  length block = (N.to_nat record * N.to_nat n)%nat -> size <= record ->
  vec_size (take (N.to_nat (size * n)) block) = size * n.
Proof.
  intros Hlen Hle. unfold vec_size. rewrite length_take, Hlen. nia.
Qed.

Lemma sizeof_le_record {T} {pod : POD T} : sizeof (T := T) <= sizeof_record T.
Proof. unfold sizeof_record. lia. Qed.

(** [load] of what [save] wrote restores the structure of the graph: when
    the payload types have the size they declare and the two blocks hold
    one record per vertex and per edge, [load(save(s))] into any store
    returns a store with the vertex and edge counts, the edges, both
    adjacency vectors, the colours and the finalized flag of [s], with one
    record per vertex and per edge, and with the change id of the loading
    store incremented. *)
Theorem load_save_restores_structure s s0 fresh_v fresh_e :
  pod_sized VertexData -> pod_sized EdgeData ->
  vec_size (vertices s) = nvertices s ->
  vec_size (edgedata s) = nedges s ->
  exists s',
    load (save s) fresh_v fresh_e s0 = Ok s'
    /\ nvertices s' = nvertices s /\ nedges s' = nedges s
    /\ edges s' = edges s
    /\ in_edges s' = in_edges s /\ out_edges s' = out_edges s
    /\ vcolors s' = vcolors s /\ finalized s' = finalized s
    /\ changeid s' = (changeid s0 + 1) mod UINT64_MOD
    /\ vec_size (vertices s') = nvertices s
    /\ vec_size (edgedata s') = nedges s.
Proof.
  intros Hv He Hnv Hne.
  unfold load, save, serialize, deserialize. simpl.
  assert (Hvb : length (vertices_block s)
                = (N.to_nat (sizeof_record VertexData)
                   * N.to_nat (nvertices s))%nat).
  { unfold vertices_block.
    rewrite (length_concat_records _ _ (N.to_nat (sizeof_record VertexData)))
      by (intros r; now apply length_record_bytes).
    unfold vec_size in Hnv. lia. }
  assert (Heb : length (edgedata_block s)
                = (N.to_nat (sizeof_record EdgeData)
                   * N.to_nat (nedges s))%nat).
  { unfold edgedata_block.
    rewrite (length_concat_records _ _ (N.to_nat (sizeof_record EdgeData)))
      by (intros r; now apply length_record_bytes).
    unfold vec_size in Hne. lia. }
  rewrite (serialized_size _ _ _ _ Hvb sizeof_le_record), N.eqb_refl. simpl.
  rewrite (serialized_size _ _ _ _ Heb sizeof_le_record), N.eqb_refl. simpl.
  eexists. split; [reflexivity |]. simpl.
  unfold vertices_of_block, edgedata_of_block, vec_size.
  rewrite !length_fmap, !length_seq.
  repeat split; lia.
Qed.

Lemma le_value_bytes_from (x : N) (n k : nat) :
  le_value ((fun i => (x / 256 ^ N.of_nat i) mod 256) <$> seq k n)
  = (x / 256 ^ N.of_nat k) mod 256 ^ N.of_nat n.
Proof.
  revert k. induction n as [|n IH]; intros k.
  - simpl. now rewrite N.mod_1_r.
  - cbn [seq fmap list_fmap le_value foldr].
    change (foldr (fun b acc => b + 256 * acc) 0
              ((fun i => (x / 256 ^ N.of_nat i) mod 256) <$> seq (S k) n))
      with (le_value
              ((fun i => (x / 256 ^ N.of_nat i) mod 256) <$> seq (S k) n)).
    rewrite IH.
    replace (N.of_nat (S k)) with (N.succ (N.of_nat k)) by lia.
    replace (N.of_nat (S n)) with (N.succ (N.of_nat n)) by lia.
    rewrite !N.pow_succ_r'.
    rewrite (N.mul_comm 256 (256 ^ N.of_nat k)).
    rewrite <- N.Div0.div_div.
    now rewrite N.Div0.mod_mul_r.
Qed.

Lemma le_value_le_bytes (n : nat) (x : N) :
  x < 256 ^ N.of_nat n -> le_value (le_bytes n x) = x.
Proof.
  intros Hx. unfold le_bytes. rewrite le_value_bytes_from.
  simpl. rewrite N.div_1_r. now apply N.mod_small.
Qed.

Lemma version_unit_fits (m sn : bool) (v : N) :
  N.b2n m + 2 * N.b2n sn + 4 * (v mod VERSION_MOD) < 256 ^ N.of_nat 8.
Proof.
  assert (v mod VERSION_MOD < VERSION_MOD) by (apply N.mod_lt; discriminate).
  change (256 ^ N.of_nat 8) with 18446744073709551616.
  unfold VERSION_MOD in *. destruct m, sn; simpl N.b2n; lia.
Qed.

Lemma flags_unit (m sn : bool) (v : N) :
  let unit := N.b2n m + 2 * N.b2n sn + 4 * v in
  N.odd unit = m /\ N.odd (unit / 2) = sn /\ unit / 4 = v.
Proof.
  simpl.
  assert (H4 : (N.b2n m + 2 * N.b2n sn + 4 * v) / 4 = v).
  { symmetry. apply (N.div_unique _ 4 v (N.b2n m + 2 * N.b2n sn)).
    - destruct m, sn; simpl; lia.
    - lia. }
  assert (H2 : (N.b2n m + 2 * N.b2n sn + 4 * v) / 2 = N.b2n sn + 2 * v).
  { symmetry. apply (N.div_unique _ 2 _ (N.b2n m)).
    - destruct m; simpl; lia.
    - lia. }
  split; [| split; [| exact H4]].
  - replace (N.b2n m + 2 * N.b2n sn + 4 * v)
      with (N.b2n m + 2 * (N.b2n sn + 2 * v)) by lia.
    rewrite N.odd_add_mul_2. now destruct m.
  - rewrite H2, N.odd_add_mul_2. now destruct sn.
Qed.

Lemma record_fields_bytes {T} {pod : POD T} (d : T) (m sn : bool) (v : N) :
  pod_sized T -> of_bytes (to_bytes d) = d ->
  record_fields (record_bytes d m sn v) = (d, m, sn, v mod VERSION_MOD).
Proof.
  intros Hsized Hround. specialize (Hsized d). unfold vec_size in Hsized.
  assert (Hlen : length (to_bytes d) = N.to_nat (sizeof (T := T))) by lia.
  unfold record_fields, record_bytes, padding.
  assert (Hmod : sizeof (T := T) mod 8 < 8) by (apply N.mod_lt; lia).
  destruct (N.eqb_spec (sizeof (T := T) mod 8) 0) as [Hz | Hnz].
  - rewrite Hz. change ((8 - 0) mod 8) with 0. rewrite N.add_0_r.
    rewrite <- Hlen, take_app_length, drop_app_length, Hround.
    rewrite firstn_all2 by (rewrite length_le_bytes; lia).
    rewrite le_value_le_bytes by apply version_unit_fits.
    destruct (flags_unit m sn (v mod VERSION_MOD)) as (H1 & H2 & H3).
    simpl in H1, H2, H3. now rewrite H1, H2, H3.
  - remember (sizeof (T := T) mod 8) as k eqn:Hk.
    rewrite (N.mod_small (8 - k) 8) by lia.
    rewrite <- Hlen at 1. rewrite take_app_length, Hround.
    assert (Hflag : nth (N.to_nat sizeof)
                      (to_bytes d ++ [N.b2n m + 2 * N.b2n sn]
                         ++ replicate (N.to_nat (8 - k) - 1) 0
                         ++ le_bytes 8 (v mod VERSION_MOD)) 0
                    = N.b2n m + 2 * N.b2n sn).
    { rewrite <- Hlen, app_nth2 by lia. now rewrite Nat.sub_diag. }
    rewrite Hflag.
    assert (Hdrop : drop (N.to_nat (sizeof + (8 - k)))
                      (to_bytes d ++ [N.b2n m + 2 * N.b2n sn]
                         ++ replicate (N.to_nat (8 - k) - 1) 0
                         ++ le_bytes 8 (v mod VERSION_MOD))
                    = le_bytes 8 (v mod VERSION_MOD)).
    { rewrite !app_assoc. apply drop_app_length'.
      rewrite !length_app, length_replicate. simpl. lia. }
    rewrite Hdrop.
    rewrite firstn_all2 by (rewrite length_le_bytes; lia).
    rewrite le_value_le_bytes.
    2:{ assert (v mod VERSION_MOD < VERSION_MOD)
          by (apply N.mod_lt; discriminate).
        change (256 ^ N.of_nat 8) with 18446744073709551616.
        unfold VERSION_MOD in *. lia. }
    rewrite N.Div0.mod_mod.
    destruct m, sn; reflexivity.
Qed.

Lemma record_at_concat {A T} {pod : POD T} (f : A -> list N) (l : list A)
    (i : nat) (r : A) :
  (forall x, length (f x) = N.to_nat (sizeof_record T)) ->
  l !! i = Some r ->
  record_at T (concat (f <$> l)) i = f r.
Proof.
  intros Hlen. unfold record_at. revert i.
  induction l as [|x l IH]; intros i Hi; [discriminate |].
  rewrite fmap_cons. cbn [concat].
  destruct i as [|i]; simpl in Hi.
  - injection Hi as ->. simpl. rewrite <- (Hlen r). apply take_app_length.
  - replace (S i * N.to_nat (sizeof_record T))%nat
      with (length (f x) + i * N.to_nat (sizeof_record T))%nat
      by (rewrite Hlen; lia).
    rewrite drop_app_add. now apply IH.
Qed.

Lemma record_at_prefix {T} {pod : POD T} (block rest : list N) (len : nat)
    (i : nat) :
  ((i + 1) * N.to_nat (sizeof_record T) <= len)%nat ->
  (len <= length block)%nat ->
  record_at T (take len block ++ rest) i = record_at T block i.
Proof.
  intros Hfit Hlen. unfold record_at.
  set (rec := N.to_nat (sizeof_record T)) in *.
  assert (Htl : length (take len block) = len)
    by (rewrite length_take; lia).
  rewrite drop_app_le by lia.
  rewrite take_app_le by (rewrite length_drop; lia).
  rewrite skipn_firstn_comm.
  rewrite take_take. f_equal. lia.
Qed.

(** What [save] writes of the two blocks, [load] restores: a vertex record
    that lies within the first [sizeof(VertexData) * nvertices] bytes of
    the vertex block comes back with its payload, both flags and its
    version, and so does an edge record within the first
    [sizeof(EdgeData) * nedges] bytes of the edge block.  The payload types
    have the size they declare and the payload of the record is restored
    by its own object representation. *)
Theorem load_save_restores_leading_records s s0 fresh_v fresh_e :
  pod_sized VertexData -> pod_sized EdgeData ->
  vec_size (vertices s) = nvertices s ->
  vec_size (edgedata s) = nedges s ->
  exists s',
    load (save s) fresh_v fresh_e s0 = Ok s'
    /\ (forall i r,
          vertices s !! i = Some r ->
          (N.of_nat i + 1) * sizeof_record VertexData
            <= sizeof (T := VertexData) * nvertices s ->
          of_bytes (to_bytes (vdata r)) = vdata r ->
          vertices s' !! i
          = Some (VData (vdata r) (vmodified r) (vsnapshot_made r)
                    (vversion r mod VERSION_MOD)))
    /\ (forall i r,
          edgedata s !! i = Some r ->
          (N.of_nat i + 1) * sizeof_record EdgeData
            <= sizeof (T := EdgeData) * nedges s ->
          of_bytes (to_bytes (edata r)) = edata r ->
          edgedata s' !! i
          = Some (EData (edata r) (emodified r) (esnapshot_made r)
                    (eversion r mod VERSION_MOD))).
Proof.
  intros Hv He Hnv Hne.
  unfold load, save, serialize, deserialize. simpl.
  assert (Hvb : length (vertices_block s)
                = (N.to_nat (sizeof_record VertexData)
                   * N.to_nat (nvertices s))%nat).
  { unfold vertices_block.
    rewrite (length_concat_records _ _ (N.to_nat (sizeof_record VertexData)))
      by (intros r; now apply length_record_bytes).
    unfold vec_size in Hnv. lia. }
  assert (Heb : length (edgedata_block s)
                = (N.to_nat (sizeof_record EdgeData)
                   * N.to_nat (nedges s))%nat).
  { unfold edgedata_block.
    rewrite (length_concat_records _ _ (N.to_nat (sizeof_record EdgeData)))
      by (intros r; now apply length_record_bytes).
    unfold vec_size in Hne. lia. }
  rewrite (serialized_size _ _ _ _ Hvb sizeof_le_record), N.eqb_refl. simpl.
  rewrite (serialized_size _ _ _ _ Heb sizeof_le_record), N.eqb_refl. simpl.
  eexists. split; [reflexivity |]. simpl.
  pose proof (sizeof_le_record (T := VertexData)) as Hsv.
  pose proof (sizeof_le_record (T := EdgeData)) as Hse.
  split.
  - intros i r Hi Hfit Hround.
    assert (Hin : (i < N.to_nat (nvertices s))%nat).
    { apply lookup_lt_Some in Hi. unfold vec_size in Hnv. lia. }
    unfold vertices_of_block.
    rewrite list_lookup_fmap, lookup_seq_lt by exact Hin. simpl.
    rewrite record_at_prefix by nia.
    unfold vertices_block.
    rewrite (record_at_concat _ _ i r)
      by (try exact Hi; intros x; now apply length_record_bytes).
    now rewrite record_fields_bytes.
  - intros i r Hi Hfit Hround.
    assert (Hin : (i < N.to_nat (nedges s))%nat).
    { apply lookup_lt_Some in Hi. unfold vec_size in Hne. lia. }
    unfold edgedata_of_block.
    rewrite list_lookup_fmap, lookup_seq_lt by exact Hin. simpl.
    rewrite record_at_prefix by nia.
    unfold edgedata_block.
    rewrite (record_at_concat _ _ i r)
      by (try exact Hi; intros x; now apply length_record_bytes).
    now rewrite record_fields_bytes.
Qed.

End archive_facts.

Lemma load_save_restores_structure_witness :
  exists s',
    Archive.load (vpod := Archive.uint64_pod) (epod := Archive.uint64_pod)
      (Archive.save (vpod := Archive.uint64_pod)
         (epod := Archive.uint64_pod) Inputs.saved_store)
      Inputs.zero_vN Inputs.zero_eN LocalStore.new_store = Ok s'
    /\ LocalStore.nvertices s' = 2 /\ LocalStore.nedges s' = 1
    /\ LocalStore.edges s' = [LocalStore.Edge 0 1]
    /\ LocalStore.in_edges s' = [[]; [0]]
    /\ LocalStore.out_edges s' = [[0]; []]
    /\ LocalStore.vcolors s' = [0; 1] /\ LocalStore.finalized s' = true
    /\ LocalStore.changeid s' = (0 + 1) mod UINT64_MOD
    /\ vec_size (LocalStore.vertices s') = 2
    /\ vec_size (LocalStore.edgedata s') = 1.
Proof.
  apply (load_save_restores_structure
           (vpod := Archive.uint64_pod) (epod := Archive.uint64_pod)
           Inputs.saved_store LocalStore.new_store
           Inputs.zero_vN Inputs.zero_eN);
    solve [intros d; reflexivity | reflexivity].
Defined.

(** ** Structure queries on the distributed graph *)

Section routing_facts.
Import LocalStore DistGraph.
Context {VertexData EdgeData : Type}.
Context {vdefault : Inhabited VertexData} {edefault : Inhabited EdgeData}.
Implicit Types f : fragment VertexData EdgeData.
Implicit Types cl : gmap N (fragment VertexData EdgeData).

Lemma num_in_neighbors_owned fuel cl me vid f localvid n :
  cl !! me = Some f ->
  global2localvid f !! vid = Some localvid ->
  localvid2owner f !! N.to_nat localvid = Some (procid f) ->
  LocalStore.num_in_neighbors (localstore f) localvid = Ok n ->
  num_in_neighbors fuel cl me vid = Ok (n, []).
Proof.
  intros Hme Hloc Hown Hn.
  destruct fuel; simpl; unfold mbind, outcome_bind, mret, outcome_ret in *;
    rewrite (machine_lookup _ _ _ Hme), Hloc, (vec_at_lookup _ _ _ Hown),
            N.eqb_refl, Hn;
    reflexivity.
Qed.

(** [num_in_neighbors(vid)] answers from the local store, with no RPC, only
    for a vertex the calling machine owns.  For a ghost, as for a vertex
    that is not in the fragment, it asks the owner the directory names,
    with one blocking RPC, and returns the count the owner's store holds,
    not the count of the local replica. *)
Theorem num_in_neighbors_routing fuel cl me vid f :
  cl !! me = Some f ->
  (forall localvid n,
     global2localvid f !! vid = Some localvid ->
     localvid2owner f !! N.to_nat localvid = Some (procid f) ->
     LocalStore.num_in_neighbors (localstore f) localvid = Ok n ->
     num_in_neighbors fuel cl me vid = Ok (n, []))
  /\ (forall owner fo localvid n,
        (global2localvid f !! vid = None
         \/ exists ghostvid ghostowner,
              global2localvid f !! vid = Some ghostvid
              /\ localvid2owner f !! N.to_nat ghostvid = Some ghostowner
              /\ ghostowner <> procid f) ->
        globalvid2owner f !! vid = Some owner ->
        cl !! owner = Some fo ->
        global2localvid fo !! vid = Some localvid ->
        localvid2owner fo !! N.to_nat localvid = Some (procid fo) ->
        LocalStore.num_in_neighbors (localstore fo) localvid = Ok n ->
        num_in_neighbors (S fuel) cl me vid
        = Ok (n, [Rpc me owner false (call_num_in_neighbors vid)])).
Proof.
  intros Hme. split.
  - intros localvid n. now apply num_in_neighbors_owned.
  - intros owner fo localvid n Hhere Hdir Hfo Hloc Hown Hn.
    pose proof (num_in_neighbors_owned fuel cl owner vid fo localvid n
                  Hfo Hloc Hown Hn) as Hremote.
    cbn [num_in_neighbors].
    unfold mbind at 1, outcome_bind at 1.
    rewrite (machine_lookup _ _ _ Hme).
    unfold get_cached. rewrite Hdir. simpl.
    destruct Hhere as [Hnone | (gv & go & Hgv & Hgo & Hne)].
    + rewrite Hnone. rewrite Hremote. reflexivity.
    + rewrite Hgv. rewrite (vec_at_lookup _ _ _ Hgo). simpl.
      destruct (N.eqb_spec go (procid f)); [contradiction |].
      rewrite Hremote. reflexivity.
Qed.

End routing_facts.

Lemma num_in_neighbors_routing_witness :
  DistGraph.num_in_neighbors 1 Inputs.two_machines 0 7 = Ok (1, [])
  /\ LocalStore.num_in_neighbors (DistGraph.localstore Inputs.machine_0) 1
     = Ok 1
  /\ DistGraph.num_in_neighbors 1 Inputs.two_machines 0 42
     = Ok (2, [DistGraph.Rpc 0 1 false (DistGraph.call_num_in_neighbors 42)]).
Proof.
  assert (H0 : Inputs.two_machines !! 0 = Some Inputs.machine_0)
    by (vm_compute; reflexivity).
  assert (H1 : Inputs.two_machines !! 1 = Some Inputs.machine_1)
    by (vm_compute; reflexivity).
  split; [| split; [vm_compute; reflexivity |]].
  - apply (proj1 (num_in_neighbors_routing 1 Inputs.two_machines 0 7
                    Inputs.machine_0 H0) 0 1);
      vm_compute; reflexivity.
  - apply (proj2 (num_in_neighbors_routing 0 Inputs.two_machines 0 42
                    Inputs.machine_0 H0) 1 Inputs.machine_1 1 2);
      try solve [exact H1 | vm_compute; reflexivity].
    right. exists 1, 1. repeat split; try (vm_compute; reflexivity).
    vm_compute. discriminate.
Defined.

(** ** The id maps of a fragment *)

Section id_map_facts.
Import DistGraph Invariants.
Context {VertexData EdgeData : Type}.
Implicit Types f : fragment VertexData EdgeData.

Lemma elem_of_concat {A} (ll : list (list A)) (x : A) :
  x ∈ concat ll <-> exists l, l ∈ ll /\ x ∈ l.
Proof.
  induction ll as [|l ll IH]; simpl.
  - rewrite elem_of_nil. split; [tauto |].
    intros (l & Hl & _). now apply elem_of_nil in Hl.
  - rewrite elem_of_app, IH. split.
    + intros [Hx | (l' & Hl' & Hx)].
      * exists l. split; [apply list_elem_of_here | exact Hx].
      * exists l'. split; [now apply list_elem_of_further | exact Hx].
    + intros (l' & Hl' & Hx). apply elem_of_cons in Hl' as [-> | Hl'].
      * now left.
      * right. now exists l'.
Qed.

Lemma id_insert_elem (x : N) (l : list N) (g : N) :
  g ∈ id_insert x l <-> g = x \/ g ∈ l.
Proof.
  induction l as [|y l IH]; simpl.
  - rewrite list_elem_of_singleton, elem_of_nil. tauto.
  - destruct (x <? y).
    + now rewrite elem_of_cons.
    + rewrite !elem_of_cons, IH. tauto.
Qed.

Lemma id_insert_sorted (x : N) (l : list N) :
  StronglySorted N.le l -> StronglySorted N.le (id_insert x l).
Proof.
  induction 1 as [|y l Hs IH Hall]; simpl.
  - repeat constructor.
  - destruct (N.ltb_spec x y) as [Hlt|Hge].
    + constructor; [now constructor |].
      constructor; [lia |].
      eapply Forall_impl; [exact Hall |]. simpl. intros z Hz. lia.
    + constructor; [exact IH |].
      apply Forall_forall. intros z Hz.
      apply id_insert_elem in Hz as [-> | Hz]; [exact Hge |].
      rewrite Forall_forall in Hall. now apply Hall.
Qed.

Lemma id_sort_elem (l : list N) (g : N) : g ∈ id_sort l <-> g ∈ l.
Proof.
  induction l as [|x l IH]; simpl; [reflexivity |].
  rewrite id_insert_elem, elem_of_cons, IH. reflexivity.
Qed.

Lemma id_sort_sorted (l : list N) : StronglySorted N.le (id_sort l).
Proof.
  induction l as [|x l IH]; simpl; [constructor |].
  now apply id_insert_sorted.
Qed.

Lemma unique_after_spec (prev : N) (l : list N) :
  StronglySorted N.le l -> Forall (fun x => prev <= x) l ->
  StronglySorted N.lt (unique_after prev l)
  /\ Forall (fun x => prev < x) (unique_after prev l)
  /\ forall g, g ∈ unique_after prev l <-> g ∈ l /\ g <> prev.
Proof.
  intros Hs. revert prev.
  induction Hs as [|x l Hs IH Hall]; intros prev Hprev; simpl.
  - split; [constructor |]. split; [constructor |].
    intros g. rewrite elem_of_nil. tauto.
  - apply Forall_cons in Hprev as [Hpx Hprev].
    destruct (N.eqb_spec x prev) as [-> | Hne].
    + destruct (IH prev Hprev) as (H1 & H2 & H3).
      split; [exact H1 |]. split; [exact H2 |].
      intros g. rewrite H3, elem_of_cons. intuition congruence.
    + destruct (IH x Hall) as (H1 & H2 & H3).
      split; [now constructor |]. split.
      * constructor; [lia |].
        eapply Forall_impl; [exact H2 |]. simpl. intros z Hz. lia.
      * intros g. rewrite !elem_of_cons, H3.
        rewrite Forall_forall in Hprev, Hall.
        split.
        -- intros [-> | [Hg Hgx]]; [tauto |].
           split; [tauto |]. specialize (Hall g Hg). lia.
        -- intros [[-> | Hg] Hgp]; [tauto |].
           destruct (N.eq_dec g x) as [-> | Hgx]; tauto.
Qed.

Lemma unique_spec (l : list N) :
  StronglySorted N.le l ->
  StronglySorted N.lt (unique l) /\ forall g, g ∈ unique l <-> g ∈ l.
Proof.
  intros Hs. destruct l as [|x l]; simpl.
  - split; [constructor | reflexivity].
  - apply StronglySorted_inv in Hs as [Hs Hall].
    destruct (unique_after_spec x l Hs Hall) as (H1 & H2 & H3).
    split; [now constructor |].
    intros g. rewrite !elem_of_cons, H3.
    destruct (N.eq_dec g x); tauto.
Qed.

Lemma ascending_lookup (l : list N) (i j : nat) (a b : N) :
  StronglySorted N.lt l -> l !! i = Some a -> l !! j = Some b ->
  ((i < j)%nat <-> a < b).
Proof.
  intros Hs.
  assert (Hlt : forall i j a b, (i < j)%nat ->
            l !! i = Some a -> l !! j = Some b -> a < b).
  { clear i j a b. induction Hs as [|x l Hs IH Hall]; intros i j a b Hij Ha Hb;
      [discriminate |].
    destruct j as [|j]; [lia |].
    destruct i as [|i].
    - injection Ha as <-. simpl in Hb.
      exact (Forall_lookup_1 _ _ _ _ Hall Hb).
    - simpl in Ha, Hb. apply (IH i j); [lia | assumption..]. }
  intros Ha Hb. split; [intros Hij; now apply (Hlt i j) |].
  intros Hab.
  destruct (Nat.lt_trichotomy i j) as [Hij | [-> | Hji]]; [exact Hij | |].
  - rewrite Ha in Hb. injection Hb as ->. lia.
  - pose proof (Hlt j i b a Hji Hb Ha). lia.
Qed.

Lemma index_ids_spec (l : list N) (m : gmap N N) (i : N) :
  StronglySorted N.lt l ->
  (forall k g, l !! k = Some g ->
     index_ids m i l !! g = Some ((i + N.of_nat k) mod UINT32_MOD))
  /\ (forall g, g ∉ l -> index_ids m i l !! g = m !! g).
Proof.
  intros Hs. revert m i.
  induction Hs as [|x l Hs IH Hall]; intros m i; simpl.
  - split; [intros k g H; discriminate | reflexivity].
  - destruct (IH (<[x := i mod UINT32_MOD]> m) (i + 1)) as [Hin Hout].
    assert (Hx : x ∉ l).
    { intros Hx. rewrite Forall_forall in Hall. specialize (Hall x Hx). lia. }
    split.
    + intros [|k] g Hk; simpl in Hk.
      * injection Hk as <-. rewrite (Hout x Hx), lookup_insert_eq.
        f_equal. f_equal. lia.
      * rewrite (Hin k g Hk). f_equal. f_equal. lia.
    + intros g Hg. rewrite not_elem_of_cons in Hg. destruct Hg as [Hgx Hgl].
      rewrite (Hout g Hgl). now rewrite lookup_insert_ne.
Qed.

Lemma merged_ids_spec (old : list N) (atoms : list (list N)) (m : gmap N N) :
  vec_size (unique (id_sort (old ++ concat atoms))) <= UINT32_MOD ->
  let l2g := unique (id_sort (old ++ concat atoms)) in
  (forall g, g ∈ l2g <-> g ∈ old \/ exists atom, atom ∈ atoms /\ g ∈ atom)
  /\ (forall i j gi gj,
        l2g !! i = Some gi -> l2g !! j = Some gj ->
        ((i < j)%nat <-> gi < gj))
  /\ (forall i g,
        l2g !! i = Some g -> index_ids m 0 l2g !! g = Some (N.of_nat i))
  /\ (forall g, g ∉ l2g -> index_ids m 0 l2g !! g = m !! g)
  /\ (m = ∅ ->
      forall g i,
        index_ids m 0 l2g !! g = Some i -> l2g !! N.to_nat i = Some g).
Proof.
  intros Hsize l2g.
  destruct (unique_spec _ (id_sort_sorted (old ++ concat atoms)))
    as [Hs Helem].
  fold l2g in Hs, Helem, Hsize.
  destruct (index_ids_spec l2g m 0 Hs) as [Hin Hout].
  assert (Hidx : forall i g,
            l2g !! i = Some g -> index_ids m 0 l2g !! g = Some (N.of_nat i)).
  { intros i g Hi. rewrite (Hin i g Hi). f_equal.
    apply lookup_lt_Some in Hi. unfold vec_size in Hsize.
    rewrite N.add_0_l. apply N.mod_small. lia. }
  split; [| split; [| split; [exact Hidx | split; [exact Hout |]]]].
  - intros g. rewrite Helem, id_sort_elem, elem_of_app.
    rewrite elem_of_concat. reflexivity.
  - intros i j gi gj. now apply ascending_lookup.
  - intros -> g i Hg.
    destruct (decide (g ∈ l2g)) as [Hgin | Hgout].
    + apply list_elem_of_lookup_1 in Hgin as [k Hk].
      rewrite (Hidx k g Hk) in Hg. injection Hg as <-.
      now rewrite Nat2N.id.
    + rewrite (Hout g Hgout), lookup_empty in Hg. discriminate.
Qed.

(** The vertex id maps [construct_local_fragment] builds meet the class's
    requirements on local ids: [local2globalvid] holds exactly the vertex
    ids of the atoms (and what it held before), local ids are assigned in
    the order of the global ids, so that sorting by either gives the same
    sequence and no global id has two local ids, [global2localvid] sends
    each of these global ids back to its local id and keeps its other
    entries, and [localvid2owner] has an entry for every local id.  The
    number of local vertices fits a vertex id. *)
Theorem construct_vid_maps_orders_local_ids f globalvids :
  vec_size (local2globalvid (construct_vid_maps f globalvids))
    <= UINT32_MOD ->
  (forall g,
     g ∈ local2globalvid (construct_vid_maps f globalvids)
     <-> g ∈ local2globalvid f \/ exists atom, atom ∈ globalvids /\ g ∈ atom)
  /\ (forall i j gi gj,
        local2globalvid (construct_vid_maps f globalvids) !! i = Some gi ->
        local2globalvid (construct_vid_maps f globalvids) !! j = Some gj ->
        ((i < j)%nat <-> gi < gj))
  /\ (forall i g,
        local2globalvid (construct_vid_maps f globalvids) !! i = Some g ->
        global2localvid (construct_vid_maps f globalvids) !! g
        = Some (N.of_nat i))
  /\ (forall g,
        g ∉ local2globalvid (construct_vid_maps f globalvids) ->
        global2localvid (construct_vid_maps f globalvids) !! g
        = global2localvid f !! g)
  /\ (global2localvid f = ∅ ->
      forall g i,
        global2localvid (construct_vid_maps f globalvids) !! g = Some i ->
        local2globalvid (construct_vid_maps f globalvids) !! N.to_nat i
        = Some g)
  /\ vec_size (localvid2owner (construct_vid_maps f globalvids))
     = vec_size (local2globalvid (construct_vid_maps f globalvids)).
Proof.
  intros Hsize. simpl in *.
  destruct (merged_ids_spec (local2globalvid f) globalvids
              (global2localvid f) Hsize) as (H1 & H2 & H3 & H4 & H5).
  repeat (split; [assumption |]).
  unfold vec_size, vec_resize.
  rewrite length_app, length_take, length_replicate. lia.
Qed.

(** The edge id maps are built in the same way when the atoms carry global
    edge ids: local edge ids are assigned in the order of the global edge
    ids and [global2localeid] sends each global edge id of the atoms back
    to its local id. *)
Theorem construct_eid_maps_orders_local_ids f globaleids :
  edge_canonical_numbering f = false ->
  vec_size (local2globaleid (construct_eid_maps f globaleids))
    <= UINT32_MOD ->
  (forall g,
     g ∈ local2globaleid (construct_eid_maps f globaleids)
     <-> g ∈ local2globaleid f \/ exists atom, atom ∈ globaleids /\ g ∈ atom)
  /\ (forall i j gi gj,
        local2globaleid (construct_eid_maps f globaleids) !! i = Some gi ->
        local2globaleid (construct_eid_maps f globaleids) !! j = Some gj ->
        ((i < j)%nat <-> gi < gj))
  /\ (forall i g,
        local2globaleid (construct_eid_maps f globaleids) !! i = Some g ->
        global2localeid (construct_eid_maps f globaleids) !! g
        = Some (N.of_nat i))
  /\ (forall g,
        g ∉ local2globaleid (construct_eid_maps f globaleids) ->
        global2localeid (construct_eid_maps f globaleids) !! g
        = global2localeid f !! g)
  /\ (global2localeid f = ∅ ->
      forall g i,
        global2localeid (construct_eid_maps f globaleids) !! g = Some i ->
        local2globaleid (construct_eid_maps f globaleids) !! N.to_nat i
        = Some g).
Proof.
  intros Hmode. unfold construct_eid_maps. rewrite Hmode. simpl.
  intros Hsize.
  destruct (merged_ids_spec (local2globaleid f) globaleids
              (global2localeid f) Hsize) as (H1 & H2 & H3 & H4 & H5).
  repeat (split; [assumption |]). assumption.
Qed.

Lemma number_edge_size (m : gmap (N * N) N) (e : N * N) :
  (size m <= size (number_edge m e))%nat.
Proof.
  unfold number_edge. destruct (m !! e) eqn:He; [lia |].
  rewrite map_size_insert_None by exact He. lia.
Qed.

Lemma numbering_size (l : list (N * N)) (m : gmap (N * N) N) :
  (size m <= size (foldl number_edge m l))%nat.
Proof.
  revert m. induction l as [|e l IH]; intros m; simpl; [lia |].
  pose proof (number_edge_size m e). pose proof (IH (number_edge m e)). lia.
Qed.

Lemma number_edge_dense (m : gmap (N * N) N) (e : N * N) :
  dense m -> N.of_nat (size (number_edge m e)) <= UINT32_MOD ->
  dense (number_edge m e).
Proof.
  intros (Hlt & Hall & Hinj). unfold number_edge, dense.
  destruct (m !! e) eqn:He; [intros _; now repeat split |].
  rewrite !map_size_insert_None by exact He. intros Hsize.
  rewrite (N.mod_small (N.of_nat (size m))) by lia.
  repeat split.
  - intros e' i. destruct (decide (e' = e)) as [-> | Hne].
    + rewrite lookup_insert_eq. intros [= <-]. lia.
    + rewrite lookup_insert_ne by congruence. intros Hi.
      specialize (Hlt e' i Hi). lia.
  - intros i Hi. destruct (decide (i = N.of_nat (size m))) as [-> | Hne].
    + exists e. now rewrite lookup_insert_eq.
    + destruct (Hall i) as [e' He']; [lia |].
      exists e'. rewrite lookup_insert_ne; [exact He' |]. congruence.
  - intros e1 e2 i.
    destruct (decide (e1 = e)) as [-> | Hne1];
      destruct (decide (e2 = e)) as [-> | Hne2];
      rewrite ?lookup_insert_eq, ?lookup_insert_ne by congruence.
    + reflexivity.
    + intros [= <-] H2. specialize (Hlt e2 _ H2). lia.
    + intros H1 [= <-]. specialize (Hlt e1 _ H1). lia.
    + apply Hinj.
Qed.

Lemma numbering_dense (l : list (N * N)) (m : gmap (N * N) N) :
  dense m -> N.of_nat (size (foldl number_edge m l)) <= UINT32_MOD ->
  dense (foldl number_edge m l).
Proof.
  revert m. induction l as [|e l IH]; intros m Hd Hsize; simpl in *;
    [exact Hd |].
  apply IH; [| exact Hsize].
  apply number_edge_dense; [exact Hd |].
  pose proof (numbering_size l (number_edge m e)). lia.
Qed.

Lemma numbering_domain (l : list (N * N)) (m : gmap (N * N) N) (e : N * N) :
  is_Some (foldl number_edge m l !! e) <-> is_Some (m !! e) \/ e ∈ l.
Proof.
  revert m. induction l as [|x l IH]; intros m; simpl.
  - rewrite elem_of_nil. tauto.
  - rewrite IH, elem_of_cons. unfold number_edge.
    destruct (m !! x) eqn:Hx.
    + split; [tauto |]. intros [H | [-> | H]]; try tauto.
      left. now rewrite Hx.
    + destruct (decide (e = x)) as [-> | Hne].
      * rewrite lookup_insert_eq. split; [tauto |]. intros _. left. eauto.
      * rewrite lookup_insert_ne by congruence. intuition congruence.
Qed.

(** The canonical numbering of the edges of the atoms is dense: the map
    holds exactly the [(src, dest)] pairs of the atoms, no two pairs get
    the same id, and the ids are the numbers below the size of the map,
    which is the number of edges the local store is created with.  The
    number of distinct edges fits an edge id. *)
Theorem canonical_numbering_is_dense edge_src_dest :
  N.of_nat (size (canonical_numbering edge_src_dest)) <= UINT32_MOD ->
  (forall e,
     is_Some (canonical_numbering edge_src_dest !! e)
     <-> exists atom, atom ∈ edge_src_dest /\ e ∈ atom)
  /\ (forall e i,
        canonical_numbering edge_src_dest !! e = Some i ->
        i < N.of_nat (size (canonical_numbering edge_src_dest)))
  /\ (forall i,
        i < N.of_nat (size (canonical_numbering edge_src_dest)) ->
        exists e, canonical_numbering edge_src_dest !! e = Some i)
  /\ (forall e1 e2 i,
        canonical_numbering edge_src_dest !! e1 = Some i ->
        canonical_numbering edge_src_dest !! e2 = Some i -> e1 = e2).
Proof.
  intros Hsize. unfold canonical_numbering in *. split.
  - intros e. rewrite numbering_domain, elem_of_concat, lookup_empty.
    split; [intros [[x Hx] | H]; [discriminate | exact H] | now right].
  - apply numbering_dense; [| exact Hsize].
    repeat split.
    + intros e i H. rewrite lookup_empty in H. discriminate.
    + intros i H. rewrite map_size_empty in H. lia.
    + intros e1 e2 i H. rewrite lookup_empty in H. discriminate.
Qed.

End id_map_facts.

Lemma construct_vid_maps_orders_local_ids_witness :
  DistGraph.local2globalvid
    (DistGraph.construct_vid_maps Inputs.machine_0 [[99; 7]; [3; 99]])
  = [3; 7; 42; 99]
  /\ DistGraph.global2localvid
       (DistGraph.construct_vid_maps Inputs.machine_0 [[99; 7]; [3; 99]])
       !! 42 = Some (N.of_nat 2).
Proof.
  split; [vm_compute; reflexivity |].
  apply (proj1 (proj2 (proj2 (construct_vid_maps_orders_local_ids
                                Inputs.machine_0 [[99; 7]; [3; 99]]
                                ltac:(vm_compute; discriminate))))).
  vm_compute. reflexivity.
Defined.

Lemma construct_eid_maps_orders_local_ids_witness :
  DistGraph.local2globaleid
    (DistGraph.construct_eid_maps Inputs.machine_0 [[12; 10]; [5]])
  = [5; 10; 11; 12]
  /\ DistGraph.global2localeid
       (DistGraph.construct_eid_maps Inputs.machine_0 [[12; 10]; [5]])
       !! 11 = Some (N.of_nat 2).
Proof.
  split; [vm_compute; reflexivity |].
  apply (proj1 (proj2 (proj2 (construct_eid_maps_orders_local_ids
                                Inputs.machine_0 [[12; 10]; [5]]
                                eq_refl
                                ltac:(vm_compute; discriminate))))).
  vm_compute. reflexivity.
Defined.

Lemma canonical_numbering_is_dense_witness :
  DistGraph.canonical_numbering [[(0, 1); (1, 0)]; [(1, 0); (2, 1)]]
    !! (2, 1) = Some 2
  /\ forall e i,
       DistGraph.canonical_numbering [[(0, 1); (1, 0)]; [(1, 0); (2, 1)]]
         !! e = Some i ->
       i < N.of_nat
             (size (DistGraph.canonical_numbering
                      [[(0, 1); (1, 0)]; [(1, 0); (2, 1)]])).
Proof.
  split; [vm_compute; reflexivity |].
  apply (canonical_numbering_is_dense [[(0, 1); (1, 0)]; [(1, 0); (2, 1)]]).
  vm_compute. discriminate.
Defined.

(** ** The greedy colouring *)

Section greedy_coloring_facts.
Import LocalStore Inputs Invariants.
Context {VertexData EdgeData : Type}.
Implicit Types s : graph_local_store VertexData EdgeData.

(** A loop whose body returns and keeps an invariant of the elements
    already visited returns, with the invariant of all elements. *)
Lemma for_each_inv {A S : Type} (P : list A -> S -> Prop)
    (body : S -> A -> outcome S) (l : list A) (st : S) :
  P [] st ->
  (forall done x rest st,
     l = done ++ x :: rest -> P done st ->
     exists st', body st x = Ok st' /\ P (done ++ [x]) st') ->
  exists st', for_each l body st = Ok st' /\ P l st'.
Proof.
  intros Hinit Hstep.
  assert (Hgen : forall rest done st,
            l = done ++ rest -> P done st ->
            exists st', for_each rest body st = Ok st' /\ P l st').
  { induction rest as [|x rest IH]; intros done st0 Hl HP; simpl.
    - exists st0. rewrite app_nil_r in Hl. subst. now split.
    - destruct (Hstep done x rest st0 Hl HP) as (st1 & Hb & HP1).
      rewrite Hb. simpl.
      apply (IH (done ++ [x])); [| exact HP1].
      now rewrite <- app_assoc. }
  now apply (Hgen l []).
Qed.

Lemma pair_insert_perm (x : N * N) (l : list (N * N)) :
  pair_insert x l ≡ₚ x :: l.
Proof.
  induction l as [|y l IH]; simpl; [reflexivity |].
  destruct (pair_lt x y); [reflexivity |].
  rewrite IH. apply Permutation_swap.
Qed.

Lemma pair_sort_perm (l : list (N * N)) : pair_sort l ≡ₚ l.
Proof.
  induction l as [|x l IH]; simpl; [reflexivity |].
  now rewrite pair_insert_perm, IH.
Qed.

Lemma color_set_insert_spec (c : N) (set : list N) :
  StronglySorted N.lt set ->
  StronglySorted N.lt (color_set_insert c set)
  /\ forall x, x ∈ color_set_insert c set <-> x = c \/ x ∈ set.
Proof.
  induction 1 as [|d rest Hs IH Hall]; simpl.
  - split; [repeat constructor |].
    intros x. rewrite list_elem_of_singleton, elem_of_nil. tauto.
  - destruct IH as [IHs IHe].
    destruct (N.ltb_spec c d) as [Hlt|Hge].
    + split.
      * constructor; [now constructor |].
        constructor; [exact Hlt |].
        eapply Forall_impl; [exact Hall |]. simpl. intros z Hz. lia.
      * intros x. rewrite !elem_of_cons. tauto.
    + destruct (N.eqb_spec c d) as [-> | Hne].
      * split; [now constructor |].
        intros x. rewrite !elem_of_cons. tauto.
      * split.
        -- constructor; [exact IHs |].
           apply Forall_forall. intros z Hz.
           apply IHe in Hz as [-> | Hz]; [lia |].
           rewrite Forall_forall in Hall. now apply Hall.
        -- intros x. rewrite !elem_of_cons, IHe. tauto.
Qed.

(** The loop that finds the lowest free colour, started at [start] on an
    ascending set of colours that are not below [start]: unless the set
    reaches the last colour, it returns a colour that is not in the set. *)
Lemma lowest_free_color_spec (set : list N) (start : N) :
  StronglySorted N.lt set ->
  Forall (fun d => start <= d) set ->
  start + vec_size set < UINT32_MOD ->
  exists c,
    lowest_free_color start set = Ok c
    /\ (c ∉ set) /\ start <= c /\ c <= start + vec_size set
    /\ forall c', start <= c' -> c' < c -> c' ∈ set.
Proof.
  intros Hs. revert start.
  induction Hs as [|d rest Hs IH Hall]; intros start Hge Hfit; simpl.
  - exists start. split; [reflexivity |]. split; [apply not_elem_of_nil |].
    unfold vec_size. simpl. split; [lia |]. split; [lia |].
    intros c' H1 H2. lia.
  - apply Forall_cons in Hge as [Hd Hge].
    unfold vec_size in *. simpl in Hfit.
    destruct (N.eqb_spec start d) as [-> | Hne]; simpl.
    + rewrite (N.mod_small (d + 1)) by lia.
      destruct (N.eqb_spec (d + 1) 0) as [|_]; [lia |]. simpl.
      destruct (IH (d + 1)) as (c & Hc & Hnot & Hlo & Hhi & Hmin).
      * eapply Forall_impl; [exact Hall |]. simpl. intros z Hz. lia.
      * lia.
      * exists c. split; [exact Hc |]. split.
        -- rewrite not_elem_of_cons. split; [lia | exact Hnot].
        -- simpl. split; [lia |]. split; [lia |].
           intros c' H1 H2. destruct (N.eq_dec c' d) as [-> | Hcd].
           ++ apply list_elem_of_here.
           ++ apply list_elem_of_further. apply Hmin; lia.
    + exists start. split; [reflexivity |]. split.
      * rewrite not_elem_of_cons. split; [exact Hne |].
        intros Hin. rewrite Forall_forall in Hall. specialize (Hall _ Hin).
        lia.
      * simpl. split; [lia |]. split; [lia |].
        intros c' H1 H2. lia.
Qed.

Lemma ascending_NoDup (l : list N) : StronglySorted N.lt l -> NoDup l.
Proof.
  induction 1 as [|x l Hs IH Hall]; constructor; [| exact IH].
  intros Hin. rewrite Forall_forall in Hall. specialize (Hall x Hin). lia.
Qed.

Lemma set_color_Ok s v c :
  v < nvertices s -> vec_size (vcolors s) = nvertices s ->
  set_color s v c = Ok (set_vcolors s (<[N.to_nat v := c]> (vcolors s))).
Proof.
  intros Hv Hc. unfold set_color.
  apply N.ltb_lt in Hv as Hb. rewrite Hb. simpl.
  rewrite vec_put_in_range by lia. reflexivity.
Qed.

Lemma colorable_set_vcolors s cs :
  colorable s -> vec_size cs = nvertices s -> colorable (set_vcolors s cs).
Proof.
  intros (Hv & Hc & Hn & Hsrc) Hcs. split; [exact Hv |].
  split; [exact Hcs |]. split; [exact Hn | exact Hsrc].
Qed.

Lemma color_of_insert s cs v c u :
  v < vec_size cs ->
  color_of (set_vcolors s (<[N.to_nat v := c]> cs)) u
  = if decide (u = v) then c else color_of (set_vcolors s cs) u.
Proof.
  intros Hv. unfold color_of, vec_size in *. simpl.
  destruct (decide (u = v)) as [-> | Hne].
  - rewrite list_lookup_insert_eq by lia. reflexivity.
  - rewrite list_lookup_insert_ne by lia. reflexivity.
Qed.

Lemma reset_colors s vs :
  vec_size (vcolors s) = nvertices s ->
  (forall vid, vid ∈ vs -> vid < nvertices s) ->
  exists cs,
    for_each vs (fun s v => set_color s v 0) s = Ok (set_vcolors s cs)
    /\ vec_size cs = nvertices s
    /\ forall v, v ∈ vs -> color_of (set_vcolors s cs) v = 0.
Proof.
  intros Hc Hvs.
  destruct (for_each_inv
              (fun done st =>
                 exists cs, st = set_vcolors s cs
                   /\ vec_size cs = nvertices s
                   /\ forall v, v ∈ done -> color_of (set_vcolors s cs) v = 0)
              (fun s v => set_color s v 0) vs s)
    as (st & Hrun & cs & -> & Hlen & Hzero).
  - exists (vcolors s). split; [now destruct s |]. split; [exact Hc |].
    intros v Hv. now apply elem_of_nil in Hv.
  - intros done x rest st Hl (cs & -> & Hlen & Hzero).
    assert (Hx : x < nvertices s).
    { apply Hvs. rewrite Hl. apply elem_of_app. right.
      apply list_elem_of_here. }
    rewrite (set_color_Ok (set_vcolors s cs) x 0 Hx Hlen).
    eexists. split; [reflexivity |].
    exists (<[N.to_nat x := 0]> cs). split; [reflexivity |].
    split; [unfold vec_size in *; now rewrite length_insert |].
    intros v Hv. change (vcolors (set_vcolors s cs)) with cs.
    rewrite color_of_insert by lia.
    destruct (decide (v = x)) as [-> | Hne]; [reflexivity |].
    apply Hzero. apply elem_of_app in Hv as [Hv | Hv]; [exact Hv |].
    apply list_elem_of_singleton in Hv. contradiction.
  - exists cs. auto.
Qed.

Lemma degree_permutation s vs :
  vec_size (in_edges s) = nvertices s ->
  (forall vid, vid ∈ vs -> vid < nvertices s) ->
  exists perm,
    for_each vs
      (fun perm v =>
         n ← num_in_neighbors s v;
         mret (perm ++ [(neg_degree n, v)]))
      [] = Ok perm
    /\ snd <$> perm = vs.
Proof.
  intros Hi Hvs.
  apply (for_each_inv (fun done perm => snd <$> perm = done)).
  - reflexivity.
  - intros done x rest perm Hl Hperm.
    assert (Hx : x < nvertices s).
    { apply Hvs. rewrite Hl. apply elem_of_app. right.
      apply list_elem_of_here. }
    unfold num_in_neighbors. apply N.ltb_lt in Hx as Hb. rewrite Hb. simpl.
    destruct (vec_lookup_in_range (in_edges s) x) as [l Hlk]; [lia |].
    rewrite (vec_at_lookup _ _ _ Hlk). simpl.
    eexists. split; [reflexivity |].
    rewrite fmap_app, Hperm. reflexivity.
Qed.

Lemma neighbor_colors_of_spec s ins :
  well_sized s -> vec_size (vcolors s) = nvertices s ->
  Forall (fun eid => eid < nedges s) ins ->
  Forall (fun eid => _source (key s eid) < nvertices s) ins ->
  exists set,
    neighbor_colors_of s ins = Ok set
    /\ StronglySorted N.lt set
    /\ forall c, c ∈ set
         <-> exists eid, eid ∈ ins /\ color_of s (_source (key s eid)) = c.
Proof.
  intros Hw Hc Hv Hs. unfold neighbor_colors_of.
  apply (for_each_inv
           (fun done set =>
              StronglySorted N.lt set
              /\ forall c, c ∈ set
                   <-> exists eid,
                         eid ∈ done /\ color_of s (_source (key s eid)) = c)).
  - split; [constructor |]. intros c. rewrite elem_of_nil.
    split; [tauto |]. intros (eid & Hin & _). now apply elem_of_nil in Hin.
  - intros done x rest set Hl (Hsorted & Hmem).
    assert (Hx : x ∈ ins).
    { rewrite Hl. apply elem_of_app. right. apply list_elem_of_here. }
    rewrite Forall_forall in Hv, Hs.
    rewrite (source_key s x Hw (Hv x Hx)). simpl.
    rewrite (color_color_of s _ Hc (Hs x Hx)). simpl.
    eexists. split; [reflexivity |].
    destruct (color_set_insert_spec
                (color_of s (_source (key s x))) set Hsorted) as [Hs' He'].
    split; [exact Hs' |].
    intros c. rewrite He', Hmem. split.
    + intros [-> | (eid & Hin & Heq)].
      * exists x. split; [| reflexivity].
        apply elem_of_app. right. apply list_elem_of_here.
      * exists eid. split; [| exact Heq]. apply elem_of_app. now left.
    + intros (eid & Hin & Heq).
      apply elem_of_app in Hin as [Hin | Hin].
      * right. now exists eid.
      * apply list_elem_of_singleton in Hin as ->. now left.
Qed.

(** A vertex has no more neighbour colours than there are vertices. *)
Lemma neighbor_colors_count s (set : list N) :
  StronglySorted N.lt set ->
  (forall c, c ∈ set -> exists v, v < nvertices s /\ color_of s v = c) ->
  vec_size set <= nvertices s.
Proof.
  intros Hs Hmem.
  assert (Hsub : set ⊆+ (color_of s <$>
                           (N.of_nat <$> seq 0 (N.to_nat (nvertices s))))).
  { apply NoDup_submseteq; [now apply ascending_NoDup |].
    intros c Hc. destruct (Hmem c Hc) as (v & Hv & <-).
    apply list_elem_of_fmap_2. apply list_elem_of_fmap.
    exists (N.to_nat v). split; [lia |]. apply elem_of_seq. lia. }
  apply submseteq_length in Hsub.
  rewrite !length_fmap, length_seq in Hsub. unfold vec_size. lia.
Qed.

(** The recolouring loop, run on a store whose colours are all 0 over an
    order that visits every vertex once. *)
Lemma recolor_loop s (order : list (N * N)) :
  colorable s ->
  NoDup (snd <$> order) ->
  (forall v, v ∈ snd <$> order -> v < nvertices s) ->
  (forall v, color_of s v = 0) ->
  exists cs mc,
    for_each order
      (fun '(s, max_color) p =>
         let vid := snd p in
         ins ← in_edge_ids s vid;
         neighbor_colors ← neighbor_colors_of s ins;
         vertex_color ← color s vid;
         vertex_color ← lowest_free_color vertex_color neighbor_colors;
         s ← set_color s vid vertex_color;
         mret (s, N.max max_color vertex_color))
      (s, 0)
    = Ok (set_vcolors s cs, mc)
    /\ vec_size cs = nvertices s
    /\ (forall v, color_of (set_vcolors s cs) v <= mc)
    /\ mc <= nvertices s
    /\ (symmetric_in_edges s -> no_self_edges s ->
        forall vid ins eid,
          in_edges s !! N.to_nat vid = Some ins -> eid ∈ ins ->
          vid ∈ snd <$> order -> _source (key s eid) ∈ snd <$> order ->
          color_of (set_vcolors s cs) (_source (key s eid))
          <> color_of (set_vcolors s cs) vid)
    /\ (no_self_edges s -> 0 < nvertices s ->
        forall c, c <= mc ->
          exists v, v < nvertices s /\ color_of (set_vcolors s cs) v = c).
Proof.
  intros Hcol Hnodup Hrange Hzero.
  pose proof Hcol as ((Hw & Hvi & Hvo) & Hc & Hn & Hsrc).
  destruct (for_each_inv
              (fun (done : list (N * N))
                   (st : graph_local_store VertexData EdgeData * N) =>
                 exists cs,
                   st.1 = set_vcolors s cs
                   /\ vec_size cs = nvertices s
                   /\ (forall v, v ∉ snd <$> done ->
                                 color_of (set_vcolors s cs) v = 0)
                   /\ (forall v, color_of (set_vcolors s cs) v <= st.2)
                   /\ st.2 <= nvertices s
                   /\ (symmetric_in_edges s -> no_self_edges s ->
                       forall vid ins eid,
                         in_edges s !! N.to_nat vid = Some ins -> eid ∈ ins ->
                         vid ∈ snd <$> done ->
                         _source (key s eid) ∈ snd <$> done ->
                         color_of (set_vcolors s cs) (_source (key s eid))
                         <> color_of (set_vcolors s cs) vid)
                   /\ (no_self_edges s -> 0 < nvertices s ->
                       forall c, c <= st.2 ->
                         exists v, v < nvertices s
                           /\ color_of (set_vcolors s cs) v = c))
              (fun '(s, max_color) p =>
                 let vid := snd p in
                 ins ← in_edge_ids s vid;
                 neighbor_colors ← neighbor_colors_of s ins;
                 vertex_color ← color s vid;
                 vertex_color ← lowest_free_color vertex_color neighbor_colors;
                 s ← set_color s vid vertex_color;
                 mret (s, N.max max_color vertex_color))
              order (s, 0))
    as ([st mc] & Hrun & cs & Hst & Hlen & _ & Hle & Hmc & Hproper & Hused).
  - (* before the first vertex *)
    exists (vcolors s). simpl. split; [now destruct s |].
    split; [exact Hc |].
    replace (set_vcolors s (vcolors s)) with s by now destruct s.
    split; [intros v _; apply Hzero |].
    split; [intros v; rewrite Hzero; lia |].
    split; [lia |].
    split; [intros _ _ vid ins eid _ _ Hin; now apply elem_of_nil in Hin |].
    intros _ Hpos c Hc0. exists 0. split; [exact Hpos |].
    rewrite Hzero. lia.
  - (* one vertex *)
    intros done p rest [st mc]
           Hl (cs & Hst & Hlen & Hrest & Hle & Hmc & Hprop & Huse).
    simpl in Hst, Hle, Hmc, Huse. subst st.
    set (vid := snd p).
    assert (Hdone : snd <$> order = (snd <$> done) ++ vid :: (snd <$> rest)).
    { rewrite Hl, fmap_app, fmap_cons. reflexivity. }
    assert (Hvid : vid < nvertices s).
    { apply Hrange. rewrite Hdone. apply elem_of_app. right.
      apply list_elem_of_here. }
    assert (Hfresh : vid ∉ snd <$> done).
    { rewrite Hdone in Hnodup. apply NoDup_app in Hnodup as (_ & Hdis & _).
      intros Hin. apply (Hdis vid Hin). apply list_elem_of_here. }
    pose proof (colorable_set_vcolors s cs Hcol Hlen) as Hcol'.
    destruct (vec_lookup_in_range (in_edges s) vid) as [ins Hins];
      [destruct Hw as (_ & Hwi & _); lia |].
    destruct (neighbor_colors_of_spec (set_vcolors s cs) ins Hw Hlen
                (Forall_lookup_1 _ _ _ _ Hvi Hins)
                (Forall_lookup_1 _ _ _ _ Hsrc Hins))
      as (set & Hset & Hsorted & Hmem).
    assert (Hcount : vec_size set <= nvertices s).
    { apply (neighbor_colors_count (set_vcolors s cs) set Hsorted).
      intros c Hcin. apply Hmem in Hcin as (eid & Hin & Heq).
      exists (_source (key s eid)). split; [| exact Heq].
      pose proof (Forall_lookup_1 _ _ _ _ Hsrc Hins) as Hall.
      rewrite Forall_forall in Hall. now apply Hall. }
    destruct (lowest_free_color_spec set 0 Hsorted)
      as (c & Hlow & Hfree & _ & Hcle & Hmin).
    { apply Forall_forall. intros d _. lia. }
    { lia. }
    cbn beta iota zeta. fold vid.
    unfold in_edge_ids at 1.
    change (in_edges (set_vcolors s cs)) with (in_edges s).
    rewrite (vec_at_lookup _ _ _ Hins). simpl.
    rewrite Hset. simpl.
    rewrite (color_color_of (set_vcolors s cs) vid Hlen Hvid). simpl.
    rewrite (Hrest vid Hfresh), Hlow. simpl.
    rewrite (set_color_Ok (set_vcolors s cs) vid c Hvid Hlen). simpl.
    eexists. split; [reflexivity |].
    exists (<[N.to_nat vid := c]> cs). simpl.
    assert (Hcolor : forall u,
              color_of (set_vcolors s (<[N.to_nat vid := c]> cs)) u
              = if decide (u = vid) then c
                else color_of (set_vcolors s cs) u).
    { intros u. apply color_of_insert. lia. }
    split; [reflexivity |].
    split; [unfold vec_size in *; now rewrite length_insert |].
    split; [| split; [| split; [| split]]].
    + intros v Hv. rewrite Hcolor.
      rewrite fmap_app, not_elem_of_app in Hv. destruct Hv as [Hv Hvp].
      destruct (decide (v = vid)) as [-> | Hne].
      * exfalso. apply Hvp. apply list_elem_of_here.
      * now apply Hrest.
    + intros v. rewrite Hcolor.
      destruct (decide (v = vid)); [lia |]. specialize (Hle v). lia.
    + lia.
    + intros Hsym Hnoself vid0 ins0 eid0 Hins0 Hin0 Hvid0 Hsrc0.
      rewrite !Hcolor.
      rewrite fmap_app, elem_of_app in Hvid0, Hsrc0.
      assert (Hneighbor : forall eid, eid ∈ ins ->
                color_of (set_vcolors s cs) (_source (key s eid)) <> c).
      { intros eid Hin Heq. apply Hfree. apply Hmem. now exists eid. }
      destruct (decide (vid0 = vid)) as [-> | Hne0].
      * rewrite Hins in Hins0. injection Hins0 as <-.
        destruct (decide (_source (key s eid0) = vid)) as [Hself | _].
        -- exfalso. exact (Hnoself vid ins eid0 Hins Hin0 Hself).
        -- now apply Hneighbor.
      * destruct Hvid0 as [Hvid0 | Hvid0];
          [| apply list_elem_of_singleton in Hvid0; contradiction].
        destruct (decide (_source (key s eid0) = vid)) as [Hback | Hne1].
        -- destruct (Hsym vid0 ins0 eid0 Hins0 Hin0)
             as (ins' & eid' & Hins' & Hin' & Hsrc').
           rewrite Hback, Hins in Hins'. injection Hins' as <-.
           specialize (Hneighbor eid' Hin'). rewrite Hsrc' in Hneighbor.
           congruence.
        -- destruct Hsrc0 as [Hsrc0 | Hsrc0];
             [| apply list_elem_of_singleton in Hsrc0; contradiction].
           now apply (Hprop Hsym Hnoself vid0 ins0 eid0).
    + intros Hnoself Hpos c0 Hc0. simpl in Hc0.
      destruct (N.lt_trichotomy c0 c) as [Hlt | [-> | Hgt]].
      * assert (Hin0 : c0 ∈ set) by (apply Hmin; lia).
        apply Hmem in Hin0 as (eid & Hin & Heq).
        exists (_source (key s eid)). split.
        -- pose proof (Forall_lookup_1 _ _ _ _ Hsrc Hins) as Hall.
           rewrite Forall_forall in Hall. now apply Hall.
        -- rewrite Hcolor.
           destruct (decide (_source (key s eid) = vid)) as [Hself | _];
             [| exact Heq].
           exfalso. exact (Hnoself vid ins eid Hins Hin Hself).
      * exists vid. split; [exact Hvid |]. rewrite Hcolor.
        now destruct (decide (vid = vid)).
      * destruct (Huse Hnoself Hpos c0) as (w & Hwlt & Hcw); [lia |].
        exists w. split; [exact Hwlt |]. rewrite Hcolor.
        destruct (decide (w = vid)) as [-> | _]; [| exact Hcw].
        rewrite (Hrest vid Hfresh) in Hcw. lia.
  - simpl in Hst, Hle, Hmc, Hused. subst st.
    exists cs, mc. repeat split; assumption.
Qed.

Lemma vertex_range_Ok s :
  nvertices s <= UINT32_MOD ->
  vertex_range s = Ok (N.of_nat <$> seq 0 (N.to_nat (nvertices s))).
Proof.
  intros Hn. unfold vertex_range, num_vertices.
  destruct (N.ltb_spec UINT32_MOD (nvertices s)); [lia | reflexivity].
Qed.

Lemma vertex_ids_NoDup (n : nat) : NoDup (N.of_nat <$> seq 0 n).
Proof.
  apply NoDup_fmap_2_strong; [| apply NoDup_seq].
  intros x y _ _ Heq. lia.
Qed.

Lemma vertex_ids_elem (n : N) (v : N) :
  v ∈ N.of_nat <$> seq 0 (N.to_nat n) <-> v < n.
Proof.
  rewrite list_elem_of_fmap. split.
  - intros (k & -> & Hin). apply elem_of_seq in Hin. lia.
  - intros Hlt. exists (N.to_nat v). split; [lia |].
    apply elem_of_seq. lia.
Qed.

Lemma compute_coloring_core s :
  colorable s ->
  exists cs mc,
    compute_coloring s = Ok (set_vcolors s cs, mc + 1)
    /\ vec_size cs = nvertices s
    /\ (forall v, color_of (set_vcolors s cs) v <= mc)
    /\ mc <= nvertices s
    /\ (symmetric_in_edges s -> no_self_edges s ->
        proper_coloring (set_vcolors s cs))
    /\ (no_self_edges s -> 0 < nvertices s ->
        forall c, c <= mc ->
          exists v, v < nvertices s /\ color_of (set_vcolors s cs) v = c).
Proof.
  intros Hcol.
  pose proof Hcol as ((Hw & Hvi & Hvo) & Hc & Hn & Hsrc).
  set (vs := N.of_nat <$> seq 0 (N.to_nat (nvertices s))).
  assert (Hvs : forall vid, vid ∈ vs <-> vid < nvertices s)
    by apply vertex_ids_elem.
  destruct (reset_colors s vs Hc) as (cs0 & Hreset & Hlen0 & Hzero);
    [intros vid; apply Hvs |].
  pose proof (colorable_set_vcolors s cs0 Hcol Hlen0) as Hcol0.
  destruct (degree_permutation (set_vcolors s cs0) vs)
    as (perm & Hperm & Hsnd);
    [exact (proj1 (proj2 Hw)) | intros vid; apply Hvs |].
  assert (Horder : snd <$> pair_sort perm ≡ₚ vs).
  { rewrite <- Hsnd. apply fmap_Permutation. apply pair_sort_perm. }
  destruct (recolor_loop (set_vcolors s cs0) (pair_sort perm) Hcol0)
    as (cs & mc & Hloop & Hlen & Hle & Hmc & Hproper & Hused).
  { rewrite Horder. apply vertex_ids_NoDup. }
  { intros v Hv. rewrite Horder in Hv. now apply Hvs. }
  { intros v. destruct (N.lt_ge_cases v (nvertices s)) as [Hlt | Hge].
    - apply Hzero. now apply Hvs.
    - unfold color_of. simpl. rewrite lookup_ge_None_2; [reflexivity |].
      unfold vec_size in Hlen0. lia. }
  exists cs, mc.
  split; [| split; [exact Hlen | split; [exact Hle | split; [exact Hmc |
            split; [| exact Hused]]]]].
  - unfold compute_coloring.
    rewrite (vertex_range_Ok s) by lia. fold vs. simpl.
    rewrite Hreset. simpl. rewrite Hperm. simpl.
    cbv zeta in Hloop. rewrite Hloop. simpl.
    rewrite N.mod_small; [reflexivity |].
    simpl in Hmc. unfold UINT32_MOD, UINT64_MOD in *. lia.
  - intros Hsym Hnoself vid ins eid Hins Hin.
    apply (Hproper Hsym Hnoself vid ins eid Hins Hin).
    + rewrite Horder. apply Hvs. apply lookup_lt_Some in Hins.
      destruct Hw as (_ & Hwi & _). unfold vec_size in Hwi. simpl in Hins.
      lia.
    + rewrite Horder. apply Hvs.
      pose proof (Forall_lookup_1 _ _ _ _ Hsrc Hins) as Hall.
      rewrite Forall_forall in Hall. now apply Hall.
Qed.

Lemma valid_coloring_true s :
  colorable s -> proper_coloring s -> valid_coloring s = Ok true.
Proof.
  intros Hcol Hproper. unfold valid_coloring.
  rewrite (vertex_range_Ok s)
    by exact (N.lt_le_incl _ _ (proj1 (proj2 (proj2 Hcol)))).
  simpl.
  destruct (valid_coloring_loop_spec s
              (N.of_nat <$> seq 0 (N.to_nat (nvertices s))) Hcol)
    as (b & Hb & Hiff).
  { apply Forall_forall. intros vid. apply vertex_ids_elem. }
  rewrite Hb. f_equal. apply Hiff.
  apply Forall_forall. intros vid _ ins eid. apply Hproper.
Qed.

(** [compute_coloring()] returns on every store whose adjacency lists,
    colours and in-edge sources are in range: it changes nothing but the
    colours, every colour it leaves is below the number it returns, and
    that number is at most the number of vertices plus one.  No colour
    counter wraps, so the assertion in its loop never fails. *)
Theorem compute_coloring_returns_color_count s :
  colorable s ->
  exists cs n,
    compute_coloring s = Ok (set_vcolors s cs, n)
    /\ vec_size cs = nvertices s
    /\ (forall v, color_of (set_vcolors s cs) v < n)
    /\ 1 <= n /\ n <= nvertices s + 1.
Proof.
  intros Hcol.
  destruct (compute_coloring_core s Hcol)
    as (cs & mc & Hrun & Hlen & Hle & Hmc & _ & _).
  exists cs, (mc + 1). split; [exact Hrun |]. split; [exact Hlen |].
  split; [intros v; specialize (Hle v); lia | lia].
Qed.

(** "Return the NUMBER of colors": on a store with at least one vertex and
    no edge from a vertex to itself, the number [compute_coloring()]
    returns is exactly the number of colours in use: a colour is the
    colour of some vertex exactly when it is below that number. *)
Theorem compute_coloring_counts_colors_in_use s :
  colorable s -> no_self_edges s -> 0 < nvertices s ->
  exists cs n,
    compute_coloring s = Ok (set_vcolors s cs, n)
    /\ forall c,
         c < n
         <-> exists v, v < nvertices s /\ color_of (set_vcolors s cs) v = c.
Proof.
  intros Hcol Hnoself Hpos.
  destruct (compute_coloring_core s Hcol)
    as (cs & mc & Hrun & Hlen & Hle & Hmc & _ & Hused).
  exists cs, (mc + 1). split; [exact Hrun |].
  intros c. split.
  - intros Hc. apply (Hused Hnoself Hpos). lia.
  - intros (v & _ & <-). specialize (Hle v). lia.
Qed.

(** On a graph in which every edge has a reverse edge and no edge joins a
    vertex to itself, [compute_coloring()] leaves a proper colouring, and
    [valid_coloring()] called after it returns [true]. *)
Theorem compute_coloring_valid_on_symmetric_graphs s :
  colorable s -> symmetric_in_edges s -> no_self_edges s ->
  exists s' n,
    compute_coloring s = Ok (s', n)
    /\ proper_coloring s'
    /\ valid_coloring s' = Ok true.
Proof.
  intros Hcol Hsym Hnoself.
  destruct (compute_coloring_core s Hcol)
    as (cs & mc & Hrun & Hlen & _ & _ & Hproper & _).
  exists (set_vcolors s cs), (mc + 1). split; [exact Hrun |].
  specialize (Hproper Hsym Hnoself). split; [exact Hproper |].
  apply valid_coloring_true; [| exact Hproper].
  now apply colorable_set_vcolors.
Qed.

End greedy_coloring_facts.

Lemma compute_coloring_returns_color_count_witness :
  exists s,
    Inputs.path_store = Ok s
    /\ Invariants.colorable s
    /\ exists cs n,
         LocalStore.compute_coloring s = Ok (LocalStore.set_vcolors s cs, n)
         /\ vec_size cs = LocalStore.nvertices s
         /\ (forall v,
               Invariants.color_of (LocalStore.set_vcolors s cs) v < n)
         /\ 1 <= n /\ n <= LocalStore.nvertices s + 1.
Proof.
  eexists. split; [vm_compute; reflexivity |].
  match goal with |- Invariants.colorable ?s /\ _ =>
    assert (Hc : Invariants.colorable s)
  end.
  { split; [valid_store |].
    split; [reflexivity |]. split; [reflexivity |].
    repeat (constructor; try reflexivity). }
  split; [exact Hc |].
  exact (compute_coloring_returns_color_count _ Hc).
Defined.

Lemma compute_coloring_valid_on_symmetric_graphs_witness :
  Invariants.colorable (DistGraph.localstore Inputs.machine_0)
  /\ exists s' n,
       LocalStore.compute_coloring (DistGraph.localstore Inputs.machine_0)
       = Ok (s', n)
       /\ Invariants.proper_coloring s'
       /\ LocalStore.valid_coloring s' = Ok true.
Proof.
  assert (Hc : Invariants.colorable (DistGraph.localstore Inputs.machine_0)).
  { split; [valid_store |].
    split; [reflexivity |]. split; [reflexivity |].
    repeat (constructor; try reflexivity). }
  split; [exact Hc |].
  apply (compute_coloring_valid_on_symmetric_graphs _ Hc).
  - intros vid ins eid Hins Hin.
    destruct (N.to_nat vid) as [|[|k]] eqn:E; simpl in Hins;
      [| | now rewrite lookup_nil in Hins];
      injection Hins as <-; apply list_elem_of_singleton in Hin as ->.
    + assert (vid = 0) as -> by lia.
      exists [1], 1. repeat split. apply list_elem_of_here.
    + assert (vid = 1) as -> by lia.
      exists [0], 0. repeat split. apply list_elem_of_here.
  - intros vid ins eid Hins Hin.
    destruct (N.to_nat vid) as [|[|k]] eqn:E; simpl in Hins;
      [| | now rewrite lookup_nil in Hins];
      injection Hins as <-; apply list_elem_of_singleton in Hin as ->.
    + assert (vid = 0) as -> by lia. vm_compute. discriminate.
    + assert (vid = 1) as -> by lia. vm_compute. discriminate.
Defined.

(** ** Building a store and searching it *)

Section build_facts.
Import LocalStore Inputs Invariants.
Context {VertexData EdgeData : Type}.
Implicit Types s : graph_local_store VertexData EdgeData.

Lemma add_edge_Ok_inv s eid source target s' :
  well_sized s -> add_edge s eid source target = Ok s' ->
  eid < nedges s
  /\ exists ins outs,
       in_edges s !! N.to_nat target = Some ins
       /\ out_edges s !! N.to_nat source = Some outs
       /\ s' = Store (vertices s) (edgedata s)
                 (<[N.to_nat eid := Edge source target]> (edges s))
                 (<[N.to_nat target := ins ++ [eid]]> (in_edges s))
                 (<[N.to_nat source := outs ++ [eid]]> (out_edges s))
                 (vcolors s) (nvertices s) (nedges s) false (changeid s).
Proof.
  intros Hw H.
  destruct (N.eq_dec source target) as [->|Hne];
    [rewrite add_edge_fatal in H by auto; discriminate |].
  destruct (N.lt_ge_cases source (nvertices s)) as [Hs|Hs];
    [| rewrite add_edge_fatal in H by auto; discriminate].
  destruct (N.lt_ge_cases target (nvertices s)) as [Ht|Ht];
    [| rewrite add_edge_fatal in H by auto; discriminate].
  destruct (N.lt_ge_cases eid (nedges s)) as [Hid|Hid];
    [| rewrite add_edge_fatal in H by auto; discriminate].
  destruct (add_edge_records s eid source target Hw Hne Hs Ht Hid)
    as (ins & outs & Hins & Houts & Heq).
  rewrite Heq in H. injection H as <-.
  split; [exact Hid |]. now exists ins, outs.
Qed.

Lemma add_edge_recorded s eid source target s' :
  well_sized s -> add_edge s eid source target = Ok s' ->
  finalized s' = false
  /\ recorded s' eid source target
  /\ forall eid0 source0 target0,
       recorded s eid0 source0 target0 -> eid0 <> eid ->
       recorded s' eid0 source0 target0.
Proof.
  intros Hw H.
  destruct (add_edge_Ok_inv s eid source target s' Hw H)
    as (Hid & ins & outs & Hins & Houts & ->).
  destruct Hw as (He & Hi & Ho). unfold vec_size in *.
  assert (Hti : (N.to_nat target < length (in_edges s))%nat)
    by now apply lookup_lt_Some in Hins.
  assert (Hso : (N.to_nat source < length (out_edges s))%nat)
    by now apply lookup_lt_Some in Houts.
  split; [reflexivity |]. unfold recorded. simpl. split.
  - split; [apply list_lookup_insert_eq; lia |]. split.
    + exists (ins ++ [eid]). split; [now apply list_lookup_insert_eq |].
      apply elem_of_app. right. apply list_elem_of_here.
    + exists (outs ++ [eid]). split; [now apply list_lookup_insert_eq |].
      apply elem_of_app. right. apply list_elem_of_here.
  - intros eid0 source0 target0 (Hedge & (ins0 & Hins0 & Hin0)
                                  & (outs0 & Houts0 & Hout0)) Hne.
    split; [rewrite list_lookup_insert_ne by lia; exact Hedge |]. split.
    + destruct (decide (N.to_nat target0 = N.to_nat target)) as [Heq | Hneq].
      * exists (ins ++ [eid]). rewrite Heq.
        split; [now apply list_lookup_insert_eq |].
        apply elem_of_app. left. congruence.
      * exists ins0. split; [| exact Hin0].
        rewrite list_lookup_insert_ne by congruence. exact Hins0.
    + destruct (decide (N.to_nat source0 = N.to_nat source)) as [Heq | Hneq].
      * exists (outs ++ [eid]). rewrite Heq.
        split; [now apply list_lookup_insert_eq |].
        apply elem_of_app. left. congruence.
      * exists outs0. split; [| exact Hout0].
        rewrite list_lookup_insert_ne by congruence. exact Houts0.
Qed.

Lemma add_edges_recorded s calls s' :
  valid_adjacency s -> add_edges s calls = Ok s' ->
  NoDup ((fun c : N * N * N => c.1.1) <$> calls) ->
  (calls <> [] -> finalized s' = false)
  /\ (forall eid source target,
        (eid, source, target) ∈ calls -> recorded s' eid source target)
  /\ (forall eid source target,
        recorded s eid source target ->
        eid ∉ (fun c : N * N * N => c.1.1) <$> calls ->
        recorded s' eid source target).
Proof.
  revert s. induction calls as [|[[eid source] target] rest IH];
    intros s Hv H Hnodup.
  - injection H as <-. split; [congruence |]. split; [| auto].
    intros eid source target Hin. now apply elem_of_nil in Hin.
  - cbn [add_edges] in H. apply bind_Ok in H as (s1 & H1 & Hrest).
    rewrite fmap_cons in Hnodup. apply NoDup_cons in Hnodup as [Hfresh Hnd].
    simpl in Hfresh.
    destruct (add_edge_valid _ _ _ _ _ Hv H1) as (Hv1 & _ & _).
    destruct (add_edge_recorded s eid source target s1 (proj1 Hv) H1)
      as (Hfin1 & Hnew & Hold).
    destruct (IH s1 Hv1 Hrest Hnd) as (Hfin & Hcalls & Hkeep).
    split; [| split].
    + intros _. destruct rest as [|c rest'].
      * injection Hrest as <-. exact Hfin1.
      * apply Hfin. discriminate.
    + intros eid0 source0 target0 Hin.
      apply elem_of_cons in Hin as [[= -> -> ->] | Hin].
      * now apply Hkeep.
      * now apply Hcalls.
    + intros eid0 source0 target0 Hrec Hnotin.
      rewrite fmap_cons, not_elem_of_cons in Hnotin. simpl in Hnotin.
      destruct Hnotin as [Hne Hnotin].
      apply Hkeep; [| exact Hnotin]. now apply Hold.
Qed.

Lemma find_present_linear s source target ins outs e :
  valid_adjacency s -> finalized s = false ->
  in_edges s !! N.to_nat target = Some ins ->
  out_edges s !! N.to_nat source = Some outs ->
  e ∈ ins -> e ∈ outs ->
  edges s !! N.to_nat e = Some (Edge source target) ->
  exists e',
    find s source target = Ok (true, e')
    /\ edges s !! N.to_nat e' = Some (Edge source target).
Proof.
  intros (Hw & Hvi & Hvo) Hfin Hins Houts Hei Heo He.
  assert (Hready : forall l, Forall (fun eid => eid < nedges s) l ->
            Forall (fun eid => eid < nedges s
                               /\ is_Some (edges s !! N.to_nat eid)) l).
  { intros l Hl. eapply Forall_impl; [exact Hl |]. simpl. intros x Hx.
    split; [exact Hx |]. rewrite (valid_id_lookup s x Hw Hx). eauto. }
  unfold find. unfold mbind, outcome_bind, mret, outcome_ret.
  rewrite (vec_at_lookup _ _ _ Hins).
  destruct ins as [|i ins']; [now apply elem_of_nil in Hei |].
  change (vec_size (i :: ins') =? 0) with false. cbv iota.
  rewrite (vec_at_lookup _ _ _ Houts).
  destruct outs as [|o outs']; [now apply elem_of_nil in Heo |].
  change (vec_size (o :: outs') =? 0) with false. cbv iota.
  rewrite Hfin.
  destruct (vec_size (i :: ins') <? vec_size (o :: outs')).
  - destruct (linear_search_spec s (i :: ins') source target)
      as [(e' & Hres & _ & Hedge) | [_ Hnone]].
    + apply Hready. exact (Forall_lookup_1 _ _ _ _ Hvi Hins).
    + now exists e'.
    + exfalso. exact (Hnone e Hei He).
  - destruct (linear_search_spec s (o :: outs') source target)
      as [(e' & Hres & _ & Hedge) | [_ Hnone]].
    + apply Hready. exact (Forall_lookup_1 _ _ _ _ Hvo Houts).
    + now exists e'.
    + exfalso. exact (Hnone e Heo He).
Qed.

(** An edge that was added is found.  On a store built by [create_store]
    and a sequence of [add_edge] calls with distinct edge ids that all
    return, [find(source, target)] returns [(true, e)] with
    [edges[e] = (source, target)] for every edge of the sequence, both
    before [finalize()], by linear search, and after it, by binary search;
    [finalize()] returns.  The adjacency lists have sizes a [size_t] can
    hold. *)
Theorem added_edge_is_found nv ne fresh_v fresh_e calls s
    eid source target :
  add_edges (create_store (VertexData := VertexData) (EdgeData := EdgeData)
               nv ne fresh_v fresh_e new_store) calls = Ok s ->
  NoDup ((fun c : N * N * N => c.1.1) <$> calls) ->
  (eid, source, target) ∈ calls ->
  sizes_fit s ->
  (exists e,
     find s source target = Ok (true, e)
     /\ edges s !! N.to_nat e = Some (Edge source target))
  /\ exists s',
       finalize s = Ok s'
       /\ exists e,
            find s' source target = Ok (true, e)
            /\ edges s' !! N.to_nat e = Some (Edge source target).
Proof.
  intros Hbuild Hnodup Hin [Hfi Hfo].
  destruct (add_edges_valid _ _ _ (create_store_valid nv ne fresh_v fresh_e)
              Hbuild) as (Hv & _ & _).
  destruct (add_edges_recorded _ _ _
              (create_store_valid nv ne fresh_v fresh_e) Hbuild Hnodup)
    as (Hfin & Hrec & _).
  assert (Hfalse : finalized s = false).
  { apply Hfin. intros ->. now apply elem_of_nil in Hin. }
  destruct (Hrec eid source target Hin)
    as (Hedge & (ins & Hins & Hei) & (outs & Houts & Heo)).
  split.
  - exact (find_present_linear s source target ins outs eid
             Hv Hfalse Hins Houts Hei Heo Hedge).
  - pose proof Hv as (Hw & Hvi & Hvo).
    destruct (sort_all_sorts s (in_edges s) Hw Hvi) as (ins' & Hi & Hins').
    destruct (sort_all_sorts s (out_edges s) Hw Hvo) as (outs' & Ho & Houts').
    eexists. split.
    { unfold finalize. rewrite Hfalse, Hi. simpl. rewrite Ho. reflexivity. }
    destruct (Forall2_lookup_l _ _ _ _ _ Hins' Hins)
      as (sins & Hsins & Hpi & Hsi).
    destruct (Forall2_lookup_l _ _ _ _ _ Houts' Houts)
      as (souts & Hsouts & Hpo & Hso).
    unfold set_finalized, set_out_edges, set_in_edges.
    apply (find_present_finalized _ source target sins souts eid);
      simpl; try assumption; try reflexivity.
    + destruct Hw as (He & Hli & Hlo).
      split; [| split]; simpl.
      * split; [exact He |]. unfold vec_size in *. simpl.
        rewrite <- (Forall2_length _ _ _ Hins'),
                <- (Forall2_length _ _ _ Houts'). now split.
      * apply Forall_forall. intros l' Hl'.
        apply list_elem_of_lookup_1 in Hl' as [k Hk].
        destruct (Forall2_lookup_r _ _ _ _ _ Hins' Hk) as (l & Hl & Hp & _).
        rewrite Hp. exact (Forall_lookup_1 _ _ _ _ Hvi Hl).
      * apply Forall_forall. intros l' Hl'.
        apply list_elem_of_lookup_1 in Hl' as [k Hk].
        destruct (Forall2_lookup_r _ _ _ _ _ Houts' Hk) as (l & Hl & Hp & _).
        rewrite Hp. exact (Forall_lookup_1 _ _ _ _ Hvo Hl).
    + unfold vec_size. rewrite Hpi.
      exact (Forall_lookup_1 _ _ _ _ Hfi Hins).
    + unfold vec_size. rewrite Hpo.
      exact (Forall_lookup_1 _ _ _ _ Hfo Houts).
    + now rewrite Hpi.
    + now rewrite Hpo.
Qed.

End build_facts.

Lemma added_edge_is_found_witness :
  exists s,
    Invariants.add_edges
      (LocalStore.create_store 4 4 Inputs.zero_v Inputs.zero_e
         LocalStore.new_store)
      [(0, 1, 2); (1, 1, 3); (2, 2, 0); (3, 3, 0)] = Ok s
    /\ (exists e,
          LocalStore.find s 1 3 = Ok (true, e)
          /\ LocalStore.edges s !! N.to_nat e = Some (LocalStore.Edge 1 3))
    /\ exists s',
         LocalStore.finalize s = Ok s'
         /\ exists e,
              LocalStore.find s' 1 3 = Ok (true, e)
              /\ LocalStore.edges s' !! N.to_nat e
                 = Some (LocalStore.Edge 1 3).
Proof.
  eexists. split; [vm_compute; reflexivity |].
  apply (added_edge_is_found 4 4 Inputs.zero_v Inputs.zero_e
           [(0, 1, 2); (1, 1, 3); (2, 2, 0); (3, 3, 0)] _ 1 1 3).
  - vm_compute. reflexivity.
  - apply (bool_decide_unpack _). vm_compute. exact I.
  - apply list_elem_of_further. apply list_elem_of_here.
  - valid_store.
Defined.

Lemma load_save_restores_leading_records_witness :
  exists s',
    Archive.load (vpod := Archive.uint64_pod) (epod := Archive.uint64_pod)
      (Archive.save (vpod := Archive.uint64_pod)
         (epod := Archive.uint64_pod) Inputs.saved_store)
      Inputs.zero_vN Inputs.zero_eN LocalStore.new_store = Ok s'
    /\ LocalStore.vertices s' !! 0%nat
       = Some (LocalStore.VData 7 true true (5 mod VERSION_MOD)).
Proof.
  destruct (load_save_restores_leading_records
              (vpod := Archive.uint64_pod) (epod := Archive.uint64_pod)
              Inputs.saved_store LocalStore.new_store
              Inputs.zero_vN Inputs.zero_eN
              (fun d => eq_refl) (fun d => eq_refl) eq_refl eq_refl)
    as (s' & Hload & Hvertices & _).
  exists s'. split; [exact Hload |].
  apply (Hvertices 0%nat (LocalStore.VData 7 true true 5)).
  - reflexivity.
  - vm_compute. discriminate.
  - vm_compute. reflexivity.
Defined.

(** ** Edge lookup across machines *)

Section distributed_find_facts.
Import LocalStore Invariants.
Context {VertexData EdgeData : Type}.
Implicit Types f : DistGraph.fragment VertexData EdgeData.
Implicit Types cl : gmap N (DistGraph.fragment VertexData EdgeData).

Lemma find_sound (s : graph_local_store VertexData EdgeData)
    source target e :
  sizes_fit s ->
  find s source target = Ok (true, e) ->
  edges s !! N.to_nat e = Some (Edge source target).
Proof.
  intros [Hfi Hfo] Hfind.
  destruct (find_Ok_lists _ _ _ _ Hfind) as (ins & Hins & Hcase).
  destruct Hcase as [-> | (outs & Houts)].
  - unfold find in Hfind. rewrite (vec_at_lookup _ _ _ Hins) in Hfind.
    discriminate.
  - refine (proj2 (find_sound_in s source target ins outs e Hins Houts
                     _ _ Hfind)).
    + exact (Forall_lookup_1 _ _ _ _ Hfi Hins).
    + exact (Forall_lookup_1 _ _ _ _ Hfo Houts).
Qed.

(** [distributed_graph::find] reports only edges that exist: when it
    returns [(true, g)], the machine that answered (the calling machine,
    or the last machine the request was passed to) holds both endpoints in
    its fragment and a local edge between their local ids whose global id
    is [g]. *)
Theorem distributed_find_reports_existing_edge fuel cl me source target
    g tr :
  (forall p f, cl !! p = Some f -> sizes_fit (DistGraph.localstore f)) ->
  DistGraph.find fuel cl me source target = Ok ((true, g), tr) ->
  exists f localsource localtarget e,
    cl !! default me (last tr) = Some f
    /\ DistGraph.global2localvid f !! source = Some localsource
    /\ DistGraph.global2localvid f !! target = Some localtarget
    /\ edges (DistGraph.localstore f) !! N.to_nat e
       = Some (Edge localsource localtarget)
    /\ DistGraph.local2globaleid f !! N.to_nat e = Some g.
Proof.
  intros Hfit. revert me tr.
  assert (Hlocal : forall me f ls lt tr,
            cl !! me = Some f ->
            DistGraph.global2localvid f !! source = Some ls ->
            DistGraph.global2localvid f !! target = Some lt ->
            (ret ← find (DistGraph.localstore f) ls lt;
             if fst ret : bool then
               g ← vec_at (DistGraph.local2globaleid f) (snd ret);
               mret ((true, g), [])
             else mret (ret, [])) = Ok ((true, g), tr) ->
            exists f localsource localtarget e,
              cl !! default me (last tr) = Some f
              /\ DistGraph.global2localvid f !! source = Some localsource
              /\ DistGraph.global2localvid f !! target = Some localtarget
              /\ edges (DistGraph.localstore f) !! N.to_nat e
                 = Some (Edge localsource localtarget)
              /\ DistGraph.local2globaleid f !! N.to_nat e = Some g).
  { intros me f ls lt tr Hme Hls Hlt H.
    apply bind_Ok in H as ([found e] & Hfind & H). simpl in H.
    destruct found; [| inversion H].
    apply bind_Ok in H as (g' & Hg & H). apply vec_at_Ok in Hg.
    inversion H; subst. simpl.
    exists f, ls, lt, e. repeat split; try assumption.
    exact (find_sound _ _ _ _ (Hfit me f Hme) Hfind). }
  induction fuel as [|fuel IH]; intros me tr H; cbn [DistGraph.find] in H;
    apply bind_Ok in H as (f & Hf & H);
    (assert (Hme : cl !! me = Some f)
       by (unfold DistGraph.machine in Hf;
           destruct (cl !! me); [now inversion Hf | discriminate]));
    destruct (DistGraph.global2localvid f !! source) as [ls|] eqn:Hls;
    destruct (DistGraph.global2localvid f !! target) as [lt|] eqn:Hlt;
    try (now apply (Hlocal me f ls lt tr Hme Hls Hlt));
    apply bind_Ok in H as (u & _ & H);
    destruct (_ =? DistGraph.procid f); try (now inversion H);
    try discriminate;
    apply bind_Ok in H as ([ret tr'] & Hrec & H);
    inversion H; subst;
    destruct (IH _ _ Hrec) as (fo & lso & lto & e & Hlast & Hrest);
    exists fo, lso, lto, e; (split; [| exact Hrest]);
    rewrite last_cons; destruct (last tr'); exact Hlast.
Qed.

End distributed_find_facts.

Lemma distributed_find_reports_existing_edge_witness :
  DistGraph.find 1 Inputs.two_machines 0 99 42 = Ok ((true, 12), [1])
  /\ exists f localsource localtarget e,
       Inputs.two_machines !! default 0 (last [1]) = Some f
       /\ DistGraph.global2localvid f !! 99 = Some localsource
       /\ DistGraph.global2localvid f !! 42 = Some localtarget
       /\ LocalStore.edges (DistGraph.localstore f) !! N.to_nat e
          = Some (LocalStore.Edge localsource localtarget)
       /\ DistGraph.local2globaleid f !! N.to_nat e = Some 12.
Proof.
  assert (H : DistGraph.find 1 Inputs.two_machines 0 99 42
              = Ok ((true, 12), [1])) by (vm_compute; reflexivity).
  split; [exact H |].
  apply (distributed_find_reports_existing_edge 1 Inputs.two_machines
           0 99 42 12 [1]); [| exact H].
  intros p f Hp. unfold Inputs.two_machines in Hp.
  apply lookup_insert_Some in Hp as [[<- <-] | [Hne Hp]]; [valid_store |].
  apply lookup_singleton_Some in Hp as [<- <-]. valid_store.
Defined.

(** ** In-edges across machines *)

Section in_edges_facts.
Import LocalStore Inputs Invariants.
Context {VertexData EdgeData : Type}.
Context {vdefault : Inhabited VertexData} {edefault : Inhabited EdgeData}.
Implicit Types f : DistGraph.fragment VertexData EdgeData.
Implicit Types cl : gmap N (DistGraph.fragment VertexData EdgeData).

Lemma translated_ids (local2global : list N) (ins acc ret : list N) :
  for_each ins
    (fun ret localeid => g ← vec_at local2global localeid; mret (ret ++ [g]))
    acc = Ok ret ->
  exists ids,
    ret = acc ++ ids
    /\ Forall2 (fun localeid g => local2global !! N.to_nat localeid = Some g)
               ins ids.
Proof.
  revert acc. induction ins as [|e ins IH]; intros acc H; simpl in H.
  - injection H as <-. exists []. split; [now rewrite app_nil_r | constructor].
  - apply bind_Ok in H as (acc' & Hstep & H).
    apply bind_Ok in Hstep as (g & Hg & Hacc). apply vec_at_Ok in Hg.
    injection Hacc as <-.
    destruct (IH _ H) as (ids & -> & Hall).
    exists (g :: ids). split; [now rewrite <- app_assoc |].
    now constructor.
Qed.

(** [in_edge_id_as_vec(v)] and [num_in_neighbors(v)] agree: when the stores
    of the machines have one in-edge list per vertex and
    [in_edge_id_as_vec(v)] returns, [num_in_neighbors(v)] asked on the same
    machine is passed to the same machines and returns the number of ids
    in the vector; on the machine that answers, the vector holds the
    global id of every local in-edge of the vertex, in order. *)
Theorem in_edge_id_as_vec_agrees_with_num_in_neighbors fuel cl me v
    ids hops :
  (forall p f, cl !! p = Some f ->
     vec_size (in_edges (DistGraph.localstore f))
     = nvertices (DistGraph.localstore f)) ->
  DistGraph.in_edge_id_as_vec fuel cl me v = Ok (ids, hops) ->
  (exists tr,
     DistGraph.num_in_neighbors fuel cl me v = Ok (vec_size ids, tr)
     /\ DistGraph.rpc_to <$> tr = hops)
  /\ exists f localvid ins,
       cl !! default me (last hops) = Some f
       /\ DistGraph.global2localvid f !! v = Some localvid
       /\ in_edges (DistGraph.localstore f) !! N.to_nat localvid = Some ins
       /\ Forall2 (fun localeid g =>
                     DistGraph.local2globaleid f !! N.to_nat localeid
                     = Some g) ins ids.
Proof.
  intros Hsized. revert me ids hops.
  assert (Hlocal : forall fuel me f localvid ids hops,
            cl !! me = Some f ->
            DistGraph.global2localvid f !! v = Some localvid ->
            DistGraph.localvid2owner f !! N.to_nat localvid
            = Some (DistGraph.procid f) ->
            (ins ← in_edge_ids (DistGraph.localstore f) localvid;
             ret ← for_each ins
                     (fun ret localeid =>
                        g ← vec_at (DistGraph.local2globaleid f) localeid;
                        mret (ret ++ [g]))
                     [];
             mret (ret, [])) = Ok (ids, hops) ->
            (exists tr,
               DistGraph.num_in_neighbors fuel cl me v
               = Ok (vec_size ids, tr)
               /\ DistGraph.rpc_to <$> tr = hops)
            /\ exists f localvid ins,
                 cl !! default me (last hops) = Some f
                 /\ DistGraph.global2localvid f !! v = Some localvid
                 /\ in_edges (DistGraph.localstore f) !! N.to_nat localvid
                    = Some ins
                 /\ Forall2 (fun localeid g =>
                               DistGraph.local2globaleid f
                                 !! N.to_nat localeid = Some g) ins ids).
  { intros fuel0 me f localvid ids hops Hme Hloc Hown H.
    apply bind_Ok in H as (ins & Hins & H).
    unfold in_edge_ids in Hins. apply vec_at_Ok in Hins.
    apply bind_Ok in H as (ret & Hret & H). inversion H; subst.
    destruct (translated_ids _ _ _ _ Hret) as (ids' & -> & Hall).
    simpl. split.
    - exists []. split; [| reflexivity].
      assert (Hn : num_in_neighbors (DistGraph.localstore f) localvid
                   = Ok (vec_size ids')).
      { unfold num_in_neighbors.
        assert (Hlt : localvid < nvertices (DistGraph.localstore f)).
        { rewrite <- (Hsized me f Hme). apply lookup_lt_Some in Hins.
          unfold vec_size. lia. }
        apply N.ltb_lt in Hlt. rewrite Hlt. simpl.
        rewrite (vec_at_lookup _ _ _ Hins). simpl.
        unfold vec_size. now rewrite (Forall2_length _ _ _ Hall). }
      exact (num_in_neighbors_owned fuel0 cl me v f localvid _
               Hme Hloc Hown Hn).
    - now exists f, localvid, ins. }
  induction fuel as [|fuel IH]; intros me ids hops H;
    cbn [DistGraph.in_edge_id_as_vec] in H;
    apply bind_Ok in H as (f & Hf & H);
    (assert (Hme : cl !! me = Some f)
       by (unfold DistGraph.machine in Hf;
           destruct (cl !! me); [now inversion Hf | discriminate])).
  - destruct (DistGraph.global2localvid f !! v) as [localvid|] eqn:Hloc.
    + apply bind_Ok in H as (owner & Hown & H). apply vec_at_Ok in Hown.
      destruct (N.eqb_spec owner (DistGraph.procid f)) as [-> | Hne].
      * exact (Hlocal 0%nat me f localvid ids hops Hme Hloc Hown H).
      * apply bind_Ok in H as (u & _ & H). discriminate.
    + apply bind_Ok in H as (u & _ & H). discriminate.
  - assert (Hremote : forall (Hroute :
              DistGraph.global2localvid f !! v = None
              \/ exists localvid owner,
                   DistGraph.global2localvid f !! v = Some localvid
                   /\ DistGraph.localvid2owner f !! N.to_nat localvid
                      = Some owner
                   /\ owner <> DistGraph.procid f),
              (_ ← assert (DistGraph.get_cached
                             (DistGraph.globalvid2owner f) v).1;
               '(ret, tr) ← DistGraph.in_edge_id_as_vec fuel cl
                              (DistGraph.get_cached
                                 (DistGraph.globalvid2owner f) v).2 v;
               mret (ret, (DistGraph.get_cached
                             (DistGraph.globalvid2owner f) v).2 :: tr))
              = Ok (ids, hops) ->
              (exists tr,
                 DistGraph.num_in_neighbors (S fuel) cl me v
                 = Ok (vec_size ids, tr)
                 /\ DistGraph.rpc_to <$> tr = hops)
              /\ exists f localvid ins,
                   cl !! default me (last hops) = Some f
                   /\ DistGraph.global2localvid f !! v = Some localvid
                   /\ in_edges (DistGraph.localstore f) !! N.to_nat localvid
                      = Some ins
                   /\ Forall2 (fun localeid g =>
                                 DistGraph.local2globaleid f
                                   !! N.to_nat localeid = Some g) ins ids).
    { intros Hroute Hrun.
      apply bind_Ok in Hrun as (u & Hassert & Hrun).
      apply assert_Ok in Hassert.
      apply bind_Ok in Hrun as ([ret tr'] & Hrec & Hrun).
      inversion Hrun; subst.
      destruct (IH _ _ _ Hrec) as ((tr & Hnum & Htr) & fo & lv & ins & Hlast
                                   & Hrest).
      split.
      - eexists. split.
        + cbn [DistGraph.num_in_neighbors].
          unfold mbind at 1, outcome_bind at 1. rewrite Hf.
          destruct Hroute as [Hnone | (lv0 & o & Hlv0 & Ho & Hne)].
          * rewrite Hnone, Hassert. simpl. rewrite Hnum. reflexivity.
          * rewrite Hlv0. rewrite (vec_at_lookup _ _ _ Ho). simpl.
            destruct (N.eqb_spec o (DistGraph.procid f)); [contradiction |].
            rewrite Hassert. simpl. rewrite Hnum. reflexivity.
        + rewrite fmap_cons, Htr. reflexivity.
      - exists fo, lv, ins. split; [| exact Hrest].
        rewrite last_cons. destruct (last tr'); exact Hlast. }
    destruct (DistGraph.global2localvid f !! v) as [localvid|] eqn:Hloc.
    + apply bind_Ok in H as (owner & Hown & H). apply vec_at_Ok in Hown.
      destruct (N.eqb_spec owner (DistGraph.procid f)) as [-> | Hne].
      * exact (Hlocal (S fuel) me f localvid ids hops Hme Hloc Hown H).
      * apply Hremote; [| exact H]. right. now exists localvid, owner.
    + apply Hremote; [now left | exact H].
Qed.

End in_edges_facts.

Lemma in_edge_id_as_vec_agrees_with_num_in_neighbors_witness :
  DistGraph.in_edge_id_as_vec 1 Inputs.two_machines 0 42
  = Ok ([11; 12], [1])
  /\ exists tr,
       DistGraph.num_in_neighbors 1 Inputs.two_machines 0 42
       = Ok (vec_size [11; 12], tr)
       /\ DistGraph.rpc_to <$> tr = [1].
Proof.
  assert (H : DistGraph.in_edge_id_as_vec 1 Inputs.two_machines 0 42
              = Ok ([11; 12], [1])) by (vm_compute; reflexivity).
  split; [exact H |].
  apply (in_edge_id_as_vec_agrees_with_num_in_neighbors 1
           Inputs.two_machines 0 42 [11; 12] [1]); [| exact H].
  intros p f Hp. unfold Inputs.two_machines in Hp.
  apply lookup_insert_Some in Hp as [[<- <-] | [Hne Hp]]; [reflexivity |].
  apply lookup_singleton_Some in Hp as [<- <-]. reflexivity.
Defined.

Lemma compute_coloring_counts_colors_in_use_witness :
  exists s,
    Inputs.path_store = Ok s
    /\ exists cs n,
         LocalStore.compute_coloring s = Ok (LocalStore.set_vcolors s cs, n)
         /\ forall c,
              c < n
              <-> exists v,
                    v < LocalStore.nvertices s
                    /\ Invariants.color_of (LocalStore.set_vcolors s cs) v
                       = c.
Proof.
  eexists. split; [vm_compute; reflexivity |].
  apply compute_coloring_counts_colors_in_use.
  - split; [valid_store |].
    split; [reflexivity |]. split; [reflexivity |].
    repeat (constructor; try reflexivity).
  - intros vid ins eid Hins Hin.
    destruct (N.to_nat vid) as [|[|[|k]]] eqn:E; simpl in Hins;
      [| | | now rewrite lookup_nil in Hins]; injection Hins as <-.
    + now apply elem_of_nil in Hin.
    + apply list_elem_of_singleton in Hin as ->.
      assert (vid = 1) as -> by lia. vm_compute. discriminate.
    + apply list_elem_of_singleton in Hin as ->.
      assert (vid = 2) as -> by lia. vm_compute. discriminate.
  - reflexivity.
Defined.

(** ** When [get_next] returns [EMPTY] and when a task *)

Section empty_facts.
Import Scheduler Invariants.
Context {Message : Type}.
Implicit Types s : queued_fifo_scheduler Message.

(** [get_next(cpuid)] returns [EMPTY] only with nothing left in the worker's
    own queues: after it, [out_queues[cpuid]] and [in_queues[cpuid]] are
    empty, the message map is as it was (every vertex it dropped on the way
    had no message), and the queues of the other workers are untouched. *)
Theorem get_next_empty_leaves_own_queues_empty fuel s cpuid s' :
  get_next fuel s cpuid = Ok (EMPTY, s') ->
  out_queues s' !! N.to_nat cpuid = Some []
  /\ in_queues s' !! N.to_nat cpuid = Some []
  /\ messages s' = messages s
  /\ forall j, j <> N.to_nat cpuid ->
       in_queues s' !! j = in_queues s !! j
       /\ out_queues s' !! j = out_queues s !! j.
Proof.
  revert s. induction fuel as [|fuel IH]; intros s H; [discriminate |].
  destruct (get_next_Ok_lookups _ _ _ _ H) as (outq & inq & Hout & Hin).
  destruct (get_next_iteration fuel s cpuid outq inq Hout Hin)
    as (master' & out' & inq' & _ & Hempty & _ & _ & Heq).
  rewrite Heq in H. clear Heq.
  assert (Hlo : (N.to_nat cpuid < length (out_queues s))%nat)
    by now apply lookup_lt_Some in Hout.
  assert (Hli : (N.to_nat cpuid < length (in_queues s))%nat)
    by now apply lookup_lt_Some in Hin.
  destruct out' as [|v queue].
  - injection H as <-. simpl. rewrite (Hempty eq_refl).
    split; [now apply list_lookup_insert_eq |].
    split; [now apply list_lookup_insert_eq |].
    split; [reflexivity |].
    intros j Hne. now rewrite !list_lookup_insert_ne by congruence.
  - unfold vertex_map_test_and_get in H.
    destruct (messages s !! v) as [msg|] eqn:Hmsg; [discriminate |].
    destruct (IH _ H) as (Ho & Hi & Hm & Hothers). simpl in Hm.
    split; [exact Ho |]. split; [exact Hi |]. split; [exact Hm |].
    intros j Hne. destruct (Hothers j Hne) as [Hji Hjo]. simpl in Hji, Hjo.
    rewrite Hji, Hjo. now rewrite !list_lookup_insert_ne by congruence.
Qed.

(** A worker is served its own tasks: when a vertex with a message sits in
    [out_queues[cpuid]] or [in_queues[cpuid]], [get_next(cpuid)] returns
    [NEW_TASK] (with that vertex or one it meets before it), after at most
    one iteration per vertex held by the master queue and the worker's two
    queues. *)
Theorem get_next_serves_own_pending_task fuel s cpuid outq inq x msg :
  out_queues s !! N.to_nat cpuid = Some outq ->
  in_queues s !! N.to_nat cpuid = Some inq ->
  x ∈ outq \/ x ∈ inq ->
  messages s !! x = Some msg ->
  (length (concat (master_queue s) ++ outq ++ inq) <= fuel)%nat ->
  exists ret_vid ret_msg s',
    get_next fuel s cpuid = Ok (NEW_TASK ret_vid ret_msg, s').
Proof.
  revert s outq inq.
  induction fuel as [|fuel IH]; intros s outq inq Hout Hin Hx Hmsg Hfuel.
  - exfalso. rewrite !length_app in Hfuel.
    destruct Hx as [Hx | Hx];
      apply list_elem_of_In, in_split in Hx as (l1 & l2 & ->);
      rewrite length_app in Hfuel; simpl in Hfuel; lia.
  - destruct (get_next_iteration fuel s cpuid outq inq Hout Hin)
      as (master' & out' & inq' & _ & Hempty & Hown & Hlen & Heq).
    rewrite Heq. clear Heq.
    assert (Hlo : (N.to_nat cpuid < length (out_queues s))%nat)
      by now apply lookup_lt_Some in Hout.
    assert (Hli : (N.to_nat cpuid < length (in_queues s))%nat)
      by now apply lookup_lt_Some in Hin.
    specialize (Hown x Hx).
    destruct out' as [|v queue].
    { rewrite (Hempty eq_refl) in Hown.
      destruct Hown as [Hown | Hown]; now apply elem_of_nil in Hown. }
    unfold vertex_map_test_and_get.
    destruct (messages s !! v) as [m|] eqn:Hv; [eauto |].
    apply (IH _ queue inq'); simpl.
    + now apply list_lookup_insert_eq.
    + now apply list_lookup_insert_eq.
    + destruct Hown as [Hown | Hown]; [| now right].
      apply elem_of_cons in Hown as [-> | Hown]; [congruence | now left].
    + exact Hmsg.
    + rewrite !length_app in *. simpl in Hlen. lia.
Qed.

End empty_facts.

Lemma get_next_serves_own_pending_task_witness :
  exists s ret_vid ret_msg s',
    Inputs.one_pending = Ok s
    /\ Scheduler.get_next 1 s 1
       = Ok (Scheduler.NEW_TASK ret_vid ret_msg, s').
Proof.
  eexists.
  match goal with |- exists ret_vid ret_msg s', ?G /\ _ =>
    assert (Hs : G) by (vm_compute; reflexivity)
  end.
  match type of Hs with _ = Ok ?s =>
    destruct (get_next_serves_own_pending_task 1 s 1 [] [7] 7
                (Messages.Sum 0x1p+0) eq_refl eq_refl)
      as (ret_vid & ret_msg & s' & Hget)
  end.
  - right. apply list_elem_of_here.
  - vm_compute. reflexivity.
  - simpl. lia.
  - exists ret_vid, ret_msg, s'. split; [exact Hs | exact Hget].
Defined.

Lemma get_next_empty_leaves_own_queues_empty_witness :
  exists s s',
    Inputs.one_pending = Ok s
    /\ Scheduler.get_next 1 s 0 = Ok (Scheduler.EMPTY, s')
    /\ Scheduler.out_queues s' !! N.to_nat 0 = Some []
    /\ Scheduler.in_queues s' !! N.to_nat 0 = Some []
    /\ Scheduler.messages s' = Scheduler.messages s
    /\ forall j, j <> N.to_nat 0 ->
         Scheduler.in_queues s' !! j = Scheduler.in_queues s !! j
         /\ Scheduler.out_queues s' !! j = Scheduler.out_queues s !! j.
Proof.
  eexists _, _. split; [vm_compute; reflexivity |].
  match goal with |- ?G /\ _ =>
    assert (H : G) by (vm_compute; reflexivity)
  end.
  split; [exact H |].
  exact (get_next_empty_leaves_own_queues_empty _ _ _ _ H).
Defined.
